(** * Context-expansion arbitration: candidates, clusters and the round engine

    A shallow embedding of [mypackage/cluster_selection/classes.py] and
    [mypackage/cluster_selection/cluster_selection.py].

    Conventions of the embedding
    - Python [int] is [Z]; a field that may hold [None] is an [option].
    - Python [float] relevance scores are idealised as exact rationals [Q];
      [round(x, 3)] is rounding to the nearest multiple of 1/1000, ties to even.
    - A raised exception is the [Raise] outcome of the [result] monad; nothing
      in the two modules catches exceptions, so a raise aborts the caller.
    - The cross-encoder and the neighbour lookups of [SentenceChain] live
      outside the two modules; they are parameters of the development. *)

From Stdlib Require Import ZArith QArith String Ascii List Lia DecimalString.
From stdpp Require Import base option list sorting functions gmap strings.
Import ListNotations.

Local Open Scope Z_scope.

(** ** Exceptions and the error monad *)

Inductive exn : Set :=
| IndexError   (* sequence index out of range *)
| TypeError    (* [None] used as an index, unordered comparison *)
| KeyError     (* missing dictionary key *)
| UsageError.  (* the plain [Exception] raised by [clear_timestamp] *)

Inductive result (A : Type) : Type :=
| Ok (a : A)
| Raise (e : exn).

Arguments Ok {A} a.
Arguments Raise {A} e.

#[global] Instance result_ret : MRet result := @Ok.
#[global] Instance result_bind : MBind result :=
  fun A B f m => match m with Ok a => f a | Raise e => Raise e end.

#[global] Instance result_fmap : FMap result :=
  fun A B f m => match m with Ok a => Ok (f a) | Raise e => Raise e end.

Definition is_ok {A} (r : result A) : bool :=
  match r with Ok _ => true | Raise _ => false end.

(** ** Python sequences *)

(** [l[i]] for an integer [i]: negative indices count from the end. *)
Definition norm_index (len : nat) (i : Z) : result nat :=
  let n := Z.of_nat len in
  if (0 <=? i) && (i <? n) then Ok (Z.to_nat i)
  else if (- n <=? i) && (i <? 0) then Ok (Z.to_nat (n + i))
  else Raise IndexError.

Definition getitem {A} (l : list A) (i : Z) : result A :=
  k ← norm_index (length l) i;
  from_option Ok (Raise IndexError) (l !! k).

(** [l[i]] where [i] may be [None]. *)
Definition getitem_opt {A} (l : list A) (i : option Z) : result A :=
  match i with
  | None => Raise TypeError
  | Some i => getitem l i
  end.

(** [l[i].attr = v], written as an update of the element in place. *)
Definition setattr_at {A} (f : A → A) (l : list A) (i : option Z) : result (list A) :=
  match i with
  | None => Raise TypeError
  | Some i => k ← norm_index (length l) i; Ok (alter f k l)
  end.

(** [l.pop(i)]: the list without its [i]-th element. *)
Definition pop_at {A} (l : list A) (i : option Z) : result (list A) :=
  match i with
  | None => Raise TypeError
  | Some i => k ← norm_index (length l) i; Ok (delete k l)
  end.

(** [enumerate(l)]. *)
Definition enumerate {A} (l : list A) : list (nat * A) := imap (λ i x, (i, x)) l.

(** Strict comparison of scores, as a boolean. *)
Definition Qlt_bool (a b : Q) : bool := negb (Qle_bool b a).

(** [max(l, key=key)]: the first element whose key is maximal. *)
Fixpoint max_from {A} (key : A → Q) (best : A) (l : list A) : A :=
  match l with
  | [] => best
  | x :: r => max_from key (if Qlt_bool (key best) (key x) then x else best) r
  end.

Definition py_max {A} (key : A → Q) (l : list A) : option A :=
  match l with
  | [] => None
  | x :: r => Some (max_from key x r)
  end.

(** [round(x, 3)] on the idealised scores. *)
Definition round_half_even (q : Q) : Z :=
  let n := Qnum q in
  let d := Z.pos (Qden q) in
  let f := n / d in
  let r2 := 2 * (n mod d) in
  if r2 <? d then f
  else if d <? r2 then f + 1
  else if Z.even f then f else f + 1.

Definition round3 (q : Q) : Q := Qmake (round_half_even (q * 1000)) 1000.

(** [str(n)] for an integer. *)
Definition str_of_Z (n : Z) : string := NilZero.string_of_int (Z.to_int n).

(** [len(s.split())]: the number of maximal runs of non-whitespace characters. *)
Definition is_space (a : ascii) : bool :=
  let n := nat_of_ascii a in
  ((9 <=? n)%nat && (n <=? 13)%nat) || ((28 <=? n)%nat && (n <=? 32)%nat)
  || (n =? 133)%nat || (n =? 160)%nat.

Fixpoint count_words (in_word : bool) (s : string) : nat :=
  match s with
  | EmptyString => 0%nat
  | String a r =>
      if is_space a then count_words false r
      else if in_word then count_words true r
      else S (count_words true r)
  end.

Definition word_count (s : string) : nat := count_words false s.

(** ** Data model *)

(** A unit of the document: the part of [SentenceChain] the two modules read. *)
Record SentenceChain : Type := mkChain {
  chain_index : Z;
  text : string
}.

(** [SummaryCandidate.State]. *)
Record State : Type := mkState {
  chains : list SentenceChain;
  score : Q;
  actions : list string;
  timestamp : Z;
  improvement_score : Q
}.

(** [SummaryCandidate]; the evaluator it carries is the section parameter below. *)
Record SummaryCandidate : Type := mkCandidate {
  chain : SentenceChain;
  selected_state : option Z;
  history : list State;
  expandable : bool
}.

Definition set_chains (v : list SentenceChain) (s : State) : State :=
  mkState v (score s) (actions s) (timestamp s) (improvement_score s).
Definition set_score (v : Q) (s : State) : State :=
  mkState (chains s) v (actions s) (timestamp s) (improvement_score s).
Definition set_timestamp (v : Z) (s : State) : State :=
  mkState (chains s) (score s) (actions s) v (improvement_score s).
Definition set_improvement_score (v : Q) (s : State) : State :=
  mkState (chains s) (score s) (actions s) (timestamp s) v.

Definition set_selected_state (v : option Z) (c : SummaryCandidate) : SummaryCandidate :=
  mkCandidate (chain c) v (history c) (expandable c).
Definition set_history (v : list State) (c : SummaryCandidate) : SummaryCandidate :=
  mkCandidate (chain c) (selected_state c) v (expandable c).
Definition set_expandable (v : bool) (c : SummaryCandidate) : SummaryCandidate :=
  mkCandidate (chain c) (selected_state c) (history c) v.

(** [State.from_state]: a copy of [s] whose action list gains [action]. *)
Definition from_state (s : State) (action : option string) : State :=
  mkState (chains s) (score s)
          (actions s ++ match action with Some a => [a] | None => [] end)
          (timestamp s) (improvement_score s).

(** [State.text]: the chains' texts joined with no separator. *)
Definition state_text (s : State) : string :=
  String.concat "" (map text s.(chains)).

(** [State.first_index], [State.last_index], [State.index_range]. *)
Definition first_index (s : State) : result Z :=
  chain_index <$> getitem s.(chains) 0.
Definition last_index (s : State) : result Z :=
  chain_index <$> getitem s.(chains) (-1).

(** [State.index_range]: the half-open [range(first, last + 1)], kept as its
    two bounds [(start, stop)]. *)
Definition index_range (s : State) : result (Z * Z) :=
  a ← first_index s; b ← last_index s; Ok (a, b + 1).

(** [SummaryCandidate.__init__]: one seed state holding the anchor alone; the
    selection is the sentinel [-1] (latest). *)
Definition new_candidate (ch : SentenceChain) (sc : Q) : SummaryCandidate :=
  mkCandidate ch (Some (-1)) [mkState [ch] sc [] 0 0%Q] true.

(** [SummaryCandidate.context]: [self.history[self.selected_state]]. *)
Definition context (c : SummaryCandidate) : result State :=
  getitem_opt c.(history) c.(selected_state).

(** [SummaryCandidate.score] (the getter). *)
Definition cand_score (c : SummaryCandidate) : result Q := score <$> context c.

(** [SummaryCandidate.index_range] and [first_index]. *)
Definition cand_index_range (c : SummaryCandidate) : result (Z * Z) :=
  context c ≫= index_range.
Definition cand_first_index (c : SummaryCandidate) : result Z :=
  context c ≫= first_index.

(** The unit indices of a state, and whether [x] lies in a [range]. *)
Definition unit_indices (s : State) : list Z := map chain_index s.(chains).
Definition in_range (x : Z) (r : Z * Z) : bool := (r.1 <=? x) && (x <? r.2).

(** *** [optimize] *)

(** [any(it.chain_index in constraints for it in s.chains)]. *)
Definition touches (constraints : list Z) (s : State) : bool :=
  existsb (λ it, bool_decide (chain_index it ∈ constraints)) s.(chains).

(** The list [temp] of [optimize]: the history indices that pass the
    timestamp filter and then the constraint filter. *)
Definition optimize_pool (ts : option Z) (constraints : option (list Z))
    (h : list State) : list nat :=
  let temp :=
    match ts with
    | Some t => (List.filter (λ p, bool_decide (timestamp p.2 = t)) (enumerate h)).*1
    | None => seq 0 (length h)
    end in
  match constraints with
  | Some cs => List.filter (λ i, negb (from_option (touches cs) false (h !! i))) temp
  | None => temp
  end.

(** The key of [max] in [optimize]: [self.history[i].improvement_score]. Every
    index of the pool is a history index, so the default is never used. *)
Definition density_at (h : list State) (i : nat) : Q :=
  from_option improvement_score 0%Q (h !! i).

(** [SummaryCandidate.optimize]; returns the updated candidate and the value
    the method returns (the new index, or [None]). *)
Definition optimize (stop_expansion : bool) (ts : option Z)
    (constraints : option (list Z)) (threshold : Q) (c : SummaryCandidate)
    : result (SummaryCandidate * option Z) :=
  let temp := optimize_pool ts constraints c.(history) in
  h ← match c.(selected_state) with
      | Some _ => setattr_at (set_improvement_score threshold) c.(history) c.(selected_state)
      | None => Ok c.(history)
      end;
  match py_max (density_at h) temp with
  | Some new_state =>
      let unchanged := bool_decide (c.(selected_state) = Some (Z.of_nat new_state)) in
      Ok (mkCandidate c.(chain) (Some (Z.of_nat new_state)) h
            (if stop_expansion && unchanged then false else c.(expandable)),
          Some (Z.of_nat new_state))
  | None => Ok (mkCandidate c.(chain) c.(selected_state) h false, None)
  end.

(** *** Clearing the history *)

(** [sorted(set(l))] for integers. *)
Definition sorted_set (l : list Z) : list Z := merge_sort Z.le (remove_dups l).

(** [{i: new_i for new_i, i in enumerate(order)}.get(k, 0)]. *)
Definition rank_in (order : list Z) (k : Z) : Z :=
  from_option (λ p, Z.of_nat p.1) 0 (list_find (λ i, i = k) order).

(** [SummaryCandidate.clear_history]. *)
Definition clear_history (exceptions : list Z) (c : SummaryCandidate)
    : result SummaryCandidate :=
  let had_latest_state := bool_decide (c.(selected_state) = Some (-1)) in
  let sel := if had_latest_state
             then Some (Z.of_nat (length c.(history)) - 1) else c.(selected_state) in
  let preserved (i : nat) :=
    bool_decide (Z.of_nat i ∈ exceptions) || bool_decide (sel = Some (Z.of_nat i)) in
  let h := (List.filter (λ p, preserved p.1) (enumerate c.(history))).*2 in
  if had_latest_state then Ok (mkCandidate c.(chain) (Some (-1)) h c.(expandable))
  else
    match sel with
    | Some s =>
        let order := sorted_set (exceptions ++ [s]) in
        Ok (mkCandidate c.(chain) (Some (rank_in order s)) h c.(expandable))
    | None =>
        (* [sorted] of a set holding [None] and integers cannot compare them *)
        match exceptions with
        | [] => Ok (mkCandidate c.(chain) (Some 0) h c.(expandable))
        | _ :: _ => Raise TypeError
        end
    end.

(** [SummaryCandidate.clear_timestamp]. *)
Definition clear_timestamp (ts : Z) (c : SummaryCandidate) : result SummaryCandidate :=
  cur ← context c;
  if bool_decide (timestamp cur = ts) then Raise UsageError
  else
    let had_latest_state := bool_decide (c.(selected_state) = Some (-1)) in
    let sel := if had_latest_state
               then Z.of_nat (length c.(history)) - 1
               else default 0 c.(selected_state) in
    let old_history := c.(history) in
    let h := List.filter (λ s, negb (bool_decide (timestamp s = ts))) old_history in
    if had_latest_state then Ok (mkCandidate c.(chain) (Some (-1)) h c.(expandable))
    else
      let removed_before :=
        length (List.filter
                  (λ p, bool_decide (timestamp p.2 = ts) && (Z.of_nat p.1 <? sel))
                  (enumerate old_history)) in
      let moved := sel - Z.of_nat removed_before in
      Ok (mkCandidate c.(chain)
            (Some (Z.max 0 (Z.min moved (Z.of_nat (length h) - 1)))) h c.(expandable)).

(** ** Growth operations *)

Section Growth.

(** The cross-encoder applied to the query and a text. *)
Variable model : string → Q.

(** [SentenceChain.next(n, force_list=True)] and [SentenceChain.prev]: up to
    [n] neighbours after / before a chain, in document order. *)
Variables next prev : SentenceChain → Z → list SentenceChain.

(** [RelevanceEvaluator.predict(sentences, join=True)]: the whole window is
    scored as one text. *)
Definition predict_joined (sentences : list SentenceChain) : Q :=
  model (String.concat "" (map text sentences)).

(** The three ways a window is extended by [n] units. *)
Definition extend_right (n : Z) (cs : list SentenceChain) : result (list SentenceChain) :=
  l ← getitem cs (-1); Ok (cs ++ next l n).
Definition extend_left (n : Z) (cs : list SentenceChain) : result (list SentenceChain) :=
  f ← getitem cs 0; Ok (prev f n ++ cs).
Definition extend_both (n : Z) (cs : list SentenceChain) : result (list SentenceChain) :=
  extend_right n cs ≫= extend_left n.

(** The branch point: [branch_from], or the selected state with the sentinel
    [-1] replaced by the last index. *)
Definition branch_point (branch_from : option Z) (c : SummaryCandidate) : option Z :=
  match branch_from with
  | Some b => Some b
  | None =>
      if bool_decide (c.(selected_state) = Some (-1))
      then Some (Z.of_nat (length c.(history)) - 1)
      else c.(selected_state)
  end.

(** The body shared by the three growth methods, which differ only in the
    action tag and in how the copied chain list is extended. The parent is
    read a second time, through [self.history[branch_from]], after the new
    state was appended. *)
Definition grow (tag : string) (extend : Z → list SentenceChain → result (list SentenceChain))
    (n : Z) (branch_from : option Z) (ts : Z) (c : SummaryCandidate)
    : result SummaryCandidate :=
  if (n <=? 0) || negb c.(expandable) then Ok c
  else
    let bf := branch_point branch_from c in
    parent ← getitem_opt c.(history) bf;
    let s := set_timestamp ts (from_state parent (Some (tag +:+ " " +:+ str_of_Z n))) in
    cs ← extend n s.(chains);
    let s := set_chains cs s in
    let s := set_score (predict_joined s.(chains)) s in
    let added_length := word_count (state_text s) in
    if (0 <? added_length)%nat then
      base ← getitem_opt (c.(history) ++ [s]) bf;
      let d := round3 ((score s - score base) / inject_Z (Z.of_nat added_length)) in
      Ok (set_history (c.(history) ++ [set_improvement_score d s]) c)
    else Ok (set_history (c.(history) ++ [s]) c).

Definition add_right_context := grow "right" extend_right.
Definition add_left_context := grow "left" extend_left.
Definition add_bidirectional_context := grow "bidirectional" extend_both.

(** The state a growth operation builds from its parent, before the density
    is settled. *)
Definition grown (d_tag : string) (n ts : Z) (parent : State) (cs : list SentenceChain) : State :=
  set_score (predict_joined cs)
    (set_chains cs (set_timestamp ts (from_state parent (Some (d_tag +:+ " " +:+ str_of_Z n))))).

(** The three growth methods, by direction. *)
Inductive direction : Set := Left | Right | Bidirectional.

Definition grow_in (d : direction) : Z → option Z → Z → SummaryCandidate → result SummaryCandidate :=
  match d with
  | Left => add_left_context
  | Right => add_right_context
  | Bidirectional => add_bidirectional_context
  end.

Definition tag_of (d : direction) : string :=
  match d with Left => "left" | Right => "right" | Bidirectional => "bidirectional" end.

Definition extend_in (d : direction) : Z → list SentenceChain → result (list SentenceChain) :=
  match d with
  | Left => extend_left
  | Right => extend_right
  | Bidirectional => extend_both
  end.

End Growth.

(** ** Sorting as Python does *)

(** [sorted(l, key=...)] is stable. [insert_by before x l] puts [x] in front
    of the first element that must not stay before it; with [before y x]
    meaning "the key of [y] is strictly smaller" this is the ascending sort,
    and with "strictly greater" it is [reverse=True], which also keeps equal
    elements in their original order. *)
Fixpoint insert_by {A} (before : A → A → bool) (x : A) (l : list A) : list A :=
  match l with
  | [] => [x]
  | y :: r => if before y x then y :: insert_by before x r else x :: l
  end.

Definition sort_by {A} (before : A → A → bool) (l : list A) : list A :=
  foldr (insert_by before) [] l.

(** [may_precede before a b]: nothing forces [b] in front of [a]. *)
Definition may_precede {A} (before : A → A → bool) (a b : A) : Prop := before b a = false.

(** The keys are computed once per element, before any comparison. *)
Definition with_keys {A K} (key : A → result K) (l : list A) : result (list (K * A)) :=
  mapM (λ x, k ← key x; Ok (k, x)) l.

(** ** Clusters *)

(** [SelectedCluster]: the chains of the underlying [ChainCluster], the
    similarity to the query and the candidates. *)
Record SelectedCluster : Type := mkCluster {
  cluster_chains : list SentenceChain;
  sim : Q;
  candidates : list SummaryCandidate
}.

Definition set_candidates (v : list SummaryCandidate) (cl : SelectedCluster) : SelectedCluster :=
  mkCluster cl.(cluster_chains) cl.(sim) v.

(** [tuple(range(start, stop))]. *)
Definition tuple_of_range (r : Z * Z) : list Z :=
  (λ i, r.1 + Z.of_nat i) <$> seq 0 (Z.to_nat (r.2 - r.1)).

(** The loop of [remove_duplicate_candidates], with its [seen] set and the
    [keep] list (built in order). *)
Fixpoint dedup_scan (seen : list (list Z)) (l : list SummaryCandidate)
    : result (list SummaryCandidate) :=
  match l with
  | [] => Ok []
  | candidate :: r =>
      temp ← tuple_of_range <$> cand_index_range candidate;
      if bool_decide (temp ∈ seen) then dedup_scan seen r
      else keep ← dedup_scan (temp :: seen) r; Ok (candidate :: keep)
  end.

(** [SelectedCluster.remove_duplicate_candidates]. *)
Definition remove_duplicate_candidates (cl : SelectedCluster) : result SelectedCluster :=
  keep ← dedup_scan [] cl.(candidates); Ok (set_candidates keep cl).

(** The sort key of [rerank_candidates], [(x.score, 6666 - x.chain.chain_index)],
    and the strict order of such pairs: the first components decide unless
    they are equal. *)
Definition rank_key (x : SummaryCandidate) : result (Q * Z) :=
  s ← cand_score x; Ok (s, 6666 - chain_index x.(chain)).

Definition key_lt (a b : Q * Z) : bool :=
  if Qeq_bool a.1 b.1 then a.2 <? b.2 else Qlt_bool a.1 b.1.

(** With [reverse=True] an element stays in front of a later one exactly when
    its key is strictly greater. *)
Definition keyed_before (y x : (Q * Z) * SummaryCandidate) : bool := key_lt x.1 y.1.

(** [sorted(l, key=rank_key, reverse=True)]. *)
Definition rerank_list (l : list SummaryCandidate) : result (list SummaryCandidate) :=
  keyed ← with_keys rank_key l;
  Ok (sort_by keyed_before keyed).*2.

(** The order the spec asks of a ranked list: [a] may be listed before [b] when
    its score is higher, or the scores are equal and its anchor index is not
    larger. *)
Definition ranked_before (a b : SummaryCandidate) : Prop :=
  ∃ sa sb, cand_score a = Ok sa ∧ cand_score b = Ok sb ∧
    ((sb < sa)%Q ∨ ((sa == sb)%Q ∧ chain_index (chain a) ≤ chain_index (chain b))).

(** [SelectedCluster.rerank_candidates]. *)
Definition rerank_candidates (cl : SelectedCluster) : result SelectedCluster :=
  l ← rerank_list cl.(candidates); Ok (set_candidates l cl).

(** [SelectedCluster.filter_candidates]. *)
Definition filter_candidates (threshold : Q) (cl : SelectedCluster) : result SelectedCluster :=
  keyed ← with_keys cand_score cl.(candidates);
  Ok (set_candidates (List.filter (λ p, Qlt_bool threshold p.1) keyed).*2 cl).

(** [l[k:]] for an integer [k]. *)
Definition slice_from {A} (l : list A) (k : Z) : list A :=
  let n := Z.of_nat (length l) in
  let k := if k <? 0 then Z.max 0 (k + n) else Z.min k n in
  drop (Z.to_nat k) l.

Section Cluster.

Variable model : string → Q.

(** One candidate of [rescore_candidates]: the selected state is scored again. *)
Definition rescore (c : SummaryCandidate) : result SummaryCandidate :=
  cur ← getitem_opt c.(history) c.(selected_state);
  h ← setattr_at (set_score (predict_joined model cur.(chains))) c.(history) c.(selected_state);
  Ok (set_history h c).

(** [SelectedCluster.rescore_candidates]. *)
Definition rescore_candidates (cl : SelectedCluster) : result SelectedCluster :=
  l ← mapM rescore cl.(candidates); Ok (set_candidates l cl).

(** [prev.context.chains += extra]. *)
Definition extend_context (extra : list SentenceChain) (c : SummaryCandidate)
    : result SummaryCandidate :=
  cur ← context c;
  h ← setattr_at (set_chains (cur.(chains) ++ extra)) c.(history) c.(selected_state);
  Ok (set_history h c).

(** One iteration of the scan of [merge_candidates]: the pair is [(prev, keep)]. *)
Definition merge_step (threshold : Q) (acc : SummaryCandidate * list SummaryCandidate)
    (candidate : SummaryCandidate) : result (SummaryCandidate * list SummaryCandidate) :=
  let '(prev, keep) := acc in
  sp ← cand_score prev;
  sc ← cand_score candidate;
  if Qle_bool 0 ((sp - threshold) * (sc - threshold)) then
    rc ← cand_index_range candidate;
    rp ← cand_index_range prev;
    if in_range rc.1 rp then
      let extra_chains := rc.2 - rp.2 in
      cc ← context candidate;
      prev' ← extend_context
                (slice_from cc.(chains) (Z.of_nat (length cc.(chains)) - extra_chains)) prev;
      Ok (prev', keep)
    else if bool_decide (rc.1 = rp.2) then
      cc ← context candidate;
      prev' ← extend_context cc.(chains) prev;
      Ok (prev', keep)
    else Ok (candidate, keep ++ [prev])
  else Ok (candidate, keep ++ [prev]).

Fixpoint merge_scan (threshold : Q) (acc : SummaryCandidate * list SummaryCandidate)
    (l : list SummaryCandidate) : result (SummaryCandidate * list SummaryCandidate) :=
  match l with
  | [] => Ok acc
  | candidate :: r => acc' ← merge_step threshold acc candidate; merge_scan threshold acc' r
  end.

(** [SelectedCluster.merge_candidates]. *)
Definition merge_candidates (threshold : Q) (cl : SelectedCluster) : result SelectedCluster :=
  keyed ← with_keys cand_first_index cl.(candidates);
  let sorted := (sort_by (λ y x, y.1 <? x.1) keyed).*2 in
  prev ← getitem sorted 0;
  '(prev, keep) ← merge_scan threshold (prev, []) (drop 1 sorted);
  let keep := keep ++ [prev] in
  rescore_candidates (set_candidates keep cl) ≫= rerank_candidates.

End Cluster.

(** ** The arbitration engine *)

(** Outcome of code that contains a [while True] loop: it returns, raises, or
    is still running when the iteration budget is used up. *)
Inductive run (A : Type) : Type :=
| Done (a : A)
| Crashed (e : exn)
| OutOfFuel.

Arguments Done {A} a.
Arguments Crashed {A} e.
Arguments OutOfFuel {A}.

#[global] Instance run_ret : MRet run := @Done.
#[global] Instance run_bind : MBind run :=
  fun A B f m => match m with Done a => f a | Crashed e => Crashed e | OutOfFuel => OutOfFuel end.

Definition lift {A} (r : result A) : run A :=
  match r with Ok a => Done a | Raise e => Crashed e end.

(** What one pass through a loop body asks for. *)
Inductive flow (S : Type) : Type :=
| Break (s : S)
| Continue (s : S).

Arguments Break {S} s.
Arguments Continue {S} s.

(** [while True: body], run for at most [fuel] passes. *)
Fixpoint while_true {S} (body : S → result (flow S)) (fuel : nat) (s : S) : run S :=
  match fuel with
  | O => OutOfFuel
  | S fuel =>
      match body s with
      | Ok (Break s') => Done s'
      | Ok (Continue s') => while_true body fuel s'
      | Raise e => Crashed e
      end
  end.

(** The variables of one round: the candidate list (whose objects are
    mutated in place), [seen_chains], [current_round_forbids],
    [marked_for_deletion] and [expanded]. *)
Record round_state : Type := mkRound {
  cands : list SummaryCandidate;
  seen_chains : gset Z;
  current_round_forbids : gmap Z nat;
  marked_for_deletion : list bool;
  expanded : bool
}.

Definition set_cands (v : list SummaryCandidate) (st : round_state) : round_state :=
  mkRound v st.(seen_chains) st.(current_round_forbids) st.(marked_for_deletion) st.(expanded).
Definition set_marked (v : list bool) (st : round_state) : round_state :=
  mkRound st.(cands) st.(seen_chains) st.(current_round_forbids) v st.(expanded).
Definition set_forbids (v : gmap Z nat) (st : round_state) : round_state :=
  mkRound st.(cands) st.(seen_chains) v st.(marked_for_deletion) st.(expanded).
Definition set_expanded (v : bool) (st : round_state) : round_state :=
  mkRound st.(cands) st.(seen_chains) st.(current_round_forbids) st.(marked_for_deletion) v.

(** [cluster.candidates[pos]] for a position, [d[k]] for a dictionary and
    [l[pos] = v] for a list. *)
Definition cand_at (l : list SummaryCandidate) (pos : nat) : result SummaryCandidate :=
  from_option Ok (Raise IndexError) (l !! pos).
Definition dict_get (d : gmap Z nat) (k : Z) : result nat :=
  from_option Ok (Raise KeyError) (d !! k).
Definition setitem {A} (l : list A) (pos : nat) (v : A) : result (list A) :=
  if (pos <? length l)%nat then Ok (<[pos := v]> l) else Raise IndexError.

(** [seen_chains.add(i); current_round_forbids[i] = pos]. *)
Definition claim (pos : nat) (i : Z) (st : round_state) : round_state :=
  mkRound st.(cands) ({[i]} ∪ st.(seen_chains)) (<[i := pos]> st.(current_round_forbids))
          st.(marked_for_deletion) st.(expanded).

(** [[i for i, s in enumerate(history) if s.timestamp == timestamp][0]]. *)
Definition first_with_timestamp (ts : Z) (h : list State) : result nat :=
  match (List.filter (λ p, bool_decide (timestamp p.2 = ts)) (enumerate h)).*1 with
  | i :: _ => Ok i
  | [] => Raise IndexError
  end.

Section Engine.

Variable model : string → Q.
Variables next prev : SentenceChain → Z → list SentenceChain.
Variable threshold : Q.

(** The branch-selection policy: the selected state is solidified and
    stamped with the round, then grown by one unit in the directions its
    last action allows. *)
Definition expand (ts : Z) (candidate : SummaryCandidate) : result SummaryCandidate :=
  let candidate :=
    if bool_decide (candidate.(selected_state) = Some (-1))
    then set_selected_state (Some (Z.of_nat (length candidate.(history)) - 1)) candidate
    else candidate in
  h ← setattr_at (set_timestamp ts) candidate.(history) candidate.(selected_state);
  let candidate := set_history h candidate in
  cur ← context candidate;
  let last_action := last cur.(actions) in
  if bool_decide (last_action = None)
     || from_option (String.prefix "bidirectional") false last_action then
    let branch_point := candidate.(selected_state) in
    c1 ← add_left_context model prev 1 None ts candidate;
    c2 ← add_right_context model next 1 branch_point ts c1;
    add_bidirectional_context model next prev 1 branch_point ts c2
  else if from_option (String.prefix "left") false last_action then
    add_left_context model prev 1 None ts candidate
  else if from_option (String.prefix "right") false last_action then
    add_right_context model next 1 None ts candidate
  else Ok candidate.

(** One pass of the conflict loop for the candidate at [pos]. *)
Definition conflict_step (ts : Z) (pos : nat) (st : round_state)
    : result (flow round_state) :=
  candidate ← cand_at st.(cands) pos;
  cur ← context candidate;
  let forbidden_chains :=
    List.filter (λ c, bool_decide (chain_index c ∈ st.(seen_chains))) cur.(chains) in
  match forbidden_chains with
  | [] => Ok (Break st)
  | [f] =>
      owner ← dict_get st.(current_round_forbids) (chain_index f);
      other_candidate ← cand_at st.(cands) owner;
      mine ← cand_score candidate;
      theirs ← cand_score other_candidate;
      if Qlt_bool theirs mine then
        marked ← setitem st.(marked_for_deletion) owner true;
        Ok (Break (set_forbids (<[chain_index f := pos]> st.(current_round_forbids))
                     (set_marked marked st)))
      else
        initial_state_for_this_timestamp ← first_with_timestamp ts candidate.(history);
        h ← pop_at candidate.(history) candidate.(selected_state);
        let popped := mkCandidate candidate.(chain) None h candidate.(expandable) in
        r ← optimize false (Some ts) None threshold popped;
        let candidate := r.1 in
        let candidate :=
          if bool_decide (candidate.(selected_state)
                          = Some (Z.of_nat initial_state_for_this_timestamp))
          then set_expandable false candidate else candidate in
        Ok (Continue (set_cands (<[pos := candidate]> st.(cands)) st))
  | [f0; f1] =>
      owner1 ← dict_get st.(current_round_forbids) (chain_index f0);
      other1 ← cand_at st.(cands) owner1;
      owner2 ← dict_get st.(current_round_forbids) (chain_index f1);
      other2 ← cand_at st.(cands) owner2;
      mine ← cand_score candidate;
      s1 ← cand_score other1;
      (* [and] evaluates its right operand only when the left one holds *)
      wins ← (if Qlt_bool s1 mine
              then s2 ← cand_score other2; Ok (Qlt_bool s2 mine)
              else Ok false);
      if (wins : bool) then
        marked ← setitem st.(marked_for_deletion) owner1 true;
        marked ← setitem marked owner2 true;
        Ok (Break (set_forbids
                     (<[chain_index f1 := pos]>
                        (<[chain_index f0 := pos]> st.(current_round_forbids)))
                     (set_marked marked st)))
      else
        i ← first_with_timestamp ts candidate.(history);
        let candidate :=
          mkCandidate candidate.(chain) (Some (Z.of_nat i)) candidate.(history) false in
        Ok (Break (set_cands (<[pos := candidate]> st.(cands)) st))
  | _ => Ok (Continue st)
  end.

(** The forced re-selection of the candidates that held, in the previous
    round, a unit the candidate at [pos] now holds. *)
Definition enforce_one (prev_round_forbids : gmap Z nat) (pos : nat)
    (st : round_state) (ch : SentenceChain) : result round_state :=
  match prev_round_forbids !! chain_index ch with
  | Some pos_to_forbid =>
      if negb (pos_to_forbid =? 0)%nat && (pos <? pos_to_forbid)%nat then
        bad ← cand_at st.(cands) pos_to_forbid;
        r ← optimize false None
              (Some (map_to_list st.(current_round_forbids)).*1) threshold bad;
        let st := set_cands (<[pos_to_forbid := r.1]> st.(cands)) st in
        match r.2 with
        | None => marked ← setitem st.(marked_for_deletion) pos_to_forbid true;
                  Ok (set_marked marked st)
        | Some _ => Ok st
        end
      else Ok st
  | None => Ok st
  end.

Fixpoint enforce (prev_round_forbids : gmap Z nat) (pos : nat)
    (l : list SentenceChain) (st : round_state) : result round_state :=
  match l with
  | [] => Ok st
  | ch :: r => st' ← enforce_one prev_round_forbids pos st ch;
               enforce prev_round_forbids pos r st'
  end.

(** The skip rules at the head of the [for] body. [Some st'] means the
    candidate at [pos] is done for this round ([continue]); [None] means it
    goes on to grow. *)
Definition skip_rules (pos : nat) (st : round_state) : result (option round_state) :=
  marked ← from_option Ok (Raise IndexError) (st.(marked_for_deletion) !! pos);
  if (marked : bool) then Ok (Some st)
  else
    candidate ← cand_at st.(cands) pos;
    if negb candidate.(expandable) then
      cur ← context candidate;
      Ok (Some (foldl (λ st c, claim pos (chain_index c) st) st cur.(chains)))
    else if bool_decide (chain_index candidate.(chain) ∈ st.(seen_chains)) then
      marked ← setitem st.(marked_for_deletion) pos true;
      Ok (Some (set_marked marked st))
    else Ok None.

(** Growth and the first selection of the round. *)
Definition grow_and_select (ts : Z) (pos : nat) (st : round_state) : result round_state :=
  candidate ← cand_at st.(cands) pos;
  candidate ← expand ts candidate;
  r ← optimize true (Some ts) None threshold candidate;
  Ok (set_cands (<[pos := r.1]> st.(cands)) st).

(** What follows the conflict loop: pruning of the previous round's states,
    the claim of the units not yet seen, the enforcement against the previous
    round's owners, and the update of [expanded]. *)
Definition settle (ts : Z) (prev_round_forbids : option (gmap Z nat)) (pos : nat)
    (st : round_state) : result round_state :=
  candidate ← cand_at st.(cands) pos;
  candidate ← clear_timestamp (ts - 1) candidate;
  let st := set_cands (<[pos := candidate]> st.(cands)) st in
  cur ← context candidate;
  let st := foldl (λ st c, if bool_decide (chain_index c ∈ st.(seen_chains))
                           then st else claim pos (chain_index c) st)
                  st cur.(chains) in
  st ← match prev_round_forbids with
       | Some prf => enforce prf pos cur.(chains) st
       | None => Ok st
       end;
  candidate ← cand_at st.(cands) pos;
  Ok (set_expanded (st.(expanded) || candidate.(expandable)) st).

(** The body of the [for pos, candidate in enumerate(cluster.candidates)] loop. *)
Definition process (fuel : nat) (ts : Z) (prev_round_forbids : option (gmap Z nat))
    (pos : nat) (st : round_state) : run round_state :=
  skipped ← lift (skip_rules pos st);
  match skipped with
  | Some st' => Done st'
  | None =>
      st ← lift (grow_and_select ts pos st);
      st ← while_true (conflict_step ts pos) fuel st;
      lift (settle ts prev_round_forbids pos st)
  end.

Fixpoint for_each_position (fuel : nat) (ts : Z) (prev_round_forbids : option (gmap Z nat))
    (positions : list nat) (st : round_state) : run round_state :=
  match positions with
  | [] => Done st
  | pos :: r => st' ← process fuel ts prev_round_forbids pos st;
                for_each_position fuel ts prev_round_forbids r st'
  end.

(** The ownership map handed to the next round. *)
Definition ownership (l : list SummaryCandidate) : result (gmap Z nat) :=
  foldl (λ acc p, m ← acc; cur ← context p.2;
                  Ok (foldl (λ m ch, <[chain_index ch := p.1]> m) m cur.(chains)))
        (Ok ∅) (enumerate l).

(** The variables that live across rounds. [snapshots] collects what the
    generator yields, one entry per round. *)
Record engine_state : Type := mkEngine {
  cluster : SelectedCluster;
  round_timestamp : Z;
  prev_round : option (gmap Z nat);
  snapshots : list (list SummaryCandidate)
}.

(** One pass of the outer [while True]. *)
Definition round (fuel : nat) (e : engine_state) : run (flow engine_state) :=
  let cs := e.(cluster).(candidates) in
  let st0 := mkRound cs ∅ ∅ (replicate (length cs) false) false in
  st ← for_each_position fuel e.(round_timestamp) e.(prev_round) (seq 0 (length cs)) st0;
  let survivors :=
    (List.filter (λ p, negb (default false (st.(marked_for_deletion) !! p.1)))
                 (enumerate st.(cands))).*2 in
  cl ← lift (remove_duplicate_candidates (set_candidates survivors e.(cluster))
             ≫= rerank_candidates);
  prf ← lift (ownership cl.(candidates));
  let e' := mkEngine cl e.(round_timestamp) (Some prf)
                     (e.(snapshots) ++ [cl.(candidates)]) in
  if negb st.(expanded) then Done (Break e')
  else Done (Continue (mkEngine cl (e.(round_timestamp) + 1) (Some prf) e'.(snapshots))).

Fixpoint rounds (fuel inner : nat) (e : engine_state) : run engine_state :=
  match fuel with
  | O => OutOfFuel
  | S fuel =>
      f ← round inner e;
      match f with
      | Break e' => Done e'
      | Continue e' => rounds fuel inner e'
      end
  end.

(** [context_expansion_generator] driven to exhaustion (equivalently
    [context_expansion]): the final cluster and the snapshots of the rounds. *)
Definition context_expansion (fuel : nat) (cl : SelectedCluster)
    : run (SelectedCluster * list (list SummaryCandidate)) :=
  e ← rounds fuel fuel (mkEngine cl 0 None []);
  l ← lift (mapM (clear_history []) e.(cluster).(candidates));
  Done (set_candidates l e.(cluster), e.(snapshots)).

End Engine.

(** ** A document as a sequence of units *)

(** Modelled from the spec: the neighbour lookups [SentenceChain.next] and
    [SentenceChain.prev] (module [sentence], outside this repository slice).
    A document is the ordered list of its units; a lookup returns up to [n]
    units after (before) the given one, in document order, and fewer at a
    boundary. *)
Definition doc_position (doc : list SentenceChain) (c : SentenceChain) : option nat :=
  fst <$> list_find (λ d, chain_index d = chain_index c) doc.

Definition doc_next (doc : list SentenceChain) (c : SentenceChain) (n : Z)
    : list SentenceChain :=
  match doc_position doc c with
  | Some p => take (Z.to_nat n) (drop (S p) doc)
  | None => []
  end.

Definition doc_prev (doc : list SentenceChain) (c : SentenceChain) (n : Z)
    : list SentenceChain :=
  match doc_position doc c with
  | Some p => drop (p - Z.to_nat n) (take p doc)
  | None => []
  end.

(** A cross-encoder given by a finite table of texts; other texts score [0]. *)
Definition table_model (t : list (string * Q)) (s : string) : Q :=
  from_option (λ p, p.2.2) 0%Q (list_find (λ p, p.1 = s) t).

(** [SelectedCluster.evaluate_chains] for chains already listed by descending
    score: one seed candidate per chain, scored on its own text. *)
Definition seed_cluster (model : string → Q) (chs : list SentenceChain) : SelectedCluster :=
  mkCluster chs 0%Q ((λ c, new_candidate c (model (text c))) <$> chs).

(** ** Vocabulary of the statements *)

(** [resolves h sel k]: the selection [sel] is an integer that Python indexing
    maps to position [k] of [h]. *)
Definition resolves {A} (h : list A) (sel : option Z) (k : nat) : Prop :=
  ∃ i, sel = Some i ∧ norm_index (length h) i = Ok k.

(** The candidate's selection resolves to an entry of its history. *)
Definition selection_valid (c : SummaryCandidate) : Prop :=
  ∃ k, resolves c.(history) c.(selected_state) k.

(** ** Concrete inputs used by the examples *)

(** A candidate anchored at unit 4 whose first state was selected by an
    earlier call of [optimize] (its density still is that call's threshold,
    1/100) and whose second, selected state extends it to the right. *)
Definition tie_candidate : SummaryCandidate :=
  mkCandidate (mkChain 4 "d ") (Some 1)
    [ mkState [mkChain 4 "d "] 3 [] 0 (1 # 100);
      mkState [mkChain 4 "d "; mkChain 5 "e "] 3 ["right 1"%string] 0 0 ]
    true.

(** A freshly constructed candidate. *)
Definition fresh_candidate : SummaryCandidate := new_candidate (mkChain 4 "d ") 3.

(** A candidate with three states, the middle one selected. *)
Definition three_state_candidate : SummaryCandidate :=
  mkCandidate (mkChain 4 "d ") (Some 1)
    [ mkState [mkChain 4 "d "] 3 [] 0 0;
      mkState [mkChain 4 "d "; mkChain 5 "e "] 4 ["right 1"%string] 1 (1 # 2);
      mkState [mkChain 4 "d "; mkChain 5 "e "; mkChain 6 "f "] 5
              ["right 1"%string; "right 1"%string] 2 (1 # 3) ]
    true.

(** A three-unit document, a cross-encoder that likes the window "d e " and a
    candidate anchored at the first unit. *)
Definition doc_def : list SentenceChain :=
  [mkChain 4 "d "; mkChain 5 "e "; mkChain 6 "f "].

Definition model_def : string → Q :=
  table_model [("d "%string, 0%Q); ("d e "%string, 1%Q); ("d e f "%string, 1%Q)].

Definition anchor_candidate : SummaryCandidate := new_candidate (mkChain 4 "d ") 0.

(** A candidate is well formed when its selection resolves to a state that
    holds at least one unit (the two invariants of the data model). *)
Definition well_formed (c : SummaryCandidate) : Prop :=
  ∃ cur, context c = Ok cur ∧ cur.(chains) ≠ [].

(** Two seed candidates on adjacent units with scores above the merge
    threshold. *)
Definition adjacent_cluster : SelectedCluster :=
  mkCluster [mkChain 4 "d "; mkChain 5 "e "] 0
    [new_candidate (mkChain 5 "e ") 4; new_candidate (mkChain 4 "d ") 3].

(** *** A run that converges with an overlap

    Six units "a " ... "f " with indices 0 to 5, the seeds at units 0, 2 and 5
    (listed by descending seed score, as [evaluate_chains] leaves them), and a
    cross-encoder given by its values on the windows the run scores. *)
Definition doc_overlap : list SentenceChain :=
  [mkChain 0 "a "; mkChain 1 "b "; mkChain 2 "c "; mkChain 3 "d "; mkChain 4 "e "; mkChain 5 "f "].

Definition model_overlap : string → Q :=
  table_model
    [("a "%string, 5%Q); ("c "%string, 4%Q); ("f "%string, 1%Q);
     ("a b "%string, 8%Q); ("b c "%string, 7%Q); ("c d "%string, 8%Q);
     ("b c d "%string, 0%Q); ("e f "%string, 9%Q); ("d e f "%string, 10%Q);
     ("a b c "%string, 6%Q); ("c d e f "%string, 8%Q)].

Definition cluster_overlap : SelectedCluster :=
  seed_cluster model_overlap [mkChain 0 "a "; mkChain 2 "c "; mkChain 5 "f "].

(** The default threshold of [context_expansion_generator]. *)
Definition default_threshold : Q := 1 # 100.

(** *** A run that never leaves the conflict loop

    Nine units "a " ... "i " with indices 0 to 8. The cluster holds the units
    2 to 6; the seeds at 3, 4 and 5 score below the merge threshold 2 and are
    merged into one candidate, the seeds at 2 and 6 score above it. *)
Definition doc_squeeze : list SentenceChain :=
  [mkChain 0 "a "; mkChain 1 "b "; mkChain 2 "c "; mkChain 3 "d "; mkChain 4 "e ";
   mkChain 5 "f "; mkChain 6 "g "; mkChain 7 "h "; mkChain 8 "i "].

Definition model_squeeze : string → Q :=
  table_model
    [("c "%string, 5%Q); ("g "%string, 6%Q); ("d "%string, 1%Q); ("e "%string, 0%Q);
     ("f "%string, (-1)%Q); ("d e f "%string, 1%Q); ("f g "%string, 9%Q);
     ("c d e f g "%string, 11%Q)].

Definition seeds_squeeze : SelectedCluster :=
  seed_cluster model_squeeze
    [mkChain 6 "g "; mkChain 2 "c "; mkChain 3 "d "; mkChain 4 "e "; mkChain 5 "f "].

(** The cluster after [merge_candidates(threshold=2)]. *)
Definition cluster_squeeze : SelectedCluster :=
  match merge_candidates model_squeeze 2 seeds_squeeze with
  | Ok cl => cl
  | Raise _ => seeds_squeeze
  end.

(** The state of round 0 once the candidates at positions 0 and 1 are done,
    and the state in which the candidate at position 2 enters its conflict loop. *)
Definition squeeze_round_start : round_state :=
  mkRound cluster_squeeze.(candidates) ∅ ∅
          (replicate (length cluster_squeeze.(candidates)) false) false.

Definition squeeze_two_done : round_state :=
  match for_each_position model_squeeze (doc_next doc_squeeze) (doc_prev doc_squeeze)
          default_threshold 1 0 None [0; 1]%nat squeeze_round_start with
  | Done st => st
  | _ => squeeze_round_start
  end.

Definition squeeze_state : round_state :=
  match grow_and_select model_squeeze (doc_next doc_squeeze) (doc_prev doc_squeeze)
          default_threshold 0 2 squeeze_two_done with
  | Ok st => st
  | Raise _ => squeeze_two_done
  end.

(** *** Two frozen candidates

    The start of a round over two non-expandable candidates: the first holds
    the units 4-5, the second, anchored at unit 5, holds 5-6. *)
Definition frozen_pair : list SummaryCandidate :=
  [ mkCandidate (mkChain 4 "d ") (Some 0)
      [mkState [mkChain 4 "d "; mkChain 5 "e "] 3 ["right 1"%string] 0 0] false;
    mkCandidate (mkChain 5 "e ") (Some 0)
      [mkState [mkChain 5 "e "; mkChain 6 "f "] 2 ["right 1"%string] 0 0] false ].

Definition frozen_start : round_state :=
  mkRound frozen_pair ∅ ∅ [false; false] false.

(** ** The growth operations over an object store

    In Python a [State] is a mutable object and its [chains] attribute refers
    to a mutable list object; [from_state] builds a new [State] around a copy
    of the list ([state.chains[:]]), and the growth methods then write to the
    object at [self.history[-1]]. The store below keeps the two kinds of
    objects apart from the references to them, so that the effect of a growth
    method on the objects that existed before the call can be stated. *)

Abbreviation loc := nat.

(** A [State] object: [obj_chains] is a reference to a list object. *)
Record StateObj : Type := mkStateObj {
  obj_chains : loc;
  obj_score : Q;
  obj_actions : list string;
  obj_timestamp : Z;
  obj_improvement_score : Q
}.

(** The store: the objects live at the locations below [next_loc]. *)
Record heap : Type := mkHeap {
  next_loc : loc;
  state_at : loc → StateObj;
  list_at : loc → list SentenceChain
}.

(** A [SummaryCandidate] object: its history is a list of references. *)
Record CandidateObj : Type := mkCandidateObj {
  obj_chain : SentenceChain;
  obj_selected_state : option Z;
  obj_history : list loc;
  obj_expandable : bool
}.

Definition alloc_list (v : list SentenceChain) (h : heap) : heap * loc :=
  (mkHeap (S h.(next_loc)) h.(state_at) (<[h.(next_loc) := v]> h.(list_at)), h.(next_loc)).

Definition alloc_state (v : StateObj) (h : heap) : heap * loc :=
  (mkHeap (S h.(next_loc)) (<[h.(next_loc) := v]> h.(state_at)) h.(list_at), h.(next_loc)).

(** [obj.attr = v] on a [State] object, and an in-place update of a list object. *)
Definition update_state (l : loc) (f : StateObj → StateObj) (h : heap) : heap :=
  mkHeap h.(next_loc) (<[l := f (h.(state_at) l)]> h.(state_at)) h.(list_at).

Definition update_list (l : loc) (v : list SentenceChain) (h : heap) : heap :=
  mkHeap h.(next_loc) h.(state_at) (<[l := v]> h.(list_at)).

Definition with_obj_chains (v : loc) (s : StateObj) : StateObj :=
  mkStateObj v s.(obj_score) s.(obj_actions) s.(obj_timestamp) s.(obj_improvement_score).
Definition with_obj_score (v : Q) (s : StateObj) : StateObj :=
  mkStateObj s.(obj_chains) v s.(obj_actions) s.(obj_timestamp) s.(obj_improvement_score).
Definition with_obj_timestamp (v : Z) (s : StateObj) : StateObj :=
  mkStateObj s.(obj_chains) s.(obj_score) s.(obj_actions) v s.(obj_improvement_score).
Definition with_obj_improvement_score (v : Q) (s : StateObj) : StateObj :=
  mkStateObj s.(obj_chains) s.(obj_score) s.(obj_actions) s.(obj_timestamp) v.

(** [State.from_state] on the store: a new list object holding a copy of the
    source's chains, and a new [State] object referring to it. *)
Definition from_state_obj (src : loc) (action : option string) (h : heap) : heap * loc :=
  let s := h.(state_at) src in
  let '(h1, copy) := alloc_list (h.(list_at) s.(obj_chains)) h in
  alloc_state
    (mkStateObj copy s.(obj_score)
       (s.(obj_actions) ++ match action with Some a => [a] | None => [] end)
       s.(obj_timestamp) s.(obj_improvement_score))
    h1.

(** The value a [State] object denotes, and the candidate a candidate object
    denotes. *)
Definition view_state (h : heap) (l : loc) : State :=
  let s := h.(state_at) l in
  mkState (h.(list_at) s.(obj_chains)) s.(obj_score) s.(obj_actions)
          s.(obj_timestamp) s.(obj_improvement_score).

Definition view (h : heap) (c : CandidateObj) : SummaryCandidate :=
  mkCandidate c.(obj_chain) c.(obj_selected_state) (view_state h <$> c.(obj_history))
              c.(obj_expandable).

Section GrowthOnStore.

Variable model : string → Q.
Variables next prev : SentenceChain → Z → list SentenceChain.

(** [new.chains.extend(new.chains[-1].next(n, force_list=True))]: the list
    object is extended in place. *)
Definition extend_right_obj (n : Z) (new : loc) (h : heap) : heap * option exn :=
  let l := (h.(state_at) new).(obj_chains) in
  match getitem (h.(list_at) l) (-1) with
  | Ok last => (update_list l (h.(list_at) l ++ next last n) h, None)
  | Raise e => (h, Some e)
  end.

(** [new.chains = new.chains[0].prev(n, force_list=True) + new.chains]: the
    concatenation is a new list object, to which the attribute is rebound. *)
Definition extend_left_obj (n : Z) (new : loc) (h : heap) : heap * option exn :=
  let l := (h.(state_at) new).(obj_chains) in
  match getitem (h.(list_at) l) 0 with
  | Ok first =>
      let '(h1, l2) := alloc_list (prev first n ++ h.(list_at) l) h in
      (update_state new (with_obj_chains l2) h1, None)
  | Raise e => (h, Some e)
  end.

Definition extend_both_obj (n : Z) (new : loc) (h : heap) : heap * option exn :=
  match extend_right_obj n new h with
  | (h1, None) => extend_left_obj n new h1
  | r => r
  end.

Definition extend_obj_in (d : direction) : Z → loc → heap → heap * option exn :=
  match d with
  | Left => extend_left_obj
  | Right => extend_right_obj
  | Bidirectional => extend_both_obj
  end.

Definition obj_branch_point (branch_from : option Z) (c : CandidateObj) : option Z :=
  match branch_from with
  | Some b => Some b
  | None =>
      if bool_decide (c.(obj_selected_state) = Some (-1))
      then Some (Z.of_nat (length c.(obj_history)) - 1)
      else c.(obj_selected_state)
  end.

(** A growth method on the store. The outcome is the store and the candidate
    object as the method leaves them, with the exception it raised, if any:
    an exception raised after [self.history.append] leaves the new state in
    the history. *)
Definition grow_obj (d : direction) (n : Z) (branch_from : option Z) (ts : Z)
    (w : heap * CandidateObj) : (heap * CandidateObj) * option exn :=
  let '(h, c) := w in
  if (n <=? 0) || negb c.(obj_expandable) then (w, None)
  else
    let bf := obj_branch_point branch_from c in
    match getitem_opt c.(obj_history) bf with
    | Raise e => (w, Some e)
    | Ok parent =>
        let '(h, new) :=
          from_state_obj parent (Some (tag_of d +:+ " " +:+ str_of_Z n)) h in
        let c := mkCandidateObj c.(obj_chain) c.(obj_selected_state)
                   (c.(obj_history) ++ [new]) c.(obj_expandable) in
        let h := update_state new (with_obj_timestamp ts) h in
        match extend_obj_in d n new h with
        | (h, Some e) => ((h, c), Some e)
        | (h, None) =>
            let h := update_state new
                       (with_obj_score
                          (predict_joined model (h.(list_at) (h.(state_at) new).(obj_chains))))
                       h in
            let added_length := word_count (state_text (view_state h new)) in
            if (0 <? added_length)%nat then
              match getitem_opt c.(obj_history) bf with
              | Raise e => ((h, c), Some e)
              | Ok base =>
                  let d := round3 (((h.(state_at) new).(obj_score)
                                    - (h.(state_at) base).(obj_score))
                                   / inject_Z (Z.of_nat added_length)) in
                  ((update_state new (with_obj_improvement_score d) h, c), None)
              end
            else ((h, c), None)
        end
    end.

End GrowthOnStore.

(** [h'] extends [h]: every object of [h] is an object of [h'], unchanged. *)
Definition heap_extends (h h' : heap) : Prop :=
  (h.(next_loc) ≤ h'.(next_loc))%nat
  ∧ ∀ l, (l < h.(next_loc))%nat →
      h'.(state_at) l = h.(state_at) l ∧ h'.(list_at) l = h.(list_at) l.

(** [fresh_in h0 h new]: [h] extends [h0], and the state object [new] and the
    list object it refers to are not objects of [h0]. *)
Definition fresh_in (h0 h : heap) (new : loc) : Prop :=
  heap_extends h0 h
  ∧ (h0.(next_loc) ≤ new)%nat
  ∧ (h0.(next_loc) ≤ (h.(state_at) new).(obj_chains))%nat.

(** The references of a candidate object point to objects of the store. *)
Definition heap_closed (h : heap) (c : CandidateObj) : Prop :=
  ∀ l, l ∈ c.(obj_history) →
    (l < h.(next_loc))%nat ∧ ((h.(state_at) l).(obj_chains) < h.(next_loc))%nat.

(** A store with one seed state (the anchor "d " alone) and its candidate. *)
Definition seed_heap : heap :=
  mkHeap 2 (λ _, mkStateObj 0 0 [] 0 0) (λ _, [mkChain 4 "d "]).

Definition seed_obj : CandidateObj := mkCandidateObj (mkChain 4 "d ") (Some (-1)) [1%nat] true.

(** Three seeds out of rank order: scores 3, 4 and 4, the last two tied. *)
Definition unranked_cluster : SelectedCluster :=
  mkCluster [mkChain 4 "d "; mkChain 6 "f "; mkChain 5 "e "] 0
    [new_candidate (mkChain 4 "d ") 3; new_candidate (mkChain 6 "f ") 4;
     new_candidate (mkChain 5 "e ") 4].

(** *** A run that raises

    The six units of [doc_overlap] with seeds at units 4, 0 and 1. *)
Definition model_raise : string → Q :=
  table_model
    [("e "%string, 7%Q); ("a "%string, 6%Q); ("b "%string, 0%Q);
     ("d e "%string, 8%Q); ("e f "%string, 5%Q); ("d e f "%string, 6%Q);
     ("a b "%string, 1%Q); ("b c "%string, 2%Q); ("a b c "%string, 3%Q);
     ("c d e "%string, 9%Q)].

Definition cluster_raise : SelectedCluster :=
  seed_cluster model_raise [mkChain 4 "e "; mkChain 0 "a "; mkChain 1 "b "].

(** A cluster without candidates. *)
Definition empty_cluster : SelectedCluster := mkCluster [] 0 [].

(** * Further vocabulary and code

    ** Vocabulary *)

(** The four fields of a state that [optimize] never writes. *)
Definition same_window (a b : State) : Prop :=
  chains a = chains b ∧ score a = score b ∧ actions a = actions b
  ∧ timestamp a = timestamp b.

(** The index tuple [remove_duplicate_candidates] compares:
    [tuple(candidate.index_range)]. *)
Definition range_tuple (c : SummaryCandidate) : result (list Z) :=
  tuple_of_range <$> cand_index_range c.

(** The test of [filter_candidates] and of the second branch of
    [selected_candidates]: [x.score > threshold]. *)
Definition scores_above (threshold : Q) (c : SummaryCandidate) : bool :=
  match cand_score c with
  | Ok s => Qlt_bool threshold s
  | Raise _ => false
  end.

(** The score of a candidate's context is the cross-encoder's value on the
    joined text of its window. *)
Definition scored_by (model : string → Q) (c : SummaryCandidate) : Prop :=
  ∃ cur, context c = Ok cur ∧ score cur = predict_joined model cur.(chains).

(** ** [SelectedCluster]: scores and the selection of candidates *)

(** [SelectedCluster.scores]: [[c.score for c in self.candidates]]. *)
Definition scores (l : list SummaryCandidate) : result (list Q) := mapM cand_score l.

(** [sum(l)]: the additions are made from the left, starting at [0]. *)
Definition py_sum (l : list Q) : Q := foldl Qplus 0%Q l.

(** [SelectedCluster.cross_score]. The attribute [candidates] is [None] until
    [evaluate_chains] has run; the functions below take it as an option so
    that this case is covered, and a [SelectedCluster] record holds
    [Some] list. [np.round(x, decimals=3)] rounds to three decimals, ties to
    even, as [round] does. *)
Definition cross_score_of (cands : option (list SummaryCandidate)) : result (option Q) :=
  match cands with
  | None => Ok None
  | Some l => s ← scores l; Ok (Some (round3 (py_sum s)))
  end.

Definition cross_score (cl : SelectedCluster) : result (option Q) :=
  cross_score_of (Some cl.(candidates)).

(** [SelectedCluster.selected_candidates]. Comparing [None] with a number
    raises [TypeError]. *)
Definition selected_candidates_of (cluster_threshold candidate_threshold : Q)
    (cands : option (list SummaryCandidate)) : result (list SummaryCandidate) :=
  total ← cross_score_of cands;
  match total, cands with
  | Some t, Some l =>
      if Qlt_bool cluster_threshold t then Ok l
      else
        keyed ← with_keys cand_score l;
        Ok (List.filter (λ p, Qlt_bool candidate_threshold p.1) keyed).*2
  | _, _ => Raise TypeError
  end.

Definition selected_candidates (cluster_threshold candidate_threshold : Q)
    (cl : SelectedCluster) : result (list SummaryCandidate) :=
  selected_candidates_of cluster_threshold candidate_threshold (Some cl.(candidates)).

(** ** Further concrete inputs *)

(** Three candidates: the first two hold the same window 4-5 around
    different anchors, the third is a fresh candidate at unit 6. *)
Definition duplicate_cluster : SelectedCluster :=
  mkCluster [mkChain 4 "d "; mkChain 5 "e "; mkChain 6 "f "] 0
    [ mkCandidate (mkChain 4 "d ") (Some 0)
        [mkState [mkChain 4 "d "; mkChain 5 "e "] 3 ["right 1"%string] 0 0] true;
      mkCandidate (mkChain 5 "e ") (Some 0)
        [mkState [mkChain 4 "d "; mkChain 5 "e "] 3 ["left 1"%string] 0 0] true;
      new_candidate (mkChain 6 "f ") 1 ].

(** Seeds on the units 4, 5 and 7 with scores 4, 3 and 5: the first two are
    neighbours and their scores lie on the same side of the merge threshold. *)
Definition gap_cluster : SelectedCluster :=
  mkCluster [mkChain 4 "d "; mkChain 5 "e "; mkChain 7 "h "] 0
    [ new_candidate (mkChain 7 "h ") 5; new_candidate (mkChain 4 "d ") 4;
      new_candidate (mkChain 5 "e ") 3 ].

(** ** Vocabulary for the rounds of the engine *)

(** Every state of the history holds the anchor of the candidate. *)
Definition anchored (c : SummaryCandidate) : Prop :=
  Forall (λ s, chain c ∈ chains s) (history c).

(** The score of every state of the history is the cross-encoder's value on
    the joined text of its window. *)
Definition scored (model : string → Q) (c : SummaryCandidate) : Prop :=
  Forall (λ s, score s = predict_joined model (chains s)) (history c).

(** [tamer model c c']: [c'] has the anchor of [c], is expandable only if [c]
    is, and its history is [anchored] and [scored] if the history of [c] is. *)
Definition tamer (model : string → Q) (c c' : SummaryCandidate) : Prop :=
  chain c' = chain c ∧ (expandable c' = true → expandable c = true)
  ∧ (anchored c → anchored c') ∧ (scored model c → scored model c').

(** [advances model st st']: what every step of a round does to the candidate
    list, the deletion marks and the flag [expanded]: the candidates stay in
    their positions and get [tamer], marks are only set, the flag is only
    raised. *)
Definition advances (model : string → Q) (st st' : round_state) : Prop :=
  Forall2 (tamer model) (cands st) (cands st')
  ∧ length (marked_for_deletion st') = length (marked_for_deletion st)
  ∧ (∀ p, marked_for_deletion st !! p = Some true → marked_for_deletion st' !! p = Some true)
  ∧ (expanded st = true → expanded st' = true).

(** The candidates that the filter at the end of a round keeps. *)
Definition surviving (st : round_state) : list SummaryCandidate :=
  (List.filter (λ p, negb (default false (st.(marked_for_deletion) !! p.1)))
               (enumerate st.(cands))).*2.

(** No candidate is expandable. *)
Definition all_frozen (l : list SummaryCandidate) : Prop :=
  Forall (λ c, expandable c = false) l.

(** Every index range can be read and no two candidates have the same one. *)
Definition distinct_ranges (l : list SummaryCandidate) : Prop :=
  Forall (λ c, is_ok (range_tuple c) = true) l ∧ NoDup (range_tuple <$> l).

(** What a round of the engine establishes for the list it yields, seen from
    the candidates [l0] the engine started from: the anchors are anchors of
    [l0], the list is ranked and free of duplicate ranges. *)
Definition snapshot_ok (l0 s : list SummaryCandidate) : Prop :=
  chain <$> s ⊆+ chain <$> l0 ∧ rerank_list s = Ok s ∧ distinct_ranges s.

(** Two seeds on the adjacent units 5 and 4 of [doc_def]. *)
Definition pair_cluster : SelectedCluster :=
  seed_cluster model_def [mkChain 5 "e "; mkChain 4 "d "].

(** The selection is the sentinel [-1] or a non-negative index. *)
Definition selects_position (c : SummaryCandidate) : Prop :=
  selected_state c = Some (-1) ∨ ∃ i, selected_state c = Some i ∧ 0 ≤ i.

(** [clear_history()] as a function on candidates that it accepts. *)
Definition cleared (c : SummaryCandidate) : SummaryCandidate :=
  match clear_history [] c with Ok c' => c' | Raise _ => c end.

(** ** The engine as a generator *)

Section Yields.

Variable model : string → Q.
Variables next prev : SentenceChain → Z → list SentenceChain.
Variable threshold : Q.

(** One pass of the outer [while True] of [context_expansion_generator] up
    to its [yield]: the positions are processed, the candidates marked for
    deletion are dropped, the cluster is rid of duplicates and re-ranked, and
    its candidates are what the consumer receives. The rest of the pass (the
    ownership map, the test on [expanded], the timestamp) runs only when the
    consumer asks for the next list, and is the rest of [round]. *)
Definition pass_to_yield (inner : nat) (e : engine_state) : run (list SummaryCandidate) :=
  let cs := e.(cluster).(candidates) in
  let st0 := mkRound cs ∅ ∅ (replicate (length cs) false) false in
  st ← for_each_position model next prev threshold inner
         e.(round_timestamp) e.(prev_round) (seq 0 (length cs)) st0;
  cl ← lift (remove_duplicate_candidates (set_candidates (surviving st) e.(cluster))
             ≫= rerank_candidates);
  Done cl.(candidates).

(** The lists that the generator has yielded after at most [fuel] passes of
    its outer loop, every conflict loop being given [inner] passes: what the
    consumer has received so far, whether the run goes on to return, raises
    in a later pass or after a [yield], or is not over. *)
Fixpoint yielded (fuel inner : nat) (e : engine_state) : list (list SummaryCandidate) :=
  match fuel with
  | O => []
  | S fuel =>
      match pass_to_yield inner e with
      | Done s =>
          s :: match round model next prev threshold inner e with
               | Done (Continue e') => yielded fuel inner e'
               | Done (Break _) | Crashed _ | OutOfFuel => []
               end
      | Crashed _ | OutOfFuel => []
      end
  end.

End Yields.

(** ** [ChainCluster] (module [clustering])

    The attributes that [kth_most_similar_chain] reads or writes: the label
    (negative for the cluster of outliers), the chains and the cached order
    [_similarity_sorted_indices] ([None] until it is computed). *)
Module Clustering.

Record ChainCluster : Type := mkChainCluster {
  label : Z;
  chains : list SentenceChain;
  similarity_sorted_indices : option (list Z)
}.

Section Similarity.

(** [np.sum(cosine_similarity(chain_matrix), axis=1)[i]]: the summed cosine
    similarity of the [i]-th chain of a list to the chains of the list. The
    vectors and [sklearn] live outside the repository. *)
Variable sims : list SentenceChain → nat → Q.

(** [sorted(range(len(self.chains)), key=lambda i: sims[i], reverse=True)]. *)
Definition calculate_similarity_sorted_indices (cl : ChainCluster) : list Z :=
  Z.of_nat <$> sort_by (λ j i, Qlt_bool (sims (chains cl) i) (sims (chains cl) j))
                       (seq 0 (length (chains cl))).

(** [self.chains[self._similarity_sorted_indices[k]]]. *)
Definition cached_kth (idx : list Z) (k : Z) (cl : ChainCluster) : result SentenceChain :=
  i ← getitem idx k; getitem (chains cl) i.

(** [ChainCluster.kth_most_similar_chain]: the cluster after the call (the
    cache may have been filled) and what the call returns or raises. *)
Definition kth_most_similar_chain (k : Z) (cl : ChainCluster)
    : ChainCluster * result (option SentenceChain) :=
  match similarity_sorted_indices cl with
  | Some idx => (cl, Some <$> cached_kth idx k cl)
  | None =>
      if 0 <=? label cl then
        let idx := calculate_similarity_sorted_indices cl in
        let cl' := mkChainCluster (label cl) (chains cl) (Some idx) in
        (cl', Some <$> cached_kth idx k cl')
      else (cl, Ok None)
  end.

End Similarity.

(** Three chains whose summed similarities are 1, 3 and 2. *)
Definition sims_def (l : list SentenceChain) (i : nat) : Q :=
  match i with 0%nat => 1 | 1%nat => 3 | _ => 2 end.

Definition cluster_def : ChainCluster :=
  mkChainCluster 0 [mkChain 4 "d "; mkChain 5 "e "; mkChain 6 "f "] None.

End Clustering.

(** ** Vocabulary for windows of consecutive units *)

(** The context can be read and holds the units [a, a + 1, ..., a + n - 1]. *)
Definition contiguous (c : SummaryCandidate) : Prop :=
  ∃ cur a n, context c = Ok cur ∧ 0 < n ∧ unit_indices cur = seqZ a n.

(** Some candidate of the list holds the unit [u] in its context. *)
Definition covers (l : list SummaryCandidate) (u : Z) : Prop :=
  ∃ c cur, c ∈ l ∧ context c = Ok cur ∧ u ∈ unit_indices cur.

(** Seeds on the units 4 and 5 and a candidate that holds the window 5-6. *)
Definition touching_cluster : SelectedCluster :=
  mkCluster [mkChain 4 "d "; mkChain 5 "e "; mkChain 6 "f "] 0
    [ mkCandidate (mkChain 5 "e ") (Some 0)
        [mkState [mkChain 5 "e "; mkChain 6 "f "] 3 ["right 1"%string] 0 0] true;
      new_candidate (mkChain 4 "d ") 4 ].


(** * Properties

    ** Sorting and re-ranking *)

Section SortBy.
Context {A : Type} (before : A → A → bool).

Hypothesis before_asym : ∀ a b, before a b = true → before b a = false.
Hypothesis may_precede_trans :
  ∀ a b c, may_precede before a b → may_precede before b c → may_precede before a c.

Lemma insert_by_perm x l : insert_by before x l ≡ₚ x :: l.
Proof.
  induction l as [|y r IH]; simpl; [done|].
  destruct (before y x); [|done].
  rewrite IH. apply Permutation_swap.
Qed.

Lemma sort_by_perm l : sort_by before l ≡ₚ l.
Proof.
  induction l as [|x r IH]; simpl; [done|].
  rewrite insert_by_perm. by rewrite IH.
Qed.

Lemma insert_by_sorted x l :
  StronglySorted (may_precede before) l → StronglySorted (may_precede before) (insert_by before x l).
Proof.
  induction 1 as [|y r Hr IH Hy]; simpl.
  - repeat constructor.
  - destruct (before y x) eqn:E.
    + constructor; [done|].
      rewrite insert_by_perm. constructor; [|done].
      by apply before_asym.
    + constructor; [by constructor|].
      constructor; [done|].
      eapply Forall_impl; [exact Hy|].
      intros z Hz. by eapply may_precede_trans.
Qed.

Lemma sort_by_sorted l : StronglySorted (may_precede before) (sort_by before l).
Proof.
  induction l as [|x r IH]; simpl; [constructor|]. by apply insert_by_sorted.
Qed.

Lemma sort_by_fixed l : StronglySorted (may_precede before) l → sort_by before l = l.
Proof.
  induction 1 as [|x r Hr IH Hx]; simpl; [done|].
  rewrite IH. destruct r as [|y r']; [done|]. simpl.
  apply Forall_cons in Hx as [Hxy _]. unfold may_precede in Hxy. by rewrite Hxy.
Qed.
End SortBy.

Lemma StronglySorted_lookup_lt {A} (R : A → A → Prop) l i j a b :
  StronglySorted R l → (i < j)%nat → l !! i = Some a → l !! j = Some b → R a b.
Proof.
  intros Hs. revert i j. induction Hs as [|x r Hr IH Hx]; intros i j Hij Hi Hj; [done|].
  destruct j as [|j]; [lia|]. simpl in Hj.
  destruct i as [|i]; simpl in Hi.
  - simplify_eq. rewrite Forall_forall in Hx. apply Hx. by eapply list_elem_of_lookup_2.
  - eapply (IH i j); [lia|done..].
Qed.

(** Boolean comparisons of scores. *)
Lemma Qlt_bool_iff a b : Qlt_bool a b = true ↔ (a < b)%Q.
Proof.
  unfold Qlt_bool. rewrite negb_true_iff, <- not_true_iff_false, Qle_bool_iff.
  split; [apply Qnot_le_lt | apply Qlt_not_le].
Qed.

Lemma Qlt_bool_false a b : Qlt_bool a b = false ↔ (b <= a)%Q.
Proof.
  unfold Qlt_bool. rewrite negb_false_iff. apply Qle_bool_iff.
Qed.

Lemma key_lt_iff a b :
  key_lt a b = true ↔ (a.1 < b.1)%Q ∨ ((a.1 == b.1)%Q ∧ a.2 < b.2).
Proof.
  unfold key_lt. destruct (Qeq_bool a.1 b.1) eqn:E.
  - apply Qeq_bool_iff in E. rewrite Z.ltb_lt. split; [by right|].
    intros [H|[_ H]]; [|done]. rewrite E in H. by apply Qlt_irrefl in H.
  - apply Qeq_bool_neq in E. rewrite Qlt_bool_iff. split; [by left|].
    intros [H|[H _]]; done.
Qed.

Lemma key_lt_false a b :
  key_lt a b = false ↔ (b.1 < a.1)%Q ∨ ((a.1 == b.1)%Q ∧ b.2 ≤ a.2).
Proof.
  rewrite <- not_true_iff_false, key_lt_iff. split.
  - intros H. destruct (Q_dec a.1 b.1) as [[Hlt|Hgt]|Heq].
    + destruct H. by left.
    + by left.
    + right. split; [done|]. destruct (Z_lt_le_dec a.2 b.2); [|done].
      destruct H. by right.
  - intros [H|[H1 H2]] [H'|[H1' H2']].
    + eapply Qlt_irrefl, Qlt_trans; eauto.
    + rewrite H1' in H. by apply Qlt_irrefl in H.
    + rewrite H1 in H'. by apply Qlt_irrefl in H'.
    + lia.
Qed.

Lemma keyed_before_asym a b : keyed_before a b = true → keyed_before b a = false.
Proof.
  unfold keyed_before. rewrite key_lt_iff, key_lt_false.
  intros [H|[H1 H2]]; [by left|]. right. split; [done|lia].
Qed.

Lemma keyed_may_precede_trans a b c :
  may_precede keyed_before a b → may_precede keyed_before b c →
  may_precede keyed_before a c.
Proof.
  unfold may_precede, keyed_before. rewrite !key_lt_false.
  intros [H|[H1 H2]] [H'|[H1' H2']].
  - left. by eapply Qlt_trans.
  - left. by rewrite <- H1'.
  - left. by rewrite H1.
  - right. split; [by rewrite H1|lia].
Qed.

(** [with_keys] pairs every element with its key, in order. *)
Lemma with_keys_cons {A K} (key : A → result K) x r :
  with_keys key (x :: r)
  = k ← key x; keyed ← with_keys key r; Ok ((k, x) :: keyed).
Proof. unfold with_keys. simpl. by destruct (key x). Qed.

Lemma with_keys_inv {A K} (key : A → result K) l keyed :
  with_keys key l = Ok keyed → keyed.*2 = l ∧ Forall (λ p, key p.2 = Ok p.1) keyed.
Proof.
  revert keyed. induction l as [|x r IH]; intros keyed.
  - intros [= <-]. by split.
  - rewrite with_keys_cons.
    destruct (key x) as [k|e] eqn:Ek; simpl; [|done].
    destruct (with_keys key r) as [kr|e] eqn:Er; simpl; [|done].
    intros [= <-]. destruct (IH kr eq_refl) as [IH1 IH2].
    simpl. split; [by f_equal|]. by constructor.
Qed.

Lemma with_keys_intro {A K} (key : A → result K) keyed :
  Forall (λ p, key p.2 = Ok p.1) keyed → with_keys key keyed.*2 = Ok keyed.
Proof.
  induction 1 as [|[k x] r Hx Hr IH]; [done|].
  rewrite fmap_cons, with_keys_cons. simpl in *. by rewrite Hx, IH.
Qed.

Lemma with_keys_total {A K} (key : A → result K) l :
  Forall (λ x, is_ok (key x) = true) l → is_ok (with_keys key l) = true.
Proof.
  induction 1 as [|x r Hx Hr IH]; [done|].
  rewrite with_keys_cons. destruct (key x); [|done]. simpl.
  by destruct (with_keys key r).
Qed.

(** Re-ranking. *)
Lemma rerank_list_spec l l' :
  rerank_list l = Ok l' →
  ∃ keyed, with_keys rank_key l = Ok keyed ∧ l' = (sort_by keyed_before keyed).*2.
Proof.
  unfold rerank_list. destruct (with_keys rank_key l) as [keyed|e]; simpl; [|done].
  intros [= <-]. by exists keyed.
Qed.

Lemma rerank_list_fixed l l' : rerank_list l = Ok l' → rerank_list l' = Ok l'.
Proof.
  intros (keyed & Hk & ->)%rerank_list_spec.
  apply with_keys_inv in Hk as [_ Hk].
  unfold rerank_list.
  rewrite with_keys_intro.
  - simpl. f_equal. f_equal. apply sort_by_fixed, sort_by_sorted.
    + apply keyed_before_asym.
    + apply keyed_may_precede_trans.
  - by rewrite sort_by_perm.
Qed.

Lemma rank_key_inv x k :
  rank_key x = Ok k → cand_score x = Ok k.1 ∧ k.2 = 6666 - chain_index (chain x).
Proof.
  unfold rank_key. destruct (cand_score x) as [s|e]; simpl; [|done].
  by intros [= <-].
Qed.

Lemma rerank_list_ordered l l' i j a b :
  rerank_list l = Ok l' → (i < j)%nat → l' !! i = Some a → l' !! j = Some b →
  ranked_before a b.
Proof.
  intros (keyed & Hk & ->)%rerank_list_spec Hij Ha Hb.
  apply with_keys_inv in Hk as [_ Hk].
  apply list_lookup_fmap_Some in Ha as (p & -> & Hp).
  apply list_lookup_fmap_Some in Hb as (q & -> & Hq).
  assert (Hs : may_precede keyed_before p q).
  { eapply StronglySorted_lookup_lt; [|exact Hij|done..].
    apply sort_by_sorted; [apply keyed_before_asym|apply keyed_may_precede_trans]. }
  rewrite <- (sort_by_perm keyed_before), Forall_forall in Hk.
  destruct (rank_key_inv _ _ (Hk p (list_elem_of_lookup_2 _ _ _ Hp))) as [Hp1 Hp2].
  destruct (rank_key_inv _ _ (Hk q (list_elem_of_lookup_2 _ _ _ Hq))) as [Hq1 Hq2].
  exists p.1.1, q.1.1. split; [done|]. split; [done|].
  unfold may_precede, keyed_before in Hs. apply key_lt_false in Hs as [Hs|[Hs1 Hs2]].
  - by left.
  - right. split; [done|lia].
Qed.

Lemma rerank_list_perm l l' : rerank_list l = Ok l' → l' ≡ₚ l.
Proof.
  intros (keyed & Hk & ->)%rerank_list_spec.
  apply with_keys_inv in Hk as [<- _]. by rewrite sort_by_perm.
Qed.

Lemma rerank_list_total l :
  Forall (λ c, is_ok (context c) = true) l → is_ok (rerank_list l) = true.
Proof.
  intros H. unfold rerank_list.
  assert (Hk : is_ok (with_keys rank_key l) = true).
  { apply with_keys_total. eapply Forall_impl; [exact H|].
    intros c Hc. simpl in Hc. unfold rank_key, cand_score.
    destruct (context c); simpl in *; [done|discriminate]. }
  by destruct (with_keys rank_key l).
Qed.

(** C8. Re-ranking twice gives what re-ranking once gives (also when a score
    cannot be read and the call raises); it returns whenever every candidate's
    selection resolves; and the list it returns is a rearrangement of the
    candidates in which every candidate comes before those of lower score,
    and, among equal scores, before those of larger anchor index. *)
Theorem rerank_candidates_idempotent_ordered (cl : SelectedCluster) :
  rerank_candidates cl ≫= rerank_candidates = rerank_candidates cl
  ∧ (Forall (λ c, is_ok (context c) = true) cl.(candidates) →
     is_ok (rerank_candidates cl) = true)
  ∧ ∀ cl', rerank_candidates cl = Ok cl' →
      cl'.(candidates) ≡ₚ cl.(candidates)
      ∧ ∀ i j a b, (i < j)%nat →
          cl'.(candidates) !! i = Some a → cl'.(candidates) !! j = Some b →
          ranked_before a b.
Proof.
  unfold rerank_candidates. split; [|split].
  - destruct (rerank_list (candidates cl)) as [l|e] eqn:E; simpl; [|done].
    by rewrite (rerank_list_fixed _ _ E).
  - intros H. apply rerank_list_total in H.
    by destruct (rerank_list (candidates cl)).
  - intros cl'. destruct (rerank_list (candidates cl)) as [l|e] eqn:E; simpl; [|done].
    intros [= <-]. simpl. split; [by apply rerank_list_perm|].
    intros i j a b. by eapply rerank_list_ordered.
Qed.

(** A run of the theorem: the tied seeds at units 5 and 6 come first, unit 5
    before unit 6, then the seed at unit 4. *)
Lemma rerank_candidates_idempotent_ordered_witness :
  ∃ cl', rerank_candidates unranked_cluster = Ok cl'
         ∧ (λ c, chain_index c.(chain)) <$> cl'.(candidates) = [5; 6; 4]
         ∧ rerank_candidates cl' = Ok cl'.
Proof.
  eexists. split; [vm_compute; reflexivity|]. split; [reflexivity|].
  pose proof (proj1 (rerank_candidates_idempotent_ordered unranked_cluster)) as H.
  vm_compute in H. vm_compute. exact H.
Defined.

(** ** Python indexing *)

Lemma norm_index_Ok len i k :
  norm_index len i = Ok k ↔
  (0 ≤ i < Z.of_nat len ∧ k = Z.to_nat i)
  ∨ (- Z.of_nat len ≤ i < 0 ∧ k = Z.to_nat (Z.of_nat len + i)).
Proof.
  unfold norm_index.
  destruct (0 <=? i) eqn:E1, (i <? Z.of_nat len) eqn:E2; simpl;
    [|destruct (- Z.of_nat len <=? i) eqn:E3, (i <? 0) eqn:E4; simpl..];
    split; intros H; try discriminate; try (injection H as <-); lia || (try (f_equal; lia)); try (left; lia); try (right; lia).
Qed.

Lemma norm_index_lt len i k : norm_index len i = Ok k → (k < len)%nat.
Proof. rewrite norm_index_Ok. lia. Qed.

Lemma norm_index_nat len k : (k < len)%nat → norm_index len (Z.of_nat k) = Ok k.
Proof. intros H. apply norm_index_Ok. left. lia. Qed.

Lemma norm_index_last len : (0 < len)%nat → norm_index len (-1) = Ok (len - 1)%nat.
Proof. intros H. apply norm_index_Ok. right. lia. Qed.

Lemma getitem_Ok {A} (l : list A) i x :
  getitem l i = Ok x ↔ ∃ k, norm_index (length l) i = Ok k ∧ l !! k = Some x.
Proof.
  unfold getitem. destruct (norm_index (length l) i) as [k|e] eqn:E; simpl.
  - destruct (l !! k) as [y|] eqn:Ek; simpl.
    + split; [intros [= <-]; eauto|]. intros (k' & [= <-] & Hk). congruence.
    + split; [done|]. intros (k' & [= <-] & Hk). congruence.
  - split; [done|]. by intros (k' & ? & _).
Qed.

Lemma getitem_opt_Ok {A} (l : list A) sel x :
  getitem_opt l sel = Ok x ↔ ∃ k, resolves l sel k ∧ l !! k = Some x.
Proof.
  unfold getitem_opt, resolves. destruct sel as [i|].
  - rewrite getitem_Ok. split.
    + intros (k & H1 & H2). exists k. split; [by exists i|done].
    + intros (k & (i' & [= <-] & H1) & H2). eauto.
  - split; [done|]. by intros (k & (i' & ? & _) & _).
Qed.

Lemma resolves_lt {A} (l : list A) sel k : resolves l sel k → (k < length l)%nat.
Proof. intros (i & _ & H). by eapply norm_index_lt. Qed.

Lemma resolves_fun {A} (l : list A) sel k k' : resolves l sel k → resolves l sel k' → k = k'.
Proof. intros (i & -> & H) (i' & [= <-] & H'). congruence. Qed.

Lemma context_Ok c s :
  context c = Ok s ↔ ∃ k, resolves c.(history) c.(selected_state) k ∧ c.(history) !! k = Some s.
Proof. apply getitem_opt_Ok. Qed.

Lemma selection_valid_context c : selection_valid c ↔ is_ok (context c) = true.
Proof.
  split.
  - intros (k & Hk). destruct (lookup_lt_is_Some_2 _ _ (resolves_lt _ _ _ Hk)) as [s Hs].
    assert (context c = Ok s) as -> by (apply context_Ok; eauto). done.
  - destruct (context c) as [s|] eqn:E; [|done]. intros _.
    apply context_Ok in E as (k & Hk & _). by exists k.
Qed.

Lemma setattr_at_Ok {A} (f : A → A) (l : list A) sel l' :
  setattr_at f l sel = Ok l' ↔ ∃ k, resolves l sel k ∧ l' = alter f k l.
Proof.
  unfold setattr_at, resolves. destruct sel as [i|].
  - destruct (norm_index (length l) i) as [k|e] eqn:E; simpl.
    + split; [intros [= <-]; eauto|]. intros (k' & (i' & [= <-] & H1) & ->). congruence.
    + split; [done|]. intros (k' & (i' & [= <-] & H1) & _). congruence.
  - split; [done|]. by intros (k & (i' & ? & _) & _).
Qed.

(** ** [max] returns the first maximal element *)

Lemma max_from_first {A} (key : A → Q) best l :
  ∃ l1 l2, best :: l = l1 ++ max_from key best l :: l2
    ∧ (∀ x, x ∈ l1 → (key x < key (max_from key best l))%Q)
    ∧ (∀ x, x ∈ l2 → (key x <= key (max_from key best l))%Q).
Proof.
  revert best. induction l as [|y r IH]; intros best; simpl.
  - exists [], []. split; [done|]. split; intros x Hx; by apply elem_of_nil in Hx.
  - destruct (Qlt_bool (key best) (key y)) eqn:E.
    + apply Qlt_bool_iff in E.
      destruct (IH y) as (l1 & l2 & Heq & H1 & H2).
      remember (max_from key y r) as m eqn:Hm. clear Hm.
      exists (best :: l1), l2. split; [simpl; by f_equal|]. split; [|done].
      intros x [->|Hx]%elem_of_cons; [|by apply H1].
      destruct l1 as [|z l1']; simpl in Heq.
      * by injection Heq as <- _.
      * injection Heq as <- _. eapply Qlt_trans; [exact E|]. apply H1. by left.
    + apply Qlt_bool_false in E.
      destruct (IH best) as (l1 & l2 & Heq & H1 & H2).
      remember (max_from key best r) as m eqn:Hm. clear Hm.
      destruct l1 as [|z l1']; simpl in Heq.
      * injection Heq as Hb Hr. subst m l2.
        exists [], (y :: r). split; [done|].
        split; [intros x Hx; by apply elem_of_nil in Hx|].
        intros x [->|Hx]%elem_of_cons; [done|by apply H2].
      * injection Heq as Hb Hr. subst z r.
        exists (best :: y :: l1'), l2. split; [done|]. split; [|done].
        intros x [->|[->|Hx]%elem_of_cons]%elem_of_cons.
        -- apply H1. by left.
        -- eapply Qle_lt_trans; [exact E|]. apply H1. by left.
        -- apply H1. by right.
Qed.

Lemma py_max_first {A} (key : A → Q) l m :
  py_max key l = Some m →
  ∃ l1 l2, l = l1 ++ m :: l2
    ∧ (∀ x, x ∈ l1 → (key x < key m)%Q)
    ∧ (∀ x, x ∈ l2 → (key x <= key m)%Q).
Proof.
  destruct l as [|x r]; simpl; [done|]. intros [= <-]. apply max_from_first.
Qed.

Lemma py_max_None {A} (key : A → Q) l : py_max key l = None ↔ l = [].
Proof. by destruct l. Qed.

(** ** The pool of [optimize] *)

Lemma enumerate_lookup {A} (l : list A) i p :
  enumerate l !! i = Some p ↔ p.1 = i ∧ l !! i = Some p.2.
Proof.
  unfold enumerate. rewrite list_lookup_imap. destruct (l !! i) as [x|]; simpl.
  - split; [by intros [= <-]|]. destruct p as [j y]. simpl. by intros [-> [= ->]].
  - split; [done|]. by intros [_ ?].
Qed.

Lemma enumerate_fst {A} (l : list A) : (enumerate l).*1 = seq 0 (length l).
Proof.
  apply list_eq. intros i. rewrite list_lookup_fmap.
  destruct (enumerate l !! i) as [p|] eqn:E; simpl.
  - apply enumerate_lookup in E as [E1 E2]. symmetry.
    apply lookup_seq. split; [done|]. by eapply lookup_lt_Some.
  - symmetry. apply lookup_seq_ge.
    destruct (decide (i < length l)%nat) as [Hlt|]; [|lia].
    destruct (lookup_lt_is_Some_2 _ _ Hlt) as [x Hx].
    assert (enumerate l !! i = Some (i, x)) by (by apply enumerate_lookup).
    congruence.
Qed.

Lemma elem_of_enumerate {A} (l : list A) p :
  p ∈ enumerate l ↔ l !! p.1 = Some p.2.
Proof.
  rewrite list_elem_of_lookup. split.
  - intros (i & (<- & H)%enumerate_lookup). done.
  - intros H. exists p.1. by apply enumerate_lookup.
Qed.

Lemma elem_of_List_filter {A} (f : A → bool) l x :
  x ∈ List.filter f l ↔ x ∈ l ∧ f x = true.
Proof. rewrite !list_elem_of_In. apply filter_In. Qed.

Lemma sorted_fst_filter {A} (f : nat * A → bool) (l : list (nat * A)) :
  StronglySorted lt l.*1 → StronglySorted lt (List.filter f l).*1.
Proof.
  induction l as [|p r IH]; simpl; [done|].
  intros [Hr Hp]%StronglySorted_inv. destruct (f p); simpl; [|by apply IH].
  constructor; [by apply IH|].
  rewrite Forall_forall in Hp |- *. intros i (q & -> & Hq)%list_elem_of_fmap.
  apply Hp. apply list_elem_of_fmap. exists q. split; [done|].
  by apply elem_of_List_filter in Hq as [? _].
Qed.

Lemma sorted_filter (f : nat → bool) (l : list nat) :
  StronglySorted lt l → StronglySorted lt (List.filter f l).
Proof.
  induction l as [|p r IH]; simpl; [done|].
  intros [Hr Hp]%StronglySorted_inv. destruct (f p); simpl; [|by apply IH].
  constructor; [by apply IH|].
  rewrite Forall_forall in Hp |- *. intros i Hi. apply Hp.
  by apply elem_of_List_filter in Hi as [? _].
Qed.

Lemma sorted_seq a n : StronglySorted lt (seq a n).
Proof.
  revert a. induction n as [|n IH]; intros a; simpl; constructor; [done|].
  apply Forall_forall. intros i Hi%elem_of_seq. lia.
Qed.

Lemma optimize_pool_sorted ts cons h : StronglySorted lt (optimize_pool ts cons h).
Proof.
  unfold optimize_pool.
  assert (StronglySorted lt
    match ts with
    | Some t => (List.filter (λ p, bool_decide (timestamp p.2 = t)) (enumerate h)).*1
    | None => seq 0 (length h)
    end) as Htemp.
  { destruct ts; [|apply sorted_seq]. apply sorted_fst_filter.
    rewrite enumerate_fst. apply sorted_seq. }
  destruct cons; [by apply sorted_filter|done].
Qed.

(** Membership in the pool: a history index whose state passes both filters. *)
Lemma elem_of_optimize_pool ts cons h i :
  i ∈ optimize_pool ts cons h ↔
  ∃ s, h !! i = Some s
    ∧ (∀ t, ts = Some t → timestamp s = t)
    ∧ (∀ cs, cons = Some cs → touches cs s = false).
Proof.
  unfold optimize_pool.
  assert (∀ i, i ∈ match ts with
    | Some t => (List.filter (λ p, bool_decide (timestamp p.2 = t)) (enumerate h)).*1
    | None => seq 0 (length h)
    end ↔ ∃ s, h !! i = Some s ∧ (∀ t, ts = Some t → timestamp s = t)) as Htemp.
  { clear i. intros i. destruct ts as [t|].
    - rewrite list_elem_of_fmap. split.
      + intros ([j s] & -> & [Hin Hf]%elem_of_List_filter). simpl in *.
        apply elem_of_enumerate in Hin. apply bool_decide_eq_true in Hf.
        exists s. split; [done|]. by intros t' [= <-].
      + intros (s & Hs & Ht). exists (i, s). split; [done|].
        apply elem_of_List_filter. split; [by apply elem_of_enumerate|].
        apply bool_decide_eq_true. by apply Ht.
    - rewrite elem_of_seq. split.
      + intros [_ Hlt]. destruct (lookup_lt_is_Some_2 h i) as [s Hs]; [lia|].
        exists s. split; [done|]. by intros.
      + intros (s & Hs & _). apply lookup_lt_Some in Hs. lia. }
  destruct cons as [cs|].
  - rewrite elem_of_List_filter, Htemp. split.
    + intros [(s & Hs & Ht) Hc]. exists s. split; [done|]. split; [done|].
      intros cs' [= <-]. rewrite Hs in Hc. simpl in Hc. by apply negb_true_iff in Hc.
    + intros (s & Hs & Ht & Hc). split; [by eauto|].
      rewrite Hs. simpl. apply negb_true_iff. by apply Hc.
  - rewrite Htemp. split.
    + intros (s & Hs & Ht). exists s. by split_and!.
    + intros (s & Hs & Ht & _). eauto.
Qed.

(** ** [optimize] *)

(** The history after [self.context.improvement_score = threshold]. *)
Lemma optimize_inv stop ts cons thr c c' r :
  optimize stop ts cons thr c = Ok (c', r) →
  ∃ h,
    match c.(selected_state) with
    | Some _ => setattr_at (set_improvement_score thr) c.(history) c.(selected_state) = Ok h
    | None => h = c.(history)
    end
    ∧ match py_max (density_at h) (optimize_pool ts cons c.(history)) with
      | Some n =>
          r = Some (Z.of_nat n)
          ∧ c' = mkCandidate c.(chain) (Some (Z.of_nat n)) h
                   (if stop && bool_decide (c.(selected_state) = Some (Z.of_nat n))
                    then false else c.(expandable))
      | None => r = None ∧ c' = mkCandidate c.(chain) c.(selected_state) h false
      end.
Proof.
  unfold optimize. intros H.
  destruct (selected_state c) as [i|] eqn:Es.
  - destruct (setattr_at _ _ _) as [h|e] eqn:Eh; simpl in H; [|done].
    exists h. split; [done|].
    destruct (py_max _ _); by injection H as <- <-.
  - simpl in H. exists (history c). split; [done|].
    destruct (py_max _ _); by injection H as <- <-.
Qed.

Lemma optimize_total stop ts cons thr c :
  c.(selected_state) = None ∨ selection_valid c →
  is_ok (optimize stop ts cons thr c) = true.
Proof.
  unfold optimize. intros [Hn|(k & Hk)].
  - rewrite Hn. simpl. by destruct (py_max _ _).
  - assert (∃ i, selected_state c = Some i) as [i Hi] by (destruct Hk as (i & ? & _); eauto).
    rewrite Hi, <- Hi.
    assert (setattr_at (set_improvement_score thr) (history c) (selected_state c)
            = Ok (alter (set_improvement_score thr) k (history c))) as ->
      by (apply setattr_at_Ok; eauto).
    simpl. by destruct (py_max _ _).
Qed.

Lemma density_at_alter thr k h i :
  (k < length h)%nat →
  density_at (alter (set_improvement_score thr) k h) i
  = if decide (i = k) then thr else density_at h i.
Proof.
  intros Hk. unfold density_at. destruct (decide (i = k)) as [->|Hne].
  - rewrite list_lookup_alter_eq. by destruct (lookup_lt_is_Some_2 h k Hk) as [s ->].
  - by rewrite list_lookup_alter_ne.
Qed.

Lemma sorted_split_lt (l1 l2 : list nat) n i :
  StronglySorted lt (l1 ++ n :: l2) → i ∈ l1 ++ n :: l2 → (i < n)%nat → i ∈ l1.
Proof.
  intros Hs Hi Hlt. apply elem_of_app in Hi as [Hi|Hi]; [done|].
  apply StronglySorted_app_1_r, StronglySorted_cons in Hs as [Hs _].
  rewrite Forall_forall in Hs.
  apply elem_of_cons in Hi as [->|Hi]; [lia|]. specialize (Hs _ Hi). lia.
Qed.

Lemma sorted_split_gt (l1 l2 : list nat) n i :
  StronglySorted lt (l1 ++ n :: l2) → i ∈ l1 → (i < n)%nat.
Proof.
  intros Hs Hi. eapply StronglySorted_app_1_elem_of; [exact Hs|done|by left].
Qed.
(** What [optimize] does, whenever it returns: the history is the old one
    with the density of the selected state overwritten by the threshold; if
    no state passes the filters the result is [None], the candidate is made
    non-expandable and its selection is left as it was; otherwise the result
    is the first pool index of maximal density, which becomes the selection.
    The selected state is retained when it passes the filters, no filtered
    state exceeds the threshold and no earlier filtered state ties with it.
    With [stop_expansion], a selection stored as the very index that wins
    makes the candidate non-expandable. [optimize] returns whenever the
    selection is [None] or resolves. *)
Theorem optimize_selects_first_maximal stop ts cons thr c :
  (c.(selected_state) = None ∨ selection_valid c →
   is_ok (optimize stop ts cons thr c) = true)
  ∧ ∀ c' r, optimize stop ts cons thr c = Ok (c', r) →
    let pool := optimize_pool ts cons c.(history) in
    let h := c'.(history) in
    c'.(chain) = c.(chain)
    ∧ (∀ k0, resolves c.(history) c.(selected_state) k0 →
         h = alter (set_improvement_score thr) k0 c.(history))
    ∧ (c.(selected_state) = None → h = c.(history))
    ∧ match r with
      | None =>
          pool = [] ∧ c'.(expandable) = false
          ∧ c'.(selected_state) = c.(selected_state)
      | Some k =>
          ∃ n before after,
            k = Z.of_nat n ∧ c'.(selected_state) = Some k
            ∧ pool = before ++ n :: after
            ∧ (∀ i, i ∈ before → (density_at h i < density_at h n)%Q)
            ∧ (∀ i, i ∈ after → (density_at h i <= density_at h n)%Q)
            ∧ (∀ k0, resolves c.(history) c.(selected_state) k0 → k0 ∈ pool →
                 (∀ i, i ∈ pool → (density_at h i <= thr)%Q) →
                 (∀ i, i ∈ pool → (i < k0)%nat → (density_at h i < thr)%Q) →
                 n = k0)
            ∧ (stop = true → c.(selected_state) = Some k → c'.(expandable) = false)
            ∧ (stop = false ∨ c.(selected_state) ≠ Some k →
               c'.(expandable) = c.(expandable))
      end.
Proof.
  split; [apply optimize_total|].
  intros c' r (h & Hh & Hmax)%optimize_inv pool h'.
  assert (Hhist : ∀ k0, resolves c.(history) c.(selected_state) k0 →
            h = alter (set_improvement_score thr) k0 c.(history)).
  { intros k0 Hk0. destruct (selected_state c) as [i|] eqn:Es.
    - apply setattr_at_Ok in Hh as (k & Hk & ->).
      by rewrite (resolves_fun _ _ _ _ Hk0 Hk).
    - by destruct Hk0 as (i & ? & _). }
  assert (Hnone : c.(selected_state) = None → h = c.(history)).
  { intros Hn. by rewrite Hn in Hh. }
  destruct (py_max (density_at h) (optimize_pool ts cons c.(history))) as [n|] eqn:Em.
  - destruct Hmax as [-> ->]. subst h'. simpl.
    split; [done|]. split; [done|]. split; [done|].
    apply py_max_first in Em as (before & after & Hpool & Hb & Ha).
    exists n, before, after. split_and!; try done.
    + intros k0 Hk0 Hin Hle Hlt.
      destruct (decide (n = k0)) as [|Hne]; [done|exfalso].
      assert (density_at h k0 = thr) as Hd.
      { rewrite (Hhist _ Hk0), density_at_alter by (by eapply resolves_lt).
        by rewrite decide_True. }
      assert (Hn : n ∈ pool).
      { unfold pool. rewrite Hpool. apply elem_of_app. right. by left. }
      pose proof (optimize_pool_sorted ts cons c.(history)) as Hs.
      fold pool in Hs, Hpool. rewrite Hpool in Hin, Hs.
      apply elem_of_app in Hin as [Hin|Hin].
      * specialize (Hb _ Hin). rewrite Hd in Hb. specialize (Hle _ Hn).
        by apply Qlt_not_le in Hb.
      * apply elem_of_cons in Hin as [->|Hin]; [done|].
        assert (n < k0)%nat as Hnk.
        { apply StronglySorted_app_1_r, StronglySorted_cons in Hs as [Hs _].
          rewrite Forall_forall in Hs. by apply Hs. }
        specialize (Ha _ Hin). rewrite Hd in Ha. specialize (Hlt _ Hn Hnk).
        by apply Qlt_not_le in Hlt.
    + intros -> ->. simpl. by rewrite bool_decide_eq_true_2.
    + intros [->|Hne]; [done|]. rewrite bool_decide_eq_false_2 by done.
      by rewrite andb_false_r.
  - destruct Hmax as [-> ->]. subst h'. simpl.
    split; [done|]. split; [done|]. split; [done|].
    by apply py_max_None in Em.
Qed.

(** A run of the theorem: on [tie_candidate] restricted to timestamp 0, with
    a threshold no state reaches, the call returns and keeps state 1. *)
Lemma optimize_selects_first_maximal_witness :
  ∃ c', optimize false (Some 0) None 1 tie_candidate = Ok (c', Some 1)
        ∧ c'.(chain) = tie_candidate.(chain).
Proof.
  eexists. split; [vm_compute; reflexivity|].
  refine (proj1 (proj2 (optimize_selects_first_maximal false (Some 0) None 1 tie_candidate)
                   _ (Some 1) _)).
  vm_compute. reflexivity.
Defined.

(** C3. The code departs from the claim, and from its own comment ("If no
    one else is above the threshold, we default to the current state") and
    docstring, on three inputs.

    A fresh candidate goes through [optimize], [add_right_context],
    [optimize], [optimize], all with the threshold 1/100. The second call
    selects the grown state 1. In the third call no state has a density
    above the threshold: the selected state 1 is given the threshold, state 0
    still carries the threshold the first call wrote into it, [max] takes
    the first of the two, and the selection moves from state 1 to state 0.

    The same on [tie_candidate], a candidate in that situation.

    On a fresh candidate [optimize(stop_expansion=True)] resolves the
    selection to the state it already denoted (index 0 for the sentinel -1),
    and the candidate stays expandable. *)
Theorem optimize_default_not_retained :
  (∃ c1 c2 c3 c4,
     optimize false None None (1 # 100) anchor_candidate = Ok (c1, Some 0)
     ∧ add_right_context model_def (doc_next doc_def) 1 None 0 c1 = Ok c2
     ∧ optimize false None None (1 # 100) c2 = Ok (c3, Some 1)
     ∧ c3.(selected_state) = Some 1
     ∧ optimize false None None (1 # 100) c3 = Ok (c4, Some 0)
     ∧ optimize_pool None None c3.(history) = [0; 1]%nat
     ∧ Forall (λ i, (density_at c4.(history) i <= 1 # 100)%Q) [0; 1]%nat
     ∧ c4.(selected_state) = Some 0)
  ∧ (∃ c', optimize false None None (1 # 100) tie_candidate = Ok (c', Some 0)
           ∧ resolves tie_candidate.(history) tie_candidate.(selected_state) 1
           ∧ optimize_pool None None tie_candidate.(history) = [0; 1]%nat
           ∧ Forall (λ i, (density_at tie_candidate.(history) i <= 1 # 100)%Q) [0; 1]%nat
           ∧ c'.(selected_state) = Some 0)
  ∧ (∃ c', optimize true None None (1 # 100) fresh_candidate = Ok (c', Some 0)
           ∧ (score <$> context c') = (score <$> context fresh_candidate)
           ∧ (chains <$> context c') = (chains <$> context fresh_candidate)
           ∧ c'.(expandable) = true).
Proof.
  split; [|split].
  - eexists. eexists. eexists. eexists.
    split; [vm_compute; reflexivity|].
    split; [vm_compute; reflexivity|].
    split; [vm_compute; reflexivity|].
    split; [reflexivity|].
    split; [vm_compute; reflexivity|].
    split; [by vm_compute|].
    split; [|by vm_compute].
    repeat constructor; vm_compute; discriminate.
  - eexists. split; [vm_compute; reflexivity|].
    split; [exists 1; by vm_compute|].
    split; [by vm_compute|].
    split; [|by vm_compute].
    repeat constructor; vm_compute; discriminate.
  - eexists. split; [vm_compute; reflexivity|]. by vm_compute.
Qed.

(** ** The selection stays valid *)

Lemma optimize_keeps_selection_valid stop ts cons thr c c' r :
  optimize stop ts cons thr c = Ok (c', r) → selection_valid c → selection_valid c'.
Proof.
  intros (h & Hh & Hmax)%optimize_inv (k0 & Hk0).
  assert (length h = length c.(history)) as Hlen.
  { destruct (selected_state c); [|by subst].
    apply setattr_at_Ok in Hh as (k & _ & ->). by rewrite length_alter. }
  destruct (py_max (density_at h) (optimize_pool ts cons c.(history))) as [n|] eqn:Em.
  - destruct Hmax as [-> ->].
    apply py_max_first in Em as (l1 & l2 & Hpool & _).
    assert (n ∈ optimize_pool ts cons c.(history)) as Hn.
    { rewrite Hpool. apply elem_of_app. right. by left. }
    apply elem_of_optimize_pool in Hn as (s & Hs%lookup_lt_Some & _).
    exists n, (Z.of_nat n). split; [done|]. simpl.
    apply norm_index_nat. lia.
  - destruct Hmax as [-> ->]. exists k0.
    destruct Hk0 as (i & Hi & Hn). exists i. simpl. by rewrite Hlen.
Qed.

Lemma clear_timestamp_inv ts c c' :
  clear_timestamp ts c = Ok c' →
  ∃ cur, context c = Ok cur ∧ timestamp cur ≠ ts
    ∧ c'.(history) = List.filter (λ s, negb (bool_decide (timestamp s = ts))) c.(history)
    ∧ (c.(selected_state) = Some (-1) → c'.(selected_state) = Some (-1))
    ∧ (c.(selected_state) ≠ Some (-1) →
       ∃ i, c'.(selected_state) = Some i ∧ 0 ≤ i
            ∧ (i ≤ Z.of_nat (length c'.(history)) - 1 ∨ i = 0)).
Proof.
  unfold clear_timestamp. destruct (context c) as [cur|e] eqn:Ec; simpl; [|done].
  destruct (bool_decide (timestamp cur = ts)) eqn:Et; [done|].
  apply bool_decide_eq_false in Et. intros H. exists cur. split; [done|]. split; [done|].
  destruct (bool_decide (selected_state c = Some (-1))) eqn:Es.
  - apply bool_decide_eq_true in Es. injection H as <-. simpl. by split_and!.
  - apply bool_decide_eq_false in Es. injection H as <-. simpl.
    split; [done|]. split; [done|]. intros _. eexists. split; [done|]. lia.
Qed.

Lemma clear_timestamp_keeps_selection_valid ts c c' :
  clear_timestamp ts c = Ok c' → selection_valid c'.
Proof.
  intros (cur & Hc & Ht & Hh & Hlast & Hidx)%clear_timestamp_inv.
  assert (0 < length c'.(history))%nat as Hpos.
  { apply context_Ok in Hc as (k & _ & Hk).
    assert (cur ∈ c'.(history)) as Hin.
    { rewrite Hh. apply elem_of_List_filter. split; [by eapply list_elem_of_lookup_2|].
      by rewrite bool_decide_eq_false_2. }
    destruct c'.(history); [by apply elem_of_nil in Hin|simpl; lia]. }
  destruct (decide (c.(selected_state) = Some (-1))) as [Hs|Hs].
  - exists (length c'.(history) - 1)%nat, (-1). split; [by apply Hlast|].
    by apply norm_index_last.
  - destruct (Hidx Hs) as (i & Hi & H0 & Hle).
    exists (Z.to_nat i), i. split; [done|]. apply norm_index_Ok. left. lia.
Qed.

Lemma clear_timestamp_total ts c cur :
  context c = Ok cur → timestamp cur ≠ ts → is_ok (clear_timestamp ts c) = true.
Proof.
  intros Hc Ht. unfold clear_timestamp. rewrite Hc. simpl.
  rewrite bool_decide_eq_false_2 by done. by destruct (bool_decide _).
Qed.

(** Filtering [enumerate l] by a predicate on positions that only one
    position satisfies. *)
Lemma filter_imap_none {A} (f : nat → bool) (g : nat → nat) (l : list A) :
  (∀ j, (j < length l)%nat → f (g j) = false) →
  List.filter (λ p : nat * A, f p.1) (imap (λ i x, (g i, x)) l) = [].
Proof.
  revert g. induction l as [|x l IH]; intros g Hl; [done|].
  cbn [imap List.filter fst]. rewrite (Hl 0%nat) by (simpl; lia).
  apply (IH (g ∘ S)). intros j Hj. apply Hl. simpl. lia.
Qed.

Lemma filter_enumerate_single {A} (f : nat → bool) (l : list A) k x :
  l !! k = Some x → f k = true →
  (∀ j, (j < length l)%nat → j ≠ k → f j = false) →
  (List.filter (λ p : nat * A, f p.1) (enumerate l)).*2 = [x].
Proof.
  intros Hk Hf Hother. unfold enumerate.
  pose proof (lookup_lt_Some _ _ _ Hk) as Hlt.
  rewrite <- (take_drop_middle _ _ _ Hk) at 1.
  assert (length (take k l) = k) as Hlen by (rewrite length_take; lia).
  rewrite imap_app, List.filter_app, fmap_app.
  rewrite (filter_imap_none f (λ i, i) (take k l)).
  2:{ intros j Hj. apply Hother; lia. }
  cbn [imap List.filter fst app]. rewrite Hlen, Nat.add_0_r, Hf.
  cbn [fmap list_fmap snd app]. f_equal.
  match goal with |- (?t).*2 = [] => assert (t = []) as ->; [|done] end.
  apply (filter_imap_none f (λ i, (k + S i)%nat)).
  intros j Hj. rewrite length_drop in Hj. apply Hother; lia.
Qed.

(** [clear_history()] as the engine calls it, with no exceptions: the history
    shrinks to the selected state, which stays selected. *)
Lemma clear_history_plain c cur :
  context c = Ok cur →
  (c.(selected_state) = Some (-1) ∨ ∃ i, c.(selected_state) = Some i ∧ 0 ≤ i) →
  ∃ c', clear_history [] c = Ok c' ∧ c'.(history) = [cur] ∧ context c' = Ok cur.
Proof.
  intros (k & (i & Hi & Hn) & Hk)%context_Ok Hsel.
  pose proof (lookup_lt_Some _ _ _ Hk) as Hlt.
  assert (Hfilter : ∀ (sel : Z), sel = Z.of_nat k →
    (List.filter (λ p : nat * State,
       (λ j : nat, bool_decide (Z.of_nat j ∈ @nil Z)
                   || bool_decide (Some sel = Some (Z.of_nat j))) p.1)
       (enumerate c.(history))).*2 = [cur]).
  { intros sel ->.
    pose (f := λ j : nat, bool_decide (Z.of_nat j ∈ @nil Z)
                          || bool_decide (Some (Z.of_nat k) = Some (Z.of_nat j))).
    apply (filter_enumerate_single f _ k); [done|unfold f..].
    - rewrite (bool_decide_eq_true_2 (Some _ = Some _)) by done. apply orb_true_r.
    - intros j _ Hj. rewrite bool_decide_eq_false_2 by (by intros ?%elem_of_nil).
      rewrite bool_decide_eq_false_2; [done|]. intros [= H]. lia. }
  unfold clear_history.
  destruct (bool_decide (selected_state c = Some (-1))) eqn:Es.
  - apply bool_decide_eq_true in Es. rewrite Es in Hi. injection Hi as <-.
    apply norm_index_Ok in Hn as [[? _]|[Hr ->]]; [lia|].
    eexists. split; [done|]. cbn [history selected_state].
    rewrite Hfilter by lia. split; reflexivity.
  - apply bool_decide_eq_false in Es. destruct Hsel as [|(i' & Hi' & H0)]; [done|].
    rewrite Hi in Hi'. injection Hi' as <-.
    apply norm_index_Ok in Hn as [[Hr ->]|[? _]]; [|lia].
    rewrite Hi. eexists. split; [done|]. cbn [history selected_state].
    rewrite Hfilter by lia. split; [reflexivity|].
    assert (rank_in (sorted_set ([] ++ [i])) i = 0) as ->; [|reflexivity].
    unfold rank_in, sorted_set. cbn.
    destruct (decide_rel elem_of i []) as [?%elem_of_nil|_]; [done|].
    cbn. by rewrite decide_True.
Qed.

(** C9. On [three_state_candidate] (selection 1, a valid index) the call
    [clear_history([-1])] keeps state 1 alone but stores the index 1, the rank
    of 1 in [sorted({-1, 1})]: the selection no longer resolves, and reading
    the context raises [IndexError]. *)
Theorem clear_history_breaks_selection :
  selection_valid three_state_candidate
  ∧ ∃ c', clear_history [-1] three_state_candidate = Ok c'
          ∧ length c'.(history) = 1%nat
          ∧ c'.(selected_state) = Some 1
          ∧ context c' = Raise IndexError
          ∧ ¬ selection_valid c'.
Proof.
  split; [exists 1%nat, 1; by vm_compute|].
  eexists. split; [vm_compute; reflexivity|]. split_and!; try by vm_compute.
  intros H%selection_valid_context. by vm_compute in H.
Qed.

(** *** [clear_history] with exceptions that are positions *)

Lemma filter_imap_length {A} (f : nat → bool) (g : nat → nat) (l : list A) :
  length (List.filter (λ p : nat * A, f p.1) (imap (λ i x, (g i, x)) l))
  = length (List.filter f (g <$> seq 0 (length l))).
Proof.
  revert g. induction l as [|x l IH]; intros g; [done|].
  cbn [imap List.filter fst length seq fmap list_fmap].
  rewrite <- fmap_S_seq, <- list_fmap_compose.
  specialize (IH (g ∘ S)).
  destruct (f (g 0%nat)); cbn [length]; [f_equal|]; exact IH.
Qed.

(** The state at position [k], when kept, lands at the position that counts
    the kept positions below [k]. *)
Lemma filter_enumerate_lookup {A} (f : nat → bool) (l : list A) k x :
  l !! k = Some x → f k = true →
  (List.filter (λ p : nat * A, f p.1) (enumerate l)).*2
    !! length (List.filter f (seq 0 k)) = Some x.
Proof.
  intros Hk Hf. unfold enumerate.
  pose proof (lookup_lt_Some _ _ _ Hk) as Hlt.
  rewrite <- (take_drop_middle _ _ _ Hk) at 1.
  assert (length (take k l) = k) as Hlen by (rewrite length_take; lia).
  rewrite imap_app, List.filter_app, fmap_app.
  pose proof (filter_imap_length f (λ i, i) (take k l)) as Hcount.
  rewrite Hlen, list_fmap_id in Hcount.
  rewrite <- Hcount, <- (length_fmap snd).
  rewrite lookup_app_r by lia. rewrite Nat.sub_diag.
  cbn [imap List.filter fst]. rewrite Hlen, Nat.add_0_r, Hf. done.
Qed.

(** In a sorted list the first occurrence of [s] sits after the entries below it. *)
Lemma rank_in_sorted (order : list Z) s :
  Sorted Z.le order → s ∈ order →
  rank_in order s = Z.of_nat (length (List.filter (λ x, x <? s) order)).
Proof.
  unfold rank_in. intros Hs%(Sorted_StronglySorted _) Hin.
  induction Hs as [|x r Hr IH Hx]; [by apply elem_of_nil in Hin|].
  cbn [list_find List.filter]. rewrite Forall_forall in Hx.
  destruct (decide (x = s)) as [->|Hne].
  - rewrite ?decide_True by done. cbn. rewrite Z.ltb_irrefl.
    assert (List.filter (λ x, x <? s) r = []) as ->; [|done].
    clear -Hx. induction r as [|y r IH]; [done|]. cbn.
    assert (s ≤ y) by (apply Hx; by left).
    destruct (y <? s) eqn:E; [apply Z.ltb_lt in E; lia|].
    apply IH. intros z Hz. apply Hx. by right.
  - rewrite ?decide_False by done.
    apply elem_of_cons in Hin as [->|Hin]; [done|].
    specialize (Hx _ Hin).
    assert ((x <? s) = true) as -> by (apply Z.ltb_lt; lia).
    specialize (IH Hin). cbn [length].
    destruct (list_find_elem_of (λ i, i = s) r s Hin eq_refl) as [[i y] Hfind].
    rewrite Hfind in IH |- *. cbn in *. lia.
Qed.

Lemma filter_length_perm {A} (f : A → bool) (l k : list A) :
  l ≡ₚ k → length (List.filter f l) = length (List.filter f k).
Proof.
  induction 1 as [|x l k _ IH|x y l|l1 l2 l3 _ IH1 _ IH2]; cbn; [done| | |congruence].
  - destruct (f x); cbn; by rewrite IH.
  - destruct (f x), (f y); done.
Qed.

Lemma NoDup_List_filter {A} (f : A → bool) (l : list A) :
  NoDup l → NoDup (List.filter f l).
Proof.
  induction 1 as [|x l Hx _ IH]; cbn; [constructor|].
  destruct (f x); [|done]. constructor; [|done].
  intros [? _]%elem_of_List_filter. done.
Qed.

Lemma elem_of_sorted_set l x : x ∈ sorted_set l ↔ x ∈ l.
Proof. unfold sorted_set. by rewrite merge_sort_Permutation, elem_of_remove_dups. Qed.

(** The entries of [sorted(set(exceptions + [s]))] below [s] are as many as
    the kept positions below [s], when no exception is negative. *)
Lemma rank_counts_kept (exceptions : list Z) (s : Z) :
  0 ≤ s → Forall (λ x, 0 ≤ x) exceptions →
  length (List.filter (λ x, x <? s) (sorted_set (exceptions ++ [s])))
  = length (List.filter
              (λ i : nat, bool_decide (Z.of_nat i ∈ exceptions)
                          || bool_decide (Some s = Some (Z.of_nat i)))
              (seq 0 (Z.to_nat s))).
Proof.
  intros Hs Hex. rewrite Forall_forall in Hex.
  rewrite <- (length_fmap Z.of_nat (List.filter _ (seq 0 (Z.to_nat s)))).
  apply Permutation_length, NoDup_Permutation.
  - apply NoDup_List_filter. unfold sorted_set.
    rewrite merge_sort_Permutation. apply NoDup_remove_dups.
  - apply NoDup_fmap; [intros ? ?; apply Nat2Z.inj|]. apply NoDup_List_filter, NoDup_seq.
  - intros x. rewrite elem_of_List_filter, elem_of_sorted_set, elem_of_app,
      list_elem_of_singleton, Z.ltb_lt, list_elem_of_fmap.
    split.
    + intros [[Hx| ->] Hlt]; [|lia].
      exists (Z.to_nat x). specialize (Hex _ Hx). split; [lia|].
      apply elem_of_List_filter. split; [apply elem_of_seq; lia|].
      rewrite Z2Nat.id by lia. by rewrite bool_decide_eq_true_2.
    + intros (i & -> & [Hi Hf]%elem_of_List_filter). apply elem_of_seq in Hi.
      apply orb_true_iff in Hf as [Hf|Hf]; apply bool_decide_eq_true in Hf.
      * split; [by left|lia].
      * injection Hf as ->. lia.
Qed.

(** [clear_history] keeps the selected state selected when the selection is
    the sentinel or a position and no exception is negative. *)
Lemma clear_history_keeps_selection exceptions c cur :
  context c = Ok cur →
  (c.(selected_state) = Some (-1) ∨ ∃ i, c.(selected_state) = Some i ∧ 0 ≤ i) →
  Forall (λ x, 0 ≤ x) exceptions →
  ∃ c', clear_history exceptions c = Ok c' ∧ context c' = Ok cur.
Proof.
  intros (k & (i & Hi & Hn) & Hk)%context_Ok Hsel Hex.
  pose proof (lookup_lt_Some _ _ _ Hk) as Hlt.
  set (f := λ j : nat, bool_decide (Z.of_nat j ∈ exceptions)
                       || bool_decide (Some (Z.of_nat k) = Some (Z.of_nat j))).
  assert (Hfk : f k = true).
  { unfold f. rewrite (bool_decide_eq_true_2 (Some _ = Some _)) by done. apply orb_true_r. }
  pose proof (filter_enumerate_lookup f _ _ _ Hk Hfk) as Hpos.
  unfold clear_history.
  destruct (bool_decide (selected_state c = Some (-1))) eqn:Es.
  - apply bool_decide_eq_true in Es. rewrite Es in Hi. injection Hi as <-.
    apply norm_index_Ok in Hn as [[? _]|[Hr Hk']]; [lia|].
    eexists. split; [done|]. apply context_Ok. cbn [history selected_state].
    replace (Z.of_nat (length (history c)) - 1) with (Z.of_nat k) by lia. fold f.
    set (h' := (List.filter (λ p : nat * State, f p.1) (enumerate (history c))).*2) in *.
    assert (length h' = S (length (List.filter f (seq 0 k)))) as Hlen.
    { unfold h'. rewrite length_fmap. unfold enumerate.
      rewrite (filter_imap_length f (λ j, j)), list_fmap_id.
      replace (length (history c)) with (k + 1)%nat by lia.
      rewrite seq_app, List.filter_app, length_app. cbn. rewrite Hfk. cbn. lia. }
    exists (length (List.filter f (seq 0 k))). split; [|done].
    exists (-1). split; [done|]. change (norm_index (length h') (-1) = Ok (length (List.filter f (seq 0 k)))).
    rewrite norm_index_last by lia. f_equal. lia.
  - apply bool_decide_eq_false in Es. destruct Hsel as [|(i' & Hi' & H0)]; [done|].
    rewrite Hi in Hi'. injection Hi' as <-.
    apply norm_index_Ok in Hn as [[Hr Hk']|[? _]]; [|lia].
    rewrite Hi. eexists. split; [done|]. apply context_Ok. cbn [history selected_state].
    replace i with (Z.of_nat k) in * by lia. fold f.
    exists (length (List.filter f (seq 0 k))). split; [|done].
    exists (Z.of_nat (length (List.filter f (seq 0 k)))). split.
    + f_equal. rewrite rank_in_sorted.
      * f_equal. rewrite rank_counts_kept by (done || lia). by rewrite Nat2Z.id.
      * unfold sorted_set. apply Sorted_merge_sort. intros x y. lia.
      * apply elem_of_sorted_set, elem_of_app. right. by left.
    + apply norm_index_nat. by eapply lookup_lt_Some.
Qed.

(** ** Growth operations *)

Section GrowthFacts.
Variable model : string → Q.
Variables next prev : SentenceChain → Z → list SentenceChain.

Lemma grow_in_unfold d :
  grow_in model next prev d = grow model (tag_of d) (extend_in next prev d).
Proof. by destruct d. Qed.

Lemma grow_in_noop d n bf ts c :
  n ≤ 0 ∨ c.(expandable) = false → grow_in model next prev d n bf ts c = Ok c.
Proof.
  intros H. rewrite grow_in_unfold. unfold grow.
  destruct H as [H| ->].
  - apply Z.leb_le in H. by rewrite H.
  - by rewrite orb_true_r.
Qed.

Lemma grow_in_inv d n bf ts c c' :
  0 < n → c.(expandable) = true →
  grow_in model next prev d n bf ts c = Ok c' →
  ∃ parent cs,
    getitem_opt c.(history) (branch_point bf c) = Ok parent
    ∧ extend_in next prev d n parent.(chains) = Ok cs
    ∧ let s := grown model (tag_of d) n ts parent cs in
      if (0 <? word_count (state_text s))%nat then
        ∃ base,
          getitem_opt (c.(history) ++ [s]) (branch_point bf c) = Ok base
          ∧ c' = set_history
                   (c.(history)
                    ++ [set_improvement_score
                          (round3 ((score s - score base)
                                   / inject_Z (Z.of_nat (word_count (state_text s))))) s]) c
      else c' = set_history (c.(history) ++ [s]) c.
Proof.
  intros Hn He. rewrite grow_in_unfold. unfold grow.
  apply Z.leb_gt in Hn. rewrite Hn, He. simpl.
  destruct (getitem_opt _ _) as [parent|e] eqn:Ep; simpl; [|done].
  destruct (extend_in next prev d n parent.(chains)) as [cs|e] eqn:Ex; simpl; [|done].
  intros H. exists parent, cs. split; [done|]. split; [done|]. cbv zeta.
  fold (grown model (tag_of d) n ts parent cs) in H |- *.
  destruct (0 <? word_count (state_text (grown model (tag_of d) n ts parent cs)))%nat.
  - destruct (getitem_opt (_ ++ _) _) as [base|e] eqn:Eb; simpl in H; [|done].
    exists base. split; [done|]. by injection H as <-.
  - by injection H as <-.
Qed.

Lemma getitem_opt_app_nonneg {A} (l : list A) x i y :
  0 ≤ i → getitem_opt l (Some i) = Ok y → getitem_opt (l ++ [x]) (Some i) = Ok y.
Proof.
  intros Hi. rewrite !getitem_opt_Ok.
  intros (k & (j & [= <-] & Hk) & Hy).
  apply norm_index_Ok in Hk as [[Hr ->]|[? _]]; [|lia].
  exists (Z.to_nat i). split.
  - exists i. split; [done|]. apply norm_index_Ok. left. rewrite length_app. simpl. lia.
  - by apply lookup_app_l_Some.
Qed.

(** C7 (as amended). A growth operation that grows ([n > 0], expandable
    candidate) from a branch point given by a non-negative index, or by the
    default, appends a state scored on its whole window whose improvement
    density is [(new score - parent score) / word count] rounded to three
    decimals when the window has words, and the parent's density otherwise. *)
Theorem growth_density d n bf ts c c' i parent :
  0 < n → c.(expandable) = true →
  branch_point bf c = Some i → 0 ≤ i →
  getitem c.(history) i = Ok parent →
  grow_in model next prev d n bf ts c = Ok c' →
  ∃ new,
    c'.(history) = c.(history) ++ [new]
    ∧ score new = predict_joined model new.(chains)
    ∧ extend_in next prev d n parent.(chains) = Ok new.(chains)
    ∧ let words := word_count (state_text new) in
      ((0 < words)%nat →
       improvement_score new
       = round3 ((score new - score parent) / inject_Z (Z.of_nat words)))
      ∧ (words = 0%nat → improvement_score new = improvement_score parent).
Proof.
  intros Hn He Hbp Hi Hparent Hgrow.
  apply grow_in_inv in Hgrow as (parent' & cs & Hp & Hx & Hrest); [|done..].
  rewrite Hbp in Hp, Hrest. simpl in Hp. rewrite Hparent in Hp. injection Hp as <-.
  cbv zeta in Hrest.
  set (s := grown model (tag_of d) n ts parent cs) in *.
  destruct (0 <? word_count (state_text s))%nat eqn:Ew.
  - destruct Hrest as (base & Hb & ->).
    rewrite (getitem_opt_app_nonneg _ s _ parent Hi Hparent) in Hb. injection Hb as <-.
    eexists. split; [done|]. split; [done|]. split; [done|].
    apply Nat.ltb_lt in Ew.
    change (state_text (set_improvement_score _ s)) with (state_text s).
    split; [done|]. intros H0. rewrite H0 in Ew. lia.
  - subst c'. exists s. split; [done|]. split; [done|]. split; [done|].
    apply Nat.ltb_ge in Ew. split; [lia|]. done.
Qed.

End GrowthFacts.

(** A run of the theorem: the anchor "d " (score 0) grows right into "d e "
    (score 1, two words); the density is 1/2. *)
Lemma growth_density_witness :
  ∃ new, (add_right_context model_def (doc_next doc_def) 1 None 0 anchor_candidate
          ≫= λ c', Ok c'.(history)) = Ok (anchor_candidate.(history) ++ [new])
         ∧ improvement_score new = 500 # 1000.
Proof.
  destruct (growth_density model_def (doc_next doc_def) (doc_prev doc_def)
              Right 1 None 0 anchor_candidate
              (mkCandidate (mkChain 4 "d ") (Some (-1))
                 (anchor_candidate.(history)
                  ++ [mkState [mkChain 4 "d "; mkChain 5 "e "] 1 ["right 1"%string] 0
                        (500 # 1000)]) true)
              0 (mkState [mkChain 4 "d "] 0 [] 0 0))
    as (new & Hh & _ & _ & Hd & _);
    [lia | reflexivity | reflexivity | lia | reflexivity | vm_compute; reflexivity |].
  exists new. split.
  - vm_compute. vm_compute in Hh. by rewrite <- Hh.
  - simpl in Hh. injection Hh as <-. reflexivity.
Defined.

(** C7 (as stated) fails. The quotient is rounded: growing the anchor "d "
    (score 0) by two units into "d e f " (score 1, three words) gives density
    333/1000, not 1/3. And with the explicit branch point [-1] the parent is
    read again, after the append, as [self.history[-1]], which then is the new
    state: growing "d " (score 0) into "d e " (score 1, two words) gives
    density 0, not 1/2. *)
Lemma growth_density_not_the_quotient :
  (∃ c' new,
     add_right_context model_def (doc_next doc_def) 2 None 0 anchor_candidate = Ok c'
     ∧ c'.(history) = anchor_candidate.(history) ++ [new]
     ∧ score new = 1%Q
     ∧ word_count (state_text new) = 3%nat
     ∧ improvement_score new = 333 # 1000
     ∧ ¬ (improvement_score new == (score new - 0) / 3)%Q)
  ∧ (∃ c' new,
       add_right_context model_def (doc_next doc_def) 1 (Some (-1)) 0 anchor_candidate
       = Ok c'
       ∧ c'.(history) = anchor_candidate.(history) ++ [new]
       ∧ score new = 1%Q
       ∧ word_count (state_text new) = 2%nat
       ∧ improvement_score new = 0 # 1000
       ∧ ¬ (improvement_score new == (score new - 0) / 2)%Q).
Proof.
  split.
  - eexists. eexists. split; [vm_compute; reflexivity|].
    split; [reflexivity|]. split; [reflexivity|]. split; [reflexivity|].
    split; [reflexivity|]. by vm_compute.
  - eexists. eexists. split; [vm_compute; reflexivity|].
    split; [reflexivity|]. split; [reflexivity|]. split; [reflexivity|].
    split; [reflexivity|]. by vm_compute.
Qed.

(** ** Merging *)

Lemma getitem_nonempty {A} (l : list A) i :
  l ≠ [] → i = 0 ∨ i = -1 → is_ok (getitem l i) = true.
Proof.
  intros Hl Hi. destruct l as [|x l]; [done|].
  destruct Hi as [-> | ->].
  - done.
  - unfold getitem.
    rewrite (norm_index_last (length (x :: l))) by (simpl; lia). simpl.
    rewrite Nat.sub_0_r.
    destruct (lookup_lt_is_Some_2 (x :: l) (length l)) as [y Hy]; [simpl; lia|].
    by rewrite Hy.
Qed.

Lemma index_range_total s : s.(chains) ≠ [] → is_ok (index_range s) = true.
Proof.
  intros Hs. unfold index_range, first_index, last_index.
  pose proof (getitem_nonempty _ 0 Hs (or_introl eq_refl)) as H0.
  pose proof (getitem_nonempty _ (-1) Hs (or_intror eq_refl)) as H1.
  destruct (getitem (chains s) 0); [|done]. destruct (getitem (chains s) (-1)); done.
Qed.

Lemma first_index_total s : s.(chains) ≠ [] → is_ok (first_index s) = true.
Proof.
  intros Hs. unfold first_index.
  pose proof (getitem_nonempty _ 0 Hs (or_introl eq_refl)) as H0.
  by destruct (getitem (chains s) 0).
Qed.

Lemma setattr_context (f : State → State) c cur :
  context c = Ok cur →
  ∃ h, setattr_at f c.(history) c.(selected_state) = Ok h
       ∧ context (set_history h c) = Ok (f cur).
Proof.
  intros (k & Hk & Hcur)%context_Ok.
  exists (alter f k c.(history)). split; [apply setattr_at_Ok; eauto|].
  apply context_Ok. exists k. split.
  - destruct Hk as (i & Hi & Hn). exists i. simpl. by rewrite length_alter.
  - simpl. rewrite list_lookup_alter_eq, Hcur. done.
Qed.

Section MergeFacts.
Variable model : string → Q.

Lemma extend_context_well_formed extra c :
  well_formed c → ∃ c', extend_context extra c = Ok c' ∧ well_formed c'.
Proof.
  intros (cur & Hc & Hne). unfold extend_context. rewrite Hc. simpl.
  destruct (setattr_context (set_chains (cur.(chains) ++ extra)) c cur Hc) as (h & -> & Hh).
  simpl. eexists. split; [done|]. eexists. split; [exact Hh|].
  simpl. by destruct cur.(chains).
Qed.

Lemma rescore_well_formed c :
  well_formed c → ∃ c', rescore model c = Ok c' ∧ well_formed c'.
Proof.
  intros (cur & Hc & Hne). unfold rescore. unfold context in Hc. rewrite Hc. simpl.
  destruct (setattr_context (set_score (predict_joined model cur.(chains))) c cur Hc)
    as (h & -> & Hh).
  simpl. eexists. split; [done|]. eexists. split; [exact Hh|]. done.
Qed.

Lemma merge_step_well_formed thr prev keep candidate :
  well_formed prev → Forall well_formed keep → well_formed candidate →
  ∃ prev' keep', merge_step thr (prev, keep) candidate = Ok (prev', keep')
                 ∧ well_formed prev' ∧ Forall well_formed keep'.
Proof.
  intros Hp Hk Hc. unfold merge_step.
  destruct Hp as (sp & Hsp & Hnp). destruct Hc as (sc & Hsc & Hnc).
  unfold cand_score, cand_index_range. rewrite Hsp, Hsc. simpl.
  assert (Hwp : well_formed prev) by (by exists sp).
  assert (Hwc : well_formed candidate) by (by exists sc).
  assert (Hkeep : Forall well_formed (keep ++ [prev])).
  { apply Forall_app. split; [done|]. by constructor. }
  destruct (Qle_bool 0 _); [|by eauto 6].
  pose proof (index_range_total sc Hnc) as Hrc.
  pose proof (index_range_total sp Hnp) as Hrp.
  destruct (index_range sc) as [rc|]; [|done].
  destruct (index_range sp) as [rp|]; [|done]. simpl.
  destruct (in_range rc.1 rp).
  - destruct (extend_context_well_formed
                (slice_from sc.(chains) (Z.of_nat (length sc.(chains)) - (rc.2 - rp.2)))
                prev Hwp) as (p' & -> & Hp').
    simpl. eauto.
  - destruct (bool_decide (rc.1 = rp.2)).
    + destruct (extend_context_well_formed sc.(chains) prev Hwp) as (p' & -> & Hp').
      simpl. eauto.
    + eauto 6.
Qed.

Lemma merge_scan_well_formed thr l prev keep :
  well_formed prev → Forall well_formed keep → Forall well_formed l →
  ∃ prev' keep', merge_scan thr (prev, keep) l = Ok (prev', keep')
                 ∧ well_formed prev' ∧ Forall well_formed keep'.
Proof.
  revert prev keep. induction l as [|c l IH]; intros prev keep Hp Hk Hl; cbn [merge_scan].
  - eauto.
  - apply Forall_cons in Hl as [Hc Hl].
    destruct (merge_step_well_formed thr prev keep c Hp Hk Hc) as (p' & k' & -> & Hp' & Hk').
    cbn [mbind result_bind]. by apply IH.
Qed.

Lemma mapM_rescore_well_formed l :
  Forall well_formed l →
  ∃ l', mapM (rescore model) l = Ok l' ∧ Forall well_formed l'.
Proof.
  induction 1 as [|c l Hc Hl (l' & IH1 & IH2)].
  - by exists [].
  - destruct (rescore_well_formed c Hc) as (c' & Hc1 & Hc2).
    exists (c' :: l'). split; [|by constructor].
    change (mapM (rescore model) (c :: l))
      with (rescore model c ≫= λ y, mapM (rescore model) l ≫= λ k, Ok (y :: k)).
    by rewrite Hc1, IH1.
Qed.

Lemma well_formed_context c : well_formed c → is_ok (context c) = true.
Proof. intros (cur & -> & _). done. Qed.

(** C10. [merge_candidates] reads [self.candidates[0]] unconditionally: on an
    empty candidate list it raises [IndexError]; on a non-empty list of
    well-formed candidates no access of the scan is out of bounds and the
    operation returns. *)
Theorem merge_candidates_needs_candidates thr cl :
  (cl.(candidates) = [] → merge_candidates model thr cl = Raise IndexError)
  ∧ (cl.(candidates) ≠ [] → Forall well_formed cl.(candidates) →
     is_ok (merge_candidates model thr cl) = true).
Proof.
  split.
  - intros H. unfold merge_candidates. by rewrite H.
  - intros Hne Hwf. unfold merge_candidates.
    destruct (with_keys cand_first_index cl.(candidates)) as [keyed|e] eqn:Ek.
    2:{ assert (is_ok (with_keys cand_first_index cl.(candidates)) = true) as Hok.
        { apply with_keys_total. eapply Forall_impl; [exact Hwf|].
          intros c (cur & Hc & Hn). unfold cand_first_index. rewrite Hc. simpl.
          by apply first_index_total. }
        by rewrite Ek in Hok. }
    simpl. apply with_keys_inv in Ek as [Hl _].
    set (sorted := (sort_by (λ y x : Z * SummaryCandidate, y.1 <? x.1) keyed).*2).
    assert (sorted ≡ₚ cl.(candidates)) as Hperm.
    { unfold sorted. by rewrite sort_by_perm, Hl. }
    assert (Forall well_formed sorted) as Hs by (by rewrite Hperm).
    destruct sorted as [|prev rest] eqn:Es.
    { apply Permutation_nil_l in Hperm. by rewrite <- Hperm in Hne. }
    apply Forall_cons in Hs as [Hp Hrest].
    change (getitem (prev :: rest) 0) with (Ok prev). simpl.
    rewrite drop_0.
    destruct (merge_scan_well_formed thr rest prev [] Hp (Forall_nil_2 _) Hrest)
      as (p' & k' & -> & Hp' & Hk').
    simpl. unfold rescore_candidates. simpl.
    destruct (mapM_rescore_well_formed (k' ++ [p'])) as (l' & -> & Hl').
    { apply Forall_app. split; [done|]. by constructor. }
    simpl. unfold rerank_candidates. simpl.
    assert (is_ok (rerank_list l') = true) as Hr.
    { apply rerank_list_total. eapply Forall_impl; [exact Hl'|].
      apply well_formed_context. }
    by destruct (rerank_list l').
Qed.

End MergeFacts.

(** A run of the theorem: the two adjacent seeds of [adjacent_cluster]. *)
Lemma merge_candidates_needs_candidates_witness :
  is_ok (merge_candidates model_def 2 adjacent_cluster) = true.
Proof.
  apply (proj2 (merge_candidates_needs_candidates model_def 2 adjacent_cluster)).
  - discriminate.
  - repeat constructor; eexists; (split; [reflexivity|discriminate]).
Defined.

(** ** Loops and budgets *)

Lemma while_true_break {S} (body : S → result (flow S)) fuel s s' :
  body s = Ok (Break s') → while_true body (Datatypes.S fuel) s = Done s'.
Proof. intros H. simpl. by rewrite H. Qed.

(** A pass that changes nothing and asks for another pass never ends. *)
Lemma while_true_spin {S} (body : S → result (flow S)) s :
  body s = Ok (Continue s) → ∀ fuel, while_true body fuel s = OutOfFuel.
Proof.
  intros H fuel. induction fuel as [|fuel IH]; simpl; [done|]. by rewrite H.
Qed.

(** A result reached within a budget is the result for every larger budget. *)
Lemma while_true_mono {S} (body : S → result (flow S)) fuel fuel' s r :
  while_true body fuel s = r → r ≠ OutOfFuel → (fuel ≤ fuel')%nat →
  while_true body fuel' s = r.
Proof.
  revert fuel' s. induction fuel as [|fuel IH]; intros fuel' s Hr Hne Hle; simpl in Hr.
  - by subst.
  - destruct fuel' as [|fuel']; [lia|]. simpl.
    destruct (body s) as [[s'|s']|e]; [done| |done].
    apply IH; [done..|lia].
Qed.

Section EngineFacts.
Variable model : string → Q.
Variables next prev : SentenceChain → Z → list SentenceChain.
Variable threshold : Q.

Local Abbreviation process_ := (process model next prev threshold).
Local Abbreviation for_each_position_ := (for_each_position model next prev threshold).
Local Abbreviation round_ := (round model next prev threshold).
Local Abbreviation rounds_ := (rounds model next prev threshold).
Local Abbreviation context_expansion_ := (context_expansion model next prev threshold).
Local Abbreviation conflict_step_ := (conflict_step threshold).

Lemma process_mono fuel fuel' ts prf pos st r :
  process_ fuel ts prf pos st = r → r ≠ OutOfFuel → (fuel ≤ fuel')%nat →
  process_ fuel' ts prf pos st = r.
Proof.
  unfold process. intros Hr Hne Hle.
  destruct (lift (skip_rules pos st)) as [[st'|]|e|]; simpl in *; [done| |done..].
  destruct (lift (grow_and_select model next prev threshold ts pos st)) as [st1|e|];
    simpl in *; [|done..].
  destruct (while_true (conflict_step_ ts pos) fuel st1) as [st2|e|] eqn:Ew; simpl in Hr.
  - by rewrite (while_true_mono _ _ fuel' _ _ Ew).
  - by rewrite (while_true_mono _ _ fuel' _ _ Ew).
  - by subst.
Qed.

Lemma for_each_position_mono fuel fuel' ts prf l st r :
  for_each_position_ fuel ts prf l st = r → r ≠ OutOfFuel → (fuel ≤ fuel')%nat →
  for_each_position_ fuel' ts prf l st = r.
Proof.
  revert st. induction l as [|pos l IH]; intros st Hr Hne Hle; simpl in *; [done|].
  destruct (process_ fuel ts prf pos st) as [st'|e|] eqn:Ep; simpl in Hr.
  - rewrite (process_mono _ fuel' _ _ _ _ _ Ep) by done. simpl. by apply IH.
  - by rewrite (process_mono _ fuel' _ _ _ _ _ Ep).
  - by subst.
Qed.

Lemma round_mono fuel fuel' e r :
  round_ fuel e = r → r ≠ OutOfFuel → (fuel ≤ fuel')%nat → round_ fuel' e = r.
Proof.
  unfold round. intros Hr Hne Hle.
  destruct (for_each_position_ fuel _ _ _ _) as [st|x|] eqn:Ef; simpl in Hr.
  - by rewrite (for_each_position_mono _ fuel' _ _ _ _ _ Ef).
  - by rewrite (for_each_position_mono _ fuel' _ _ _ _ _ Ef).
  - by subst.
Qed.

Lemma rounds_mono fuel fuel' inner inner' e r :
  rounds_ fuel inner e = r → r ≠ OutOfFuel → (fuel ≤ fuel')%nat → (inner ≤ inner')%nat →
  rounds_ fuel' inner' e = r.
Proof.
  revert fuel' e. induction fuel as [|fuel IH]; intros fuel' e Hr Hne Hle Hin; simpl in Hr.
  - by subst.
  - destruct fuel' as [|fuel']; [lia|]. simpl.
    destruct (round_ inner e) as [[e'|e']|x|] eqn:Er; simpl in Hr.
    + by rewrite (round_mono _ inner' _ _ Er).
    + rewrite (round_mono _ inner' _ _ Er) by done. simpl. apply IH; [done..|lia|done].
    + by rewrite (round_mono _ inner' _ _ Er).
    + by subst.
Qed.

Lemma context_expansion_mono fuel fuel' cl r :
  context_expansion_ fuel cl = r → r ≠ OutOfFuel → (fuel ≤ fuel')%nat →
  context_expansion_ fuel' cl = r.
Proof.
  unfold context_expansion. intros Hr Hne Hle.
  destruct (rounds_ fuel fuel _) as [e|x|] eqn:Er; simpl in Hr.
  - by rewrite (rounds_mono _ fuel' _ fuel' _ _ Er).
  - by rewrite (rounds_mono _ fuel' _ fuel' _ _ Er).
  - by subst.
Qed.

End EngineFacts.

(** ** The engine on concrete clusters *)

Lemma for_each_position_app model next prev thr fuel ts prf l1 l2 st :
  for_each_position model next prev thr fuel ts prf (l1 ++ l2) st
  = for_each_position model next prev thr fuel ts prf l1 st
    ≫= for_each_position model next prev thr fuel ts prf l2.
Proof.
  revert st. induction l1 as [|pos l1 IH]; intros st; simpl; [done|].
  destruct (process model next prev thr fuel ts prf pos st); simpl; [apply IH|done..].
Qed.

Lemma squeeze_merged :
  merge_candidates model_squeeze 2 seeds_squeeze = Ok cluster_squeeze.
Proof. by vm_compute. Qed.

Lemma squeeze_two_done_eq :
  for_each_position model_squeeze (doc_next doc_squeeze) (doc_prev doc_squeeze)
    default_threshold 1 0 None [0; 1]%nat squeeze_round_start = Done squeeze_two_done.
Proof. by vm_compute. Qed.

Lemma squeeze_not_skipped : skip_rules 2 squeeze_two_done = Ok None.
Proof. by vm_compute. Qed.

Lemma squeeze_state_eq :
  grow_and_select model_squeeze (doc_next doc_squeeze) (doc_prev doc_squeeze)
    default_threshold 0 2 squeeze_two_done = Ok squeeze_state.
Proof. by vm_compute. Qed.

Lemma squeeze_step :
  conflict_step default_threshold 0 2 squeeze_state = Ok (Continue squeeze_state).
Proof. by vm_compute. Qed.

(** C2. After [merge_candidates] the cluster of [seeds_squeeze] holds three
    candidates: the seeds at units 6 and 2 and the merged window 3-5. In round
    0 the first grows to 5-6, the second stays at 2, and the third selects the
    window 2-6, three of whose units are already claimed: no branch of the
    conflict loop applies, and the loop runs forever. Whatever the budget, the
    engine is still running when the budget ends. *)
Theorem expansion_never_returns :
  merge_candidates model_squeeze 2 seeds_squeeze = Ok cluster_squeeze
  ∧ ∀ fuel,
      context_expansion model_squeeze (doc_next doc_squeeze) (doc_prev doc_squeeze)
        default_threshold fuel cluster_squeeze = OutOfFuel.
Proof.
  split; [apply squeeze_merged|].
  intros [|fuel]; [reflexivity|].
  unfold context_expansion.
  assert (rounds model_squeeze (doc_next doc_squeeze) (doc_prev doc_squeeze)
            default_threshold (S fuel) (S fuel)
            (mkEngine cluster_squeeze 0 None []) = OutOfFuel) as ->; [|done].
  cbn [rounds].
  assert (round model_squeeze (doc_next doc_squeeze) (doc_prev doc_squeeze)
            default_threshold (S fuel) (mkEngine cluster_squeeze 0 None [])
          = OutOfFuel) as ->; [|done].
  unfold round. cbn [cluster round_timestamp prev_round].
  change (seq 0 (length cluster_squeeze.(candidates))) with ([0; 1] ++ [2])%nat.
  fold squeeze_round_start.
  rewrite for_each_position_app.
  rewrite (for_each_position_mono _ _ _ _ 1 (S fuel) _ _ _ _ _ squeeze_two_done_eq)
    by (done || lia).
  cbn [mbind run_bind for_each_position].
  assert (process model_squeeze (doc_next doc_squeeze) (doc_prev doc_squeeze)
            default_threshold (S fuel) 0 None 2 squeeze_two_done = OutOfFuel) as ->; [|done].
  unfold process. rewrite squeeze_not_skipped. cbn [lift mbind run_bind].
  rewrite squeeze_state_eq. cbn [lift mbind run_bind].
  by rewrite (while_true_spin _ _ squeeze_step).
Qed.

(** Two more runs. On a cluster without candidates the loop body still runs
    once: one (empty) snapshot is produced before the engine stops. *)
Lemma empty_cluster_runs_one_round model next prev thr fuel :
  context_expansion model next prev thr (S fuel) empty_cluster
  = Done (empty_cluster, [[]]).
Proof. reflexivity. Qed.

(** From the seeds of [cluster_raise] the second round ends in an exception:
    the candidate at unit 1 loses two one-sided conflicts in a row, the second
    [optimize] finds no state of the round, the selection stays [None], and
    the next pass of the conflict loop reads [candidate.context]. *)
Lemma expansion_raises_type_error fuel :
  (3 ≤ fuel)%nat →
  context_expansion model_raise (doc_next doc_overlap) (doc_prev doc_overlap)
    default_threshold fuel cluster_raise = Crashed TypeError.
Proof.
  intros Hfuel.
  assert (context_expansion model_raise (doc_next doc_overlap) (doc_prev doc_overlap)
            default_threshold 3 cluster_raise = Crashed TypeError) as Hrun
    by (vm_compute; reflexivity).
  pose proof (context_expansion_mono _ _ _ _ 3 fuel _ _ Hrun) as Hmono.
  apply Hmono; [intros [=]|exact Hfuel].
Qed.

(** C5. In [squeeze_state] the candidate at position 2 has selected the window
    2-6. Unit 2 is claimed by the candidate at position 1 and units 5 and 6 by
    the candidate at position 0, two different candidates of higher priority,
    and its score 11 is strictly higher than both rivals' scores 9 and 5. The
    pass of the conflict loop neither marks a rival nor moves ownership nor
    reverts the selection: it leaves the state as it is and asks for another
    pass, so the loop never ends. *)
Theorem two_sided_conflict_spins :
  (∃ candidate cur,
     squeeze_state.(cands) !! 2%nat = Some candidate
     ∧ context candidate = Ok cur
     ∧ List.filter (λ i, bool_decide (i ∈ squeeze_state.(seen_chains))) (unit_indices cur)
       = [2; 5; 6]
     ∧ squeeze_state.(current_round_forbids) !! 2 = Some 1%nat
     ∧ squeeze_state.(current_round_forbids) !! 5 = Some 0%nat
     ∧ squeeze_state.(current_round_forbids) !! 6 = Some 0%nat
     ∧ cand_score candidate = Ok 11%Q)
  ∧ (cand_at squeeze_state.(cands) 0 ≫= cand_score) = Ok 9%Q
  ∧ (cand_at squeeze_state.(cands) 1 ≫= cand_score) = Ok 5%Q
  ∧ squeeze_state.(marked_for_deletion) = [false; false; false]
  ∧ conflict_step default_threshold 0 2 squeeze_state = Ok (Continue squeeze_state)
  ∧ ∀ fuel, while_true (conflict_step default_threshold 0 2) fuel squeeze_state = OutOfFuel.
Proof.
  split.
  { eexists. eexists. split; [vm_compute; reflexivity|]. split; [vm_compute; reflexivity|].
    split_and!; by vm_compute. }
  split; [by vm_compute|]. split; [by vm_compute|]. split; [by vm_compute|].
  split; [apply squeeze_step|]. apply while_true_spin, squeeze_step.
Qed.

(** The branch of the conflict loop for exactly two contested units, in
    general: a candidate that beats both owners marks them and takes the two
    units; any other candidate has its selection set to the first state of the
    current round left in its history, and is frozen, not marked. *)
Lemma conflict_step_two_units thr ts pos st candidate cur f0 f1 owner1 owner2 other1 other2
    mine s1 s2 :
  st.(cands) !! pos = Some candidate →
  context candidate = Ok cur →
  List.filter (λ c, bool_decide (chain_index c ∈ st.(seen_chains))) cur.(chains) = [f0; f1] →
  st.(current_round_forbids) !! chain_index f0 = Some owner1 →
  st.(current_round_forbids) !! chain_index f1 = Some owner2 →
  st.(cands) !! owner1 = Some other1 → st.(cands) !! owner2 = Some other2 →
  cand_score candidate = Ok mine → cand_score other1 = Ok s1 → cand_score other2 = Ok s2 →
  ((s1 < mine)%Q → (s2 < mine)%Q →
   ∀ marked, setitem st.(marked_for_deletion) owner1 true ≫= (λ m, setitem m owner2 true)
             = Ok marked →
     conflict_step thr ts pos st
     = Ok (Break (set_forbids (<[chain_index f1 := pos]>
                                 (<[chain_index f0 := pos]> st.(current_round_forbids)))
                    (set_marked marked st))))
  ∧ (¬ ((s1 < mine)%Q ∧ (s2 < mine)%Q) →
     ∀ i, first_with_timestamp ts candidate.(history) = Ok i →
       conflict_step thr ts pos st
       = Ok (Break (set_cands
                      (<[pos := mkCandidate candidate.(chain) (Some (Z.of_nat i))
                                  candidate.(history) false]> st.(cands)) st))).
Proof.
  intros Hc Hcur Hf Ho1 Ho2 Hc1 Hc2 Hm Hs1 Hs2.
  unfold conflict_step, cand_at, dict_get.
  rewrite Hc. cbn [from_option mbind result_bind]. rewrite Hcur. cbn [mbind result_bind].
  rewrite Hf, Ho1. cbn [from_option mbind result_bind]. rewrite Hc1.
  cbn [from_option mbind result_bind]. rewrite Ho2. cbn [from_option mbind result_bind].
  rewrite Hc2. cbn [from_option mbind result_bind]. rewrite Hm. cbn [mbind result_bind].
  rewrite Hs1. cbn [mbind result_bind].
  split.
  - intros H1 H2. apply Qlt_bool_iff in H1, H2. rewrite H1, Hs2. cbn [mbind result_bind].
    rewrite H2.
    intros marked Hmarked.
    destruct (setitem st.(marked_for_deletion) owner1 true) as [m1|e];
      cbn [mbind result_bind] in *; [|done].
    destruct (setitem m1 owner2 true) as [m2|e]; cbn [mbind result_bind] in *; [|done].
    by injection Hmarked as ->.
  - intros Hnot i Hi.
    destruct (Qlt_bool s1 mine) eqn:E1.
    + rewrite Hs2. cbn [mbind result_bind].
      destruct (Qlt_bool s2 mine) eqn:E2.
      * apply Qlt_bool_iff in E1, E2. by destruct Hnot.
      * rewrite Hi. done.
    + cbn [mbind result_bind]. rewrite Hi. done.
Qed.

(** The final selections of the overlapping run, as unit indices. *)
Lemma overlap_run_result :
  ∃ cl snaps,
    context_expansion model_overlap (doc_next doc_overlap) (doc_prev doc_overlap)
      default_threshold 3 cluster_overlap = Done (cl, snaps)
    ∧ length snaps = 3%nat
    ∧ (λ c, (chain_index c.(chain), unit_indices <$> context c, c.(expandable)))
        <$> cl.(candidates)
      = [(5, Ok [3; 4; 5], false); (0, Ok [0; 1], false); (2, Ok [0; 1; 2], false)].
Proof. eexists. eexists. split; [vm_compute; reflexivity|]. split; vm_compute; reflexivity. Qed.

(** C1. From the seeds at units 0, 2 and 5 of [doc_overlap], with the default
    threshold, the engine converges after three rounds (with every budget of
    at least three passes it returns the same result), and two of the three
    surviving candidates, anchored at units 0 and 2, hold the units 0 and 1
    both: their selected states are 0-1 and 0-2. *)
Theorem expansion_leaves_overlap :
  ∃ cl snaps a b,
    (∀ fuel, (3 ≤ fuel)%nat →
       context_expansion model_overlap (doc_next doc_overlap) (doc_prev doc_overlap)
         default_threshold fuel cluster_overlap = Done (cl, snaps))
    ∧ length snaps = 3%nat
    ∧ cl.(candidates) !! 1%nat = Some a
    ∧ cl.(candidates) !! 2%nat = Some b
    ∧ (unit_indices <$> context a) = Ok [0; 1]
    ∧ (unit_indices <$> context b) = Ok [0; 1; 2]
    ∧ ∃ u, (∃ sa, context a = Ok sa ∧ u ∈ unit_indices sa)
           ∧ (∃ sb, context b = Ok sb ∧ u ∈ unit_indices sb).
Proof.
  destruct overlap_run_result as (cl & snaps & Hrun & Hlen & Hres).
  assert (Hall : ∀ fuel, (3 ≤ fuel)%nat →
            context_expansion model_overlap (doc_next doc_overlap) (doc_prev doc_overlap)
              default_threshold fuel cluster_overlap = Done (cl, snaps)).
  { intros fuel Hfuel.
    pose proof (context_expansion_mono _ _ _ _ 3 fuel _ _ Hrun) as Hmono.
    apply Hmono; [intros [=]|exact Hfuel]. }
  clear Hrun.
  destruct cl.(candidates) as [|c0 [|a [|b [|? ?]]]] eqn:Ecl; try discriminate Hres.
  injection Hres as _ _ _ _ Ha _ _ Hb _.
  exists cl, snaps, a, b.
  split; [exact Hall|]. split; [exact Hlen|]. rewrite Ecl.
  split; [reflexivity|]. split; [reflexivity|]. split; [exact Ha|]. split; [exact Hb|].
  exists 0.
  destruct (context a) as [sa|]; [|discriminate Ha].
  destruct (context b) as [sb|]; [|discriminate Hb].
  injection Ha as Ha. injection Hb as Hb.
  split; eexists; (split; [reflexivity|]).
  - rewrite Ha. by left.
  - rewrite Hb. by left.
Qed.

(** ** The skip rules *)

Lemma claim_all_spec pos (l : list SentenceChain) st :
  let st' := foldl (λ st c, claim pos (chain_index c) st) st l in
  st'.(cands) = st.(cands)
  ∧ st'.(marked_for_deletion) = st.(marked_for_deletion)
  ∧ st'.(expanded) = st.(expanded)
  ∧ (∀ i, i ∈ st'.(seen_chains) ↔ i ∈ chain_index <$> l ∨ i ∈ st.(seen_chains))
  ∧ (∀ i, i ∈ chain_index <$> l → st'.(current_round_forbids) !! i = Some pos)
  ∧ (∀ i, i ∉ chain_index <$> l →
       st'.(current_round_forbids) !! i = st.(current_round_forbids) !! i).
Proof.
  revert st. induction l as [|c l IH]; intros st; cbn [foldl].
  - split_and!; try done.
    + intros i. rewrite fmap_nil. split; [by right|]. by intros [?%elem_of_nil|].
    + intros i ?%elem_of_nil. done.
  - destruct (IH (claim pos (chain_index c) st)) as (H1 & H2 & H3 & H4 & H5 & H6).
    cbv zeta. rewrite H1, H2, H3. split_and!; try done.
    + intros i. rewrite H4, fmap_cons, elem_of_cons. cbn [claim seen_chains].
      rewrite elem_of_union, elem_of_singleton. tauto.
    + intros i. rewrite fmap_cons, elem_of_cons. intros Hi.
      destruct (decide (i ∈ chain_index <$> l)) as [Hin|Hnin]; [by apply H5|].
      rewrite H6 by done. destruct Hi as [->|]; [|done].
      cbn [claim current_round_forbids]. apply lookup_insert_eq.
    + intros i. rewrite fmap_cons, elem_of_cons. intros Hi.
      rewrite H6 by tauto. cbn [claim current_round_forbids].
      apply lookup_insert_ne. intros Heq. apply Hi. by left.
Qed.

Section SkipRules.
Variable model : string → Q.
Variables next prev : SentenceChain → Z → list SentenceChain.
Variable threshold : Q.

(** C4 (as amended). A candidate already marked for deletion is skipped. A
    candidate that is not marked and not expandable claims every unit of its
    selected state for the round (taking over units already claimed) and is
    skipped, whether or not its anchor was claimed. A candidate that is not
    marked, is expandable and whose anchor is already claimed is marked for
    deletion, and nothing else changes. *)
Theorem skip_rules_in_order fuel ts prf pos st :
  (st.(marked_for_deletion) !! pos = Some true →
   process model next prev threshold fuel ts prf pos st = Done st)
  ∧ (∀ candidate cur,
       st.(marked_for_deletion) !! pos = Some false →
       st.(cands) !! pos = Some candidate →
       candidate.(expandable) = false →
       context candidate = Ok cur →
       ∃ st', process model next prev threshold fuel ts prf pos st = Done st'
         ∧ st'.(cands) = st.(cands)
         ∧ st'.(marked_for_deletion) = st.(marked_for_deletion)
         ∧ st'.(expanded) = st.(expanded)
         ∧ (∀ i, i ∈ st'.(seen_chains) ↔ i ∈ unit_indices cur ∨ i ∈ st.(seen_chains))
         ∧ (∀ i, i ∈ unit_indices cur → st'.(current_round_forbids) !! i = Some pos)
         ∧ (∀ i, i ∉ unit_indices cur →
              st'.(current_round_forbids) !! i = st.(current_round_forbids) !! i))
  ∧ (∀ candidate,
       st.(marked_for_deletion) !! pos = Some false →
       st.(cands) !! pos = Some candidate →
       candidate.(expandable) = true →
       chain_index candidate.(chain) ∈ st.(seen_chains) →
       process model next prev threshold fuel ts prf pos st
       = Done (set_marked (<[pos := true]> st.(marked_for_deletion)) st)).
Proof.
  unfold process, skip_rules, cand_at. split_and!.
  - intros ->. done.
  - intros candidate cur -> -> He Hc. cbn. rewrite He, Hc. cbn.
    eexists. split; [done|]. apply claim_all_spec.
  - intros candidate Hm -> He Ha. rewrite Hm. cbn. rewrite He. cbn.
    rewrite bool_decide_eq_true_2 by done.
    unfold setitem. apply lookup_lt_Some in Hm. apply Nat.ltb_lt in Hm. rewrite Hm. done.
Qed.

End SkipRules.

(** A run of the theorem: in [frozen_start] the first candidate is not
    expandable and claims its units 4 and 5. *)
Lemma skip_rules_in_order_witness :
  ∃ st', process model_def (doc_next doc_def) (doc_prev doc_def) default_threshold
           1 0 None 0 frozen_start = Done st'
         ∧ st'.(cands) = frozen_start.(cands)
         ∧ st'.(current_round_forbids) !! 5 = Some 0%nat.
Proof.
  destruct (proj1 (proj2 (skip_rules_in_order model_def (doc_next doc_def) (doc_prev doc_def)
                            default_threshold 1 0 None 0 frozen_start))
              (mkCandidate (mkChain 4 "d ") (Some 0)
                 [mkState [mkChain 4 "d "; mkChain 5 "e "] 3 ["right 1"%string] 0 0] false)
              (mkState [mkChain 4 "d "; mkChain 5 "e "] 3 ["right 1"%string] 0 0)
              eq_refl eq_refl eq_refl eq_refl)
    as (st' & Hp & Hc & _ & _ & _ & Hf & _).
  exists st'. split; [exact Hp|]. split; [exact Hc|].
  apply Hf. cbn. set_solver.
Defined.

(** C4 (as stated) fails for a candidate that is not expandable. In
    [frozen_start] the first candidate claims the units 4 and 5; the anchor of
    the second candidate, unit 5, is then claimed by a candidate of higher
    priority, yet the second candidate is not marked for deletion: it takes
    unit 5 over and claims unit 6. *)
Lemma frozen_candidate_not_evicted :
  ∃ st1 st2 second,
    process model_def (doc_next doc_def) (doc_prev doc_def) default_threshold
      1 0 None 0 frozen_start = Done st1
    ∧ st1.(cands) !! 1%nat = Some second
    ∧ second.(expandable) = false
    ∧ chain_index second.(chain) ∈ st1.(seen_chains)
    ∧ st1.(current_round_forbids) !! chain_index second.(chain) = Some 0%nat
    ∧ process model_def (doc_next doc_def) (doc_prev doc_def) default_threshold
        1 0 None 1 st1 = Done st2
    ∧ st2.(marked_for_deletion) !! 1%nat = Some false
    ∧ st2.(current_round_forbids) !! 5 = Some 1%nat
    ∧ st2.(current_round_forbids) !! 6 = Some 1%nat.
Proof.
  eexists. eexists. eexists.
  split; [vm_compute; reflexivity|]. split; [vm_compute; reflexivity|].
  split; [reflexivity|]. split; [by vm_compute|]. split; [by vm_compute|].
  split; [vm_compute; reflexivity|]. split_and!; by vm_compute.
Qed.

(** ** Growth on the object store *)

Lemma heap_extends_refl h : heap_extends h h.
Proof. split; [lia|]. by intros. Qed.

Lemma heap_extends_trans h1 h2 h3 :
  heap_extends h1 h2 → heap_extends h2 h3 → heap_extends h1 h3.
Proof.
  intros [Hn1 H1] [Hn2 H2]. split; [lia|]. intros l Hl.
  destruct (H1 l Hl) as [<- <-]. apply H2. lia.
Qed.

Lemma from_state_obj_fresh src action h :
  fresh_in h (from_state_obj src action h).1 (from_state_obj src action h).2.
Proof.
  unfold from_state_obj, alloc_list, alloc_state, fresh_in. simpl. split_and!.
  - split; simpl; [lia|]. intros l Hl.
    rewrite !fn_lookup_insert_ne by lia. done.
  - lia.
  - rewrite fn_lookup_insert. simpl. lia.
Qed.

Lemma update_state_fresh h0 h new f :
  fresh_in h0 h new → obj_chains (f (h.(state_at) new)) = obj_chains (h.(state_at) new) →
  fresh_in h0 (update_state new f h) new.
Proof.
  intros ([Hn Hext] & Hnew & Hch) Hf. unfold fresh_in, update_state. simpl. split_and!.
  - split; simpl; [done|]. intros l Hl. rewrite fn_lookup_insert_ne by lia. by apply Hext.
  - done.
  - rewrite fn_lookup_insert. by rewrite Hf.
Qed.

Section StoreFacts.
Variable model : string → Q.
Variables next prev : SentenceChain → Z → list SentenceChain.

Lemma extend_right_obj_fresh h0 h new n :
  fresh_in h0 h new → fresh_in h0 (extend_right_obj next n new h).1 new.
Proof.
  intros Hf. unfold extend_right_obj. destruct (getitem _ _); simpl; [|done].
  destruct Hf as ([Hn Hext] & Hnew & Hch). unfold fresh_in, update_list. simpl.
  split_and!; [|done..]. split; simpl; [done|]. intros l Hl.
  rewrite fn_lookup_insert_ne by lia. by apply Hext.
Qed.

Lemma extend_left_obj_fresh h0 h new n :
  fresh_in h0 h new → fresh_in h0 (extend_left_obj prev n new h).1 new.
Proof.
  intros Hf. unfold extend_left_obj. destruct (getitem _ _); simpl; [|done].
  destruct Hf as ([Hn Hext] & Hnew & Hch). unfold fresh_in. simpl. split_and!.
  - split; simpl; [lia|]. intros l Hl.
    rewrite !fn_lookup_insert_ne by lia. by apply Hext.
  - done.
  - rewrite fn_lookup_insert. simpl. lia.
Qed.

Lemma extend_obj_in_fresh d h0 h new n :
  fresh_in h0 h new → fresh_in h0 (extend_obj_in next prev d n new h).1 new.
Proof.
  intros Hf. destruct d; simpl.
  - by apply extend_left_obj_fresh.
  - by apply extend_right_obj_fresh.
  - unfold extend_both_obj.
    pose proof (extend_right_obj_fresh h0 h new n Hf) as Hr.
    destruct (extend_right_obj next n new h) as [h1 [e|]]; [done|].
    by apply extend_left_obj_fresh.
Qed.

(** What a growth method does to the store and to the candidate object once
    its guard is passed and the branch point is read. *)
Lemma grow_obj_grows d n bf ts h c parent :
  0 < n → c.(obj_expandable) = true →
  getitem_opt c.(obj_history) (obj_branch_point bf c) = Ok parent →
  let r := grow_obj model next prev d n bf ts (h, c) in
  let new := S h.(next_loc) in
  fresh_in h r.1.1 new
  ∧ r.1.2 = mkCandidateObj c.(obj_chain) c.(obj_selected_state)
              (c.(obj_history) ++ [new]) c.(obj_expandable).
Proof.
  intros Hn He Hp. destruct c as [ch sel hist ex]. cbn [obj_expandable obj_history] in *.
  subst ex. unfold grow_obj. apply Z.leb_gt in Hn.
  cbn [obj_expandable obj_history obj_chain obj_selected_state].
  rewrite Hn, Hp. cbn [orb negb].
  pose proof (from_state_obj_fresh parent (Some (tag_of d +:+ " " +:+ str_of_Z n)) h) as Hf.
  destruct (from_state_obj parent _ h) as [h1 new] eqn:Efs.
  assert (new = S h.(next_loc)) as -> by (by injection Efs as _ <-).
  cbn [fst snd] in Hf.
  apply (update_state_fresh _ _ _ (with_obj_timestamp ts)) in Hf; [|done].
  apply (extend_obj_in_fresh d _ _ _ n) in Hf.
  destruct (extend_obj_in next prev d n (S h.(next_loc)) _) as [h2 [e|]]; cbn [fst snd] in *.
  { by split. }
  set (h3 := update_state _ (with_obj_score _) h2).
  assert (fresh_in h h3 (S h.(next_loc))) as Hf3 by (by apply update_state_fresh).
  destruct (0 <? _)%nat; [|by split].
  destruct (getitem_opt (_ ++ _) _); cbn [fst snd]; [|by split].
  split; [|done]. by apply update_state_fresh.
Qed.

(** C6. A growth method called with [n <= 0] or on a candidate that is not
    expandable leaves the store and the candidate object as they are.
    Otherwise every object that existed before the call (every state object
    and every list object, the parent and its chain list among them) is
    unchanged, the fields of the candidate other than the history are
    unchanged, and, the branch point being readable, exactly one reference is
    appended to the history, to a new state object whose chain list is a new
    list object; when the branch point cannot be read the method raises and
    nothing changes. *)
Theorem growth_appends_without_mutation d n bf ts h c :
  let r := grow_obj model next prev d n bf ts (h, c) in
  (n ≤ 0 ∨ c.(obj_expandable) = false → r = ((h, c), None))
  ∧ (0 < n → c.(obj_expandable) = true →
     heap_extends h r.1.1
     ∧ (heap_closed h c →
        ∀ l, l ∈ c.(obj_history) → view_state r.1.1 l = view_state h l)
     ∧ r.1.2.(obj_chain) = c.(obj_chain)
     ∧ r.1.2.(obj_selected_state) = c.(obj_selected_state)
     ∧ r.1.2.(obj_expandable) = c.(obj_expandable)
     ∧ (∀ parent,
          getitem_opt c.(obj_history) (obj_branch_point bf c) = Ok parent →
          ∃ new, r.1.2.(obj_history) = c.(obj_history) ++ [new]
                 ∧ (h.(next_loc) ≤ new)%nat
                 ∧ (h.(next_loc) ≤ (r.1.1.(state_at) new).(obj_chains))%nat)
     ∧ (∀ e,
          getitem_opt c.(obj_history) (obj_branch_point bf c) = Raise e →
          r = ((h, c), Some e))).
Proof.
  cbv zeta. split.
  - intros H. unfold grow_obj. destruct H as [H| ->].
    + apply Z.leb_le in H. by rewrite H.
    + by rewrite orb_true_r.
  - intros Hn He.
    destruct (getitem_opt c.(obj_history) (obj_branch_point bf c)) as [parent|e] eqn:Ep.
    + destruct (grow_obj_grows d n bf ts h c parent Hn He Ep) as [(Hext & Hnew & Hch) Hc].
      rewrite Hc. cbn [obj_chain obj_selected_state obj_expandable obj_history].
      split; [exact Hext|]. split.
      { intros Hclosed l Hl. destruct (Hclosed l Hl) as [Hl1 Hl2].
        destruct Hext as [_ Hext]. unfold view_state.
        destruct (Hext l Hl1) as [-> _]. by destruct (Hext _ Hl2) as [_ ->]. }
      split; [done|]. split; [done|]. split; [done|]. split; [|done].
      intros p _. by exists (S h.(next_loc)).
    + assert (grow_obj model next prev d n bf ts (h, c) = ((h, c), Some e)) as ->.
      { unfold grow_obj. apply Z.leb_gt in Hn. by rewrite Hn, He, Ep. }
      cbn [fst snd]. split; [apply heap_extends_refl|]. split; [done|].
      split; [done|]. split; [done|]. split; [done|]. split; [done|].
      by intros e' [= <-].
Qed.

End StoreFacts.

(** A run of the theorem: on [seed_heap] the seed grows to the right; nothing
    that existed changes and one reference is appended. *)
Lemma growth_appends_without_mutation_witness :
  let r := grow_obj model_def (doc_next doc_def) (doc_prev doc_def) Right 1 None 0
             (seed_heap, seed_obj) in
  heap_extends seed_heap r.1.1
  ∧ r.1.2.(obj_history) = [1; 3]%nat
  ∧ view_state r.1.1 1 = mkState [mkChain 4 "d "] 0 [] 0 0
  ∧ view_state r.1.1 3
    = mkState [mkChain 4 "d "; mkChain 5 "e "] 1 ["right 1"%string] 0 (500 # 1000).
Proof.
  cbv zeta.
  destruct (proj2 (growth_appends_without_mutation model_def (doc_next doc_def)
                     (doc_prev doc_def) Right 1 None 0 seed_heap seed_obj))
    as (Hext & _); [lia|reflexivity|].
  split; [exact Hext|]. split; [reflexivity|]. split; reflexivity.
Defined.

(** *** The object store refines the value model *)

Lemma norm_index_fmap_length {A B} (f : A → B) (l : list A) i :
  norm_index (length (f <$> l)) i = norm_index (length l) i.
Proof. by rewrite length_fmap. Qed.

Lemma getitem_opt_fmap {A B} (f : A → B) (l : list A) sel :
  getitem_opt (f <$> l) sel = f <$> getitem_opt l sel.
Proof.
  destruct sel as [i|]; [|done]. unfold getitem_opt, getitem.
  rewrite length_fmap. destruct (norm_index (length l) i) as [k|e]; [|done].
  cbn. rewrite list_lookup_fmap. by destruct (l !! k).
Qed.

Lemma view_state_extends h h' c l :
  heap_extends h h' → heap_closed h c → l ∈ c.(obj_history) →
  view_state h' l = view_state h l.
Proof.
  intros [_ Hext] Hclosed Hl. destruct (Hclosed l Hl) as [Hl1 Hl2].
  unfold view_state. destruct (Hext l Hl1) as [-> _]. by destruct (Hext _ Hl2) as [_ ->].
Qed.

Lemma view_history_extends h h' c :
  heap_extends h h' → heap_closed h c →
  view_state h' <$> c.(obj_history) = view_state h <$> c.(obj_history).
Proof.
  intros Hext Hclosed. apply list_fmap_ext. intros i l Hl.
  eapply view_state_extends; [done..|]. by eapply list_elem_of_lookup_2.
Qed.

Lemma view_state_update h new f :
  view_state (update_state new f h) new
  = let s := f (h.(state_at) new) in
    mkState (h.(list_at) s.(obj_chains)) s.(obj_score) s.(obj_actions)
            s.(obj_timestamp) s.(obj_improvement_score).
Proof. unfold view_state, update_state. simpl. by rewrite fn_lookup_insert. Qed.

Lemma view_state_timestamp h new ts :
  view_state (update_state new (with_obj_timestamp ts) h) new
  = set_timestamp ts (view_state h new).
Proof. by rewrite view_state_update. Qed.

Lemma view_state_score h new v :
  view_state (update_state new (with_obj_score v) h) new = set_score v (view_state h new).
Proof. by rewrite view_state_update. Qed.

Lemma view_state_improvement_score h new v :
  view_state (update_state new (with_obj_improvement_score v) h) new
  = set_improvement_score v (view_state h new).
Proof. by rewrite view_state_update. Qed.

Lemma view_state_from_state_obj src action h :
  view_state (from_state_obj src action h).1 (from_state_obj src action h).2
  = from_state (view_state h src) action.
Proof.
  unfold from_state_obj, alloc_list, alloc_state, view_state, from_state. cbn.
  rewrite (fn_lookup_insert (state_at h)). cbn.
  by rewrite (fn_lookup_insert (list_at h)).
Qed.

Section Refinement.
Variable model : string → Q.
Variables next prev : SentenceChain → Z → list SentenceChain.

(** Extending the chains of the state object [new] has the effect that the
    value-level extension has on the state it denotes. *)
Lemma extend_obj_in_view d n new h :
  match extend_in next prev d n (view_state h new).(chains) with
  | Ok cs =>
      ∃ h', extend_obj_in next prev d n new h = (h', None)
            ∧ view_state h' new = set_chains cs (view_state h new)
  | Raise e => ∃ h', extend_obj_in next prev d n new h = (h', Some e)
  end.
Proof.
  assert (Hright : ∀ h,
    match extend_right next n (view_state h new).(chains) with
    | Ok cs =>
        ∃ h', extend_right_obj next n new h = (h', None)
              ∧ view_state h' new = set_chains cs (view_state h new)
    | Raise e => ∃ h', extend_right_obj next n new h = (h', Some e)
    end).
  { intros h0. unfold extend_right, extend_right_obj, view_state. simpl.
    destruct (getitem _ (-1)) as [last|e]; simpl; [|by eauto].
    eexists. split; [done|]. unfold set_chains. simpl. by rewrite fn_lookup_insert. }
  assert (Hleft : ∀ h,
    match extend_left prev n (view_state h new).(chains) with
    | Ok cs =>
        ∃ h', extend_left_obj prev n new h = (h', None)
              ∧ view_state h' new = set_chains cs (view_state h new)
    | Raise e => ∃ h', extend_left_obj prev n new h = (h', Some e)
    end).
  { intros h0. unfold extend_left, extend_left_obj, view_state. simpl.
    destruct (getitem _ 0) as [first|e]; simpl; [|by eauto].
    eexists. split; [done|]. unfold set_chains. simpl.
    rewrite (fn_lookup_insert (state_at h0) new). simpl.
    by rewrite (fn_lookup_insert (list_at h0)). }
  destruct d; cbn [extend_in extend_obj_in]; [apply Hleft|apply Hright|].
  unfold extend_both, extend_both_obj. specialize (Hright h).
  remember (view_state h new).(chains) as cs0 eqn:Ecs0.
  destruct (extend_right next n cs0) as [cs1|e]; cbn [mbind result_bind].
  - destruct Hright as (h1 & -> & Hv1). specialize (Hleft h1).
    rewrite Hv1 in Hleft. cbn [chains set_chains] in Hleft.
    destruct (extend_left prev n cs1) as [cs2|e]; [|exact Hleft].
    destruct Hleft as (h2 & -> & Hv2). exists h2. split; [done|]. by rewrite Hv2.
  - destruct Hright as (h1 & ->). eauto.
Qed.

(** A growth method on the store computes what the value-level method
    computes on the candidate the store denotes, and raises when it raises. *)
Lemma grow_obj_refines d n bf ts h c :
  heap_closed h c →
  let r := grow_obj model next prev d n bf ts (h, c) in
  match r.2 with
  | None => grow_in model next prev d n bf ts (view h c) = Ok (view r.1.1 r.1.2)
  | Some e => grow_in model next prev d n bf ts (view h c) = Raise e
  end.
Proof.
  intros Hclosed. cbv zeta. rewrite grow_in_unfold. unfold grow, grow_obj.
  change (expandable (view h c)) with (obj_expandable c).
  destruct ((n <=? 0) || negb (obj_expandable c)) eqn:Eguard; [done|].
  assert (branch_point bf (view h c) = obj_branch_point bf c) as ->.
  { unfold branch_point, obj_branch_point, view. simpl. by rewrite length_fmap. }
  change (history (view h c)) with (view_state h <$> obj_history c).
  rewrite getitem_opt_fmap.
  destruct (getitem_opt (obj_history c) (obj_branch_point bf c)) as [parent|e] eqn:Ep;
    [|done].
  cbn [fmap result_fmap mbind result_bind].
  set (tag := tag_of d +:+ " " +:+ str_of_Z n).
  pose proof (from_state_obj_fresh parent (Some tag) h) as Hf.
  pose proof (view_state_from_state_obj parent (Some tag) h) as Hv0.
  destruct (from_state_obj parent (Some tag) h) as [h1 new]. cbn [fst snd] in Hf, Hv0.
  set (h1' := update_state new (with_obj_timestamp ts) h1).
  assert (fresh_in h h1' new) as Hf1 by (by apply update_state_fresh).
  rewrite <- Hv0, <- (view_state_timestamp h1 new ts). fold h1'.
  pose proof (extend_obj_in_view d n new h1') as Hx.
  pose proof (extend_obj_in_fresh next prev d h h1' new n Hf1) as Hf2.
  destruct (extend_obj_in next prev d n new h1') as [h2 o]. cbn [fst snd] in Hf2.
  destruct (extend_in next prev d n (chains (view_state h1' new))) as [cs|e];
    cbn [mbind result_bind].
  2:{ destruct Hx as (h2' & [= -> ->]). done. }
  destruct Hx as (h2' & [= -> ->] & Hv2). rename h2' into h2.
  rewrite <- Hv2, <- (view_state_score h2 new).
  change (chains (view_state h2 new)) with (list_at h2 (obj_chains (state_at h2 new))).
  set (h3 := update_state new (with_obj_score _) h2).
  assert (fresh_in h h3 new) as Hf3 by (by apply update_state_fresh).
  assert (Hhist : ∀ h', fresh_in h h' new →
            (view_state h <$> obj_history c) ++ [view_state h' new]
            = view_state h' <$> (obj_history c ++ [new])).
  { intros h' [Hext _]. rewrite fmap_app. f_equal. symmetry. by apply view_history_extends. }
  destruct (0 <? word_count (state_text (view_state h3 new)))%nat.
  - rewrite (Hhist h3 Hf3), getitem_opt_fmap. cbn [obj_history].
    destruct (getitem_opt (obj_history c ++ [new]) _) as [base|e]; [|done].
    cbn [fmap result_fmap mbind result_bind snd fst].
    rewrite <- (view_state_improvement_score h3 new).
    change (score (view_state h3 new)) with (obj_score (state_at h3 new)).
    change (score (view_state h3 base)) with (obj_score (state_at h3 base)).
    set (h4 := update_state new (with_obj_improvement_score _) h3).
    assert (fresh_in h h4 new) as Hf4 by (by apply update_state_fresh).
    by rewrite (Hhist h4 Hf4).
  - cbn [snd fst]. by rewrite (Hhist h3 Hf3).
Qed.

End Refinement.

(** * Further properties of the code

    ** [SummaryCandidate]: selection, growth and pruning *)

Lemma touches_false cs s :
  touches cs s = false ↔ ∀ ch, ch ∈ chains s → chain_index ch ∉ cs.
Proof.
  unfold touches. split.
  - intros H ch Hch Hin.
    assert (existsb (λ it, bool_decide (chain_index it ∈ cs)) (chains s) = true); [|congruence].
    apply existsb_exists. exists ch. split; [by apply list_elem_of_In|].
    by apply bool_decide_eq_true.
  - intros H. destruct (existsb _ _) eqn:E; [|done].
    apply existsb_exists in E as (ch & Hch%list_elem_of_In & Hin%bool_decide_eq_true).
    by destruct (H ch Hch).
Qed.

Lemma optimize_history_lookup stop ts cons thr c c' r n old :
  optimize stop ts cons thr c = Ok (c', r) → c.(history) !! n = Some old →
  ∃ new, c'.(history) !! n = Some new ∧ same_window new old.
Proof.
  intros (h & Hh & Hmax)%optimize_inv Hn.
  assert (history c' = h) as ->.
  { destruct (py_max _ _); by destruct Hmax as [_ ->]. }
  destruct (selected_state c) as [i|].
  - apply setattr_at_Ok in Hh as (k & _ & ->).
    destruct (decide (k = n)) as [->|Hne].
    + exists (set_improvement_score thr old). split; [|done].
      by rewrite list_lookup_alter_eq, Hn.
    + exists old. split; [|done]. by rewrite list_lookup_alter_ne.
  - subst h. by exists old.
Qed.

(** X1. When [optimize] returns an index, the candidate's context is the
    state at that index; it is the old state at that index up to its density,
    it carries the requested timestamp, and none of its units is listed in
    the constraints. [optimize] never makes a candidate expandable again. *)
Theorem optimize_respects_filters stop ts cons thr c c' k :
  optimize stop ts cons thr c = Ok (c', Some k) →
  ∃ n old new,
    k = Z.of_nat n ∧ c.(history) !! n = Some old ∧ context c' = Ok new
    ∧ same_window new old
    ∧ (∀ t, ts = Some t → timestamp new = t)
    ∧ (∀ cs ch, cons = Some cs → ch ∈ chains new → chain_index ch ∉ cs)
    ∧ (expandable c' = true → expandable c = true).
Proof.
  intros H. pose proof H as (h & Hh & Hmax)%optimize_inv.
  destruct (py_max (density_at h) (optimize_pool ts cons c.(history))) as [n|] eqn:Em;
    [|by destruct Hmax].
  destruct Hmax as [[= ->] Hc'].
  apply py_max_first in Em as (l1 & l2 & Hpool & _).
  assert (n ∈ optimize_pool ts cons c.(history)) as Hn.
  { rewrite Hpool. apply elem_of_app. right. by left. }
  apply elem_of_optimize_pool in Hn as (old & Hold & Hts & Hcons).
  destruct (optimize_history_lookup _ _ _ _ _ _ _ _ _ H Hold) as (new & Hnew & Hsame).
  exists n, old, new. split; [done|]. split; [done|].
  split.
  { apply context_Ok. exists n. split; [|done].
    exists (Z.of_nat n). split; [by subst c'|].
    apply norm_index_nat. by eapply lookup_lt_Some. }
  split; [done|]. destruct Hsame as (Hch & _ & _ & Ht).
  split; [intros t Et; rewrite Ht; by apply Hts|].
  split.
  - intros cs ch Ecs Hin. rewrite Hch in Hin.
    by apply (proj1 (touches_false cs old) (Hcons cs Ecs)).
  - subst c'. simpl. by destruct (stop && _).
Qed.

(** A run of the theorem: restricted to timestamp 0 and kept away from unit 5,
    [tie_candidate] can only select its first state, the window of unit 4. *)
Lemma optimize_respects_filters_witness :
  ∃ c' new, optimize false (Some 0) (Some [5]) (1 # 100) tie_candidate = Ok (c', Some 0)
            ∧ context c' = Ok new ∧ unit_indices new = [4].
Proof.
  eexists.
  destruct (optimize_respects_filters false (Some 0) (Some [5]) (1 # 100) tie_candidate
              (mkCandidate (mkChain 4 "d ") (Some 0)
                 [ mkState [mkChain 4 "d "] 3 [] 0 (1 # 100);
                   mkState [mkChain 4 "d "; mkChain 5 "e "] 3 ["right 1"%string] 0 (1 # 100) ]
                 true) 0)
    as (n & old & new & Hk & Hold & Hnew & Hsame & _); [vm_compute; reflexivity|].
  exists new. split; [vm_compute; reflexivity|]. split; [exact Hnew|].
  destruct n as [|n]; [|lia]. injection Hold as <-.
  destruct Hsame as (Hch & _). unfold unit_indices. rewrite Hch. reflexivity.
Defined.

Section GrowthShape.
Variable model : string → Q.
Variables next prev : SentenceChain → Z → list SentenceChain.

(** What a growth method does to the candidate, in one statement. *)
Lemma grow_in_cases d n bf ts c c' :
  grow_in model next prev d n bf ts c = Ok c' →
  (c' = c ∧ (n ≤ 0 ∨ c.(expandable) = false))
  ∨ (0 < n ∧ c.(expandable) = true
     ∧ ∃ parent new,
         getitem_opt c.(history) (branch_point bf c) = Ok parent
         ∧ c' = set_history (c.(history) ++ [new]) c
         ∧ extend_in next prev d n parent.(chains) = Ok new.(chains)
         ∧ score new = predict_joined model new.(chains)
         ∧ timestamp new = ts
         ∧ actions new = actions parent ++ [tag_of d +:+ " " +:+ str_of_Z n]).
Proof.
  intros H. destruct (decide (n ≤ 0)) as [Hn|Hn].
  { left. rewrite grow_in_noop in H by auto. injection H as <-. auto. }
  destruct (expandable c) eqn:He.
  2:{ left. rewrite grow_in_noop in H by auto. injection H as <-. auto. }
  right. split; [lia|]. split; [done|].
  apply grow_in_inv in H as (parent & cs & Hp & Hx & Hrest); [|lia|done].
  exists parent. cbv zeta in Hrest.
  destruct (0 <? word_count _)%nat.
  - destruct Hrest as (base & _ & ->). eexists. split; [done|]. split; [done|]. by split_and!.
  - subst c'. eexists. split; [done|]. split; [done|]. by split_and!.
Qed.

Lemma resolves_app {A} (l : list A) x sel k :
  resolves l sel k → ∃ k', resolves (l ++ [x]) sel k'.
Proof.
  intros (i & -> & Hk). apply norm_index_Ok in Hk as [[Hr ->]|[Hr ->]].
  - exists (Z.to_nat i), i. split; [done|]. apply norm_index_Ok. left.
    rewrite length_app. simpl. lia.
  - exists (Z.to_nat (Z.of_nat (length (l ++ [x])) + i)), i. split; [done|].
    apply norm_index_Ok. right. rewrite length_app. simpl. lia.
Qed.

(** X2. The selection of a candidate stays an index of its history under
    [optimize], under the three growth methods and under [clear_timestamp]. *)
Theorem selection_stays_valid c :
  selection_valid c →
  (∀ stop ts cons thr c' r, optimize stop ts cons thr c = Ok (c', r) → selection_valid c')
  ∧ (∀ d n bf ts c', grow_in model next prev d n bf ts c = Ok c' → selection_valid c')
  ∧ (∀ ts c', clear_timestamp ts c = Ok c' → selection_valid c').
Proof.
  intros Hv. split; [|split].
  - intros stop ts cons thr c' r H. by eapply optimize_keeps_selection_valid.
  - intros d n bf ts c' [[-> _]|(_ & _ & parent & new & _ & -> & _)]%grow_in_cases; [done|].
    destruct Hv as (k & Hk). by apply (resolves_app _ new) in Hk.
  - intros ts c' H. by eapply clear_timestamp_keeps_selection_valid.
Qed.

(** X3. A growth method leaves the anchor, the selection and the expandable
    flag as they are and at most appends one state, stamped with the given
    timestamp. So a candidate whose selection is a non-negative index keeps
    its context, while a candidate that selects "the latest state" ([-1]) has
    the new state as its context after the call. *)
Theorem growth_keeps_selection d n bf ts c c' :
  grow_in model next prev d n bf ts c = Ok c' →
  chain c' = chain c ∧ selected_state c' = selected_state c
  ∧ expandable c' = expandable c
  ∧ (history c' = history c
     ∨ ∃ new, history c' = history c ++ [new] ∧ timestamp new = ts)
  ∧ (∀ i cur, selected_state c = Some i → 0 ≤ i → context c = Ok cur →
       context c' = Ok cur)
  ∧ (0 < n → expandable c = true → selected_state c = Some (-1) →
     ∃ new, history c' = history c ++ [new] ∧ context c' = Ok new).
Proof.
  intros [[-> Hno]|(Hn & He & parent & new & _ & -> & _ & _ & Hts & _)]%grow_in_cases.
  - split_and!; try done; [by left|]. intros ? ?. destruct Hno; [lia|congruence].
  - split_and!; try done.
    + right. by exists new.
    + intros i cur Hi H0 Hc. unfold context in *. simpl. rewrite Hi in Hc |- *.
      by apply getitem_opt_app_nonneg.
    + intros _ _ Hs. exists new. split; [done|]. unfold context. simpl. rewrite Hs.
      apply getitem_opt_Ok. exists (length (history c)). split.
      * exists (-1). split; [done|]. rewrite norm_index_last; rewrite length_app; simpl; [|lia].
        f_equal. lia.
      * by rewrite lookup_app_r, Nat.sub_diag.
Qed.

Lemma getitem_first {A} (l : list A) : getitem l 0 = from_option Ok (Raise IndexError) (head l).
Proof. by destruct l. Qed.

Lemma getitem_last {A} (l : list A) :
  getitem l (-1) = from_option Ok (Raise IndexError) (last l).
Proof.
  destruct (decide (l = [])) as [->|Hne]; [done|].
  assert (0 < length l)%nat by (destruct l; simpl; [done|lia]).
  unfold getitem. rewrite norm_index_last by done. simpl.
  by rewrite last_lookup, Nat.sub_1_r.
Qed.

(** The window a growth method builds around the parent's window. *)
Lemma extend_in_window d n cs :
  match head cs, last cs with
  | Some f, Some l =>
      extend_in next prev d n cs
      = Ok (match d with Right => [] | _ => prev f n end
            ++ cs ++ match d with Left => [] | _ => next l n end)
  | _, _ => extend_in next prev d n cs = Raise IndexError
  end.
Proof.
  destruct cs as [|f cs]; [by destruct d|].
  change (head (f :: cs)) with (Some f).
  destruct (last (f :: cs)) as [l|] eqn:El; [|by rewrite last_cons in El; destruct (last cs)].
  destruct d; simpl; unfold extend_both, extend_left, extend_right;
    rewrite ?getitem_last, ?El; simpl; by rewrite ?app_nil_r.
Qed.

(** X4. A growth method that grows builds its state from the parent state at
    the branch point: the parent's window with up to [n] neighbours put in
    front of its first unit (left, bidirectional) and after its last unit
    (right, bidirectional), the parent's actions followed by the action of
    this call, and a score taken on the joined text of the new window. A
    parent without units makes the call raise [IndexError]. *)
Theorem growth_window d n bf ts c parent :
  0 < n → c.(expandable) = true →
  getitem_opt c.(history) (branch_point bf c) = Ok parent →
  match head parent.(chains), last parent.(chains) with
  | Some f, Some l =>
      ∃ c' new,
        grow_in model next prev d n bf ts c = Ok c'
        ∧ history c' = history c ++ [new]
        ∧ chains new = match d with Right => [] | _ => prev f n end
                       ++ chains parent
                       ++ match d with Left => [] | _ => next l n end
        ∧ actions new = actions parent ++ [tag_of d +:+ " " +:+ str_of_Z n]
        ∧ score new = model (state_text new)
  | _, _ => grow_in model next prev d n bf ts c = Raise IndexError
  end.
Proof.
  intros Hn He Hp. pose proof (extend_in_window d n parent.(chains)) as Hw.
  destruct (head (chains parent)) as [f|] eqn:Ef, (last (chains parent)) as [l|] eqn:El.
  2,3,4: rewrite grow_in_unfold; unfold grow;
         apply Z.leb_gt in Hn; rewrite Hn, He; simpl; rewrite Hp; simpl;
         by rewrite Hw.
  destruct (grow_in model next prev d n bf ts c) as [c'|e] eqn:Eg.
  - apply grow_in_cases in Eg as [[_ [?|?]]|(_ & _ & parent' & new & Hp' & -> & Hx & Hs & _ & Ha)];
      [lia|congruence|].
    rewrite Hp in Hp'. injection Hp' as <-. rewrite Hw in Hx. injection Hx as Hx.
    exists (set_history (history c ++ [new]) c), new. by split_and!.
  - exfalso. rewrite grow_in_unfold in Eg. unfold grow in Eg.
    apply Z.leb_gt in Hn. rewrite Hn, He in Eg. simpl in Eg. rewrite Hp in Eg. simpl in Eg.
    rewrite Hw in Eg. simpl in Eg.
    destruct (0 <? _)%nat; [|done].
    destruct (getitem_opt (_ ++ _) _) as [base|e'] eqn:Eb; [done|].
    apply getitem_opt_Ok in Hp as (k & Hk & Hl).
    destruct (resolves_app _ (set_score
      (predict_joined model
         (match d with Right => [] | _ => prev f n end ++
          chains parent ++ match d with Left => [] | _ => next l n end))
      (set_chains
         (match d with Right => [] | _ => prev f n end ++
          chains parent ++ match d with Left => [] | _ => next l n end)
         (set_timestamp ts (from_state parent (Some (tag_of d +:+ " " +:+ str_of_Z n))))))
      _ _ Hk) as (k' & Hk').
    pose proof (resolves_lt _ _ _ Hk') as Hlt.
    destruct (lookup_lt_is_Some_2 _ _ Hlt) as [y Hy].
    assert (getitem_opt (history c ++ [set_score
      (predict_joined model
         (match d with Right => [] | _ => prev f n end ++
          chains parent ++ match d with Left => [] | _ => next l n end))
      (set_chains
         (match d with Right => [] | _ => prev f n end ++
          chains parent ++ match d with Left => [] | _ => next l n end)
         (set_timestamp ts (from_state parent (Some (tag_of d +:+ " " +:+ str_of_Z n)))))])
      (branch_point bf c) = Ok y) as Hy' by (apply getitem_opt_Ok; eauto).
    congruence.
Qed.

End GrowthShape.

(** A run of the theorem: a fresh candidate grown to the right. *)
Lemma selection_stays_valid_witness :
  ∃ c', add_right_context model_def (doc_next doc_def) 1 None 0 anchor_candidate = Ok c'
        ∧ length c'.(history) = 2%nat ∧ selection_valid c'.
Proof.
  eexists. split; [vm_compute; reflexivity|]. split; [reflexivity|].
  refine (proj1 (proj2 (selection_stays_valid model_def (doc_next doc_def) (doc_prev doc_def)
                          anchor_candidate _)) Right 1 None 0 _ _).
  - exists 0%nat, (-1). split; reflexivity.
  - vm_compute. reflexivity.
Defined.

(** A run of the theorem: [three_state_candidate] selects index 1 and keeps
    its context when it grows; a fresh candidate selects [-1] and moves on to
    the state it has just grown. *)
Lemma growth_keeps_selection_witness :
  (∃ c' cur, add_left_context model_def (doc_prev doc_def) 1 None 3 three_state_candidate
             = Ok c'
             ∧ context three_state_candidate = Ok cur ∧ context c' = Ok cur
             ∧ length c'.(history) = 4%nat)
  ∧ (∃ c' new, add_right_context model_def (doc_next doc_def) 1 None 0 anchor_candidate
               = Ok c'
               ∧ context c' = Ok new ∧ unit_indices new = [4; 5]).
Proof.
  split.
  - eexists. eexists. split; [vm_compute; reflexivity|]. split; [reflexivity|].
    split; [|reflexivity].
    refine (proj1 (proj2 (proj2 (proj2 (proj2
              (growth_keeps_selection model_def (doc_next doc_def) (doc_prev doc_def)
                 Left 1 None 3 three_state_candidate _ _))))) 1 _ _ _ _);
      [vm_compute; reflexivity|reflexivity|lia|reflexivity].
  - destruct (proj2 (proj2 (proj2 (proj2 (proj2
              (growth_keeps_selection model_def (doc_next doc_def) (doc_prev doc_def)
                 Right 1 None 0 anchor_candidate
                 (mkCandidate (mkChain 4 "d ") (Some (-1))
                    (anchor_candidate.(history)
                     ++ [mkState [mkChain 4 "d "; mkChain 5 "e "] 1 ["right 1"%string] 0
                           (500 # 1000)]) true) ltac:(vm_compute; reflexivity))))))
              ltac:(lia) eq_refl eq_refl) as (new & Hh & Hc).
    eexists. exists new. split; [vm_compute; reflexivity|]. split; [exact Hc|].
    simpl in Hh. injection Hh as <-. reflexivity.
Defined.

(** A run of the theorem: the anchor "d " of [doc_def] grown in both
    directions has no unit before it and gains the unit 5 after it. *)
Lemma growth_window_witness :
  ∃ c' new,
    add_bidirectional_context model_def (doc_next doc_def) (doc_prev doc_def) 1 None 7
      anchor_candidate = Ok c'
    ∧ history c' = history anchor_candidate ++ [new]
    ∧ unit_indices new = [4; 5]
    ∧ actions new = ["bidirectional 1"%string].
Proof.
  destruct (growth_window model_def (doc_next doc_def) (doc_prev doc_def)
              Bidirectional 1 None 7 anchor_candidate (mkState [mkChain 4 "d "] 0 [] 0 0)
              ltac:(lia) eq_refl eq_refl) as (c' & new & Hg & Hh & Hch & Ha & _).
  exists c', new. split; [exact Hg|]. split; [exact Hh|].
  unfold unit_indices. rewrite Hch, Ha. split; reflexivity.
Defined.

(** ** Pruning the history *)

Lemma List_filter_sublist {A} (f : A → bool) (l : list A) : List.filter f l `sublist_of` l.
Proof.
  induction l as [|x l IH]; simpl; [done|].
  destruct (f x); by constructor.
Qed.

Lemma enumerate_snd {A} (l : list A) : (enumerate l).*2 = l.
Proof.
  unfold enumerate.
  assert (∀ g : nat → nat, (imap (λ i x, (g i, x)) l).*2 = l) as H; [|apply (H (λ i, i))].
  induction l as [|x l IH]; intros g; simpl; [done|]. f_equal. apply (IH (g ∘ S)).
Qed.

Lemma filter_lookup_kept {A} (f : A → bool) (l : list A) k x :
  l !! k = Some x → f x = true →
  List.filter f l !! length (List.filter f (take k l)) = Some x.
Proof.
  intros Hk Hf. pose proof (take_drop_middle _ _ _ Hk) as Hl.
  set (t := take k l) in *. rewrite <- Hl.
  rewrite List.filter_app, lookup_app_r by lia. rewrite Nat.sub_diag. simpl.
  by rewrite Hf.
Qed.

Lemma count_before_offset {A} (g : A → bool) (l : list A) (k o : nat) :
  length (List.filter (λ p : nat * A, g p.2 && (Z.of_nat p.1 <? Z.of_nat k))
            (imap (λ i x, ((o + i)%nat, x)) l))
  = length (List.filter g (take (k - o) l)).
Proof.
  revert o. induction l as [|x l IH]; intros o; [by rewrite take_nil|].
  cbn [imap List.filter fst snd].
  rewrite (imap_ext _ (λ i x, ((S o + i)%nat, x))) by (intros; simpl; f_equal; lia).
  rewrite Nat.add_0_r. specialize (IH (S o)).
  destruct (decide (o < k)%nat) as [Hlt|Hge].
  - replace (k - o)%nat with (S (k - S o)) by lia. cbn [take List.filter].
    assert ((Z.of_nat o <? Z.of_nat k) = true) as -> by (apply Z.ltb_lt; lia).
    rewrite andb_true_r. destruct (g x); cbn [length]; by rewrite IH.
  - replace (k - o)%nat with 0%nat by lia. replace (k - S o)%nat with 0%nat in IH by lia.
    assert ((Z.of_nat o <? Z.of_nat k) = false) as -> by (apply Z.ltb_ge; lia).
    by rewrite andb_false_r.
Qed.

Lemma count_before {A} (g : A → bool) (l : list A) (k : nat) :
  length (List.filter (λ p : nat * A, g p.2 && (Z.of_nat p.1 <? Z.of_nat k)) (enumerate l))
  = length (List.filter g (take k l)).
Proof. pose proof (count_before_offset g l k 0) as H. by rewrite Nat.sub_0_r in H. Qed.

Lemma filter_split_length {A} (g : A → bool) (l : list A) :
  (length (List.filter g l) + length (List.filter (λ x, negb (g x)) l) = length l)%nat.
Proof. induction l as [|x l IH]; simpl; [done|]. destruct (g x); simpl; lia. Qed.

(** What [clear_history] keeps, whenever it returns. *)
Lemma clear_history_inv exceptions c c' :
  clear_history exceptions c = Ok c' →
  chain c' = chain c ∧ expandable c' = expandable c
  ∧ ∃ f : nat → bool,
      history c' = (List.filter (λ p : nat * State, f p.1) (enumerate (history c))).*2
      ∧ ∀ k, Z.of_nat k ∈ exceptions → f k = true.
Proof.
  unfold clear_history. intros H.
  assert (∀ sel : option Z, ∀ k, Z.of_nat k ∈ exceptions →
            bool_decide (Z.of_nat k ∈ exceptions) || bool_decide (sel = Some (Z.of_nat k))
            = true) as Hf.
  { intros sel k Hk. by rewrite (bool_decide_eq_true_2 _ Hk). }
  pose (f := λ (sel : option Z) (k : nat),
          bool_decide (Z.of_nat k ∈ exceptions) || bool_decide (sel = Some (Z.of_nat k))).
  destruct (bool_decide (selected_state c = Some (-1))).
  - injection H as <-. split_and!; try done.
    exists (f (Some (Z.of_nat (length (history c)) - 1))). split; [reflexivity|apply Hf].
  - destruct (selected_state c) as [s|].
    + injection H as <-. split_and!; try done.
      exists (f (Some s)). split; [reflexivity|apply Hf].
    + destruct exceptions; [|done]. injection H as <-. split_and!; try done.
      exists (f None). split; [reflexivity|apply Hf].
Qed.

(** X5. [clear_history] on a candidate whose selection is [-1] or a
    non-negative index, with exceptions that are non-negative: the call
    returns, the context is the state it was, the history is a sub-list of
    the old one that still holds every state listed in the exceptions, and
    with no exceptions it holds the context alone. *)
Theorem clear_history_keeps_context exceptions c cur :
  context c = Ok cur →
  (c.(selected_state) = Some (-1) ∨ ∃ i, c.(selected_state) = Some i ∧ 0 ≤ i) →
  Forall (λ x, 0 ≤ x) exceptions →
  ∃ c', clear_history exceptions c = Ok c' ∧ context c' = Ok cur
        ∧ chain c' = chain c ∧ expandable c' = expandable c
        ∧ history c' `sublist_of` history c
        ∧ (∀ k s, Z.of_nat k ∈ exceptions → history c !! k = Some s → s ∈ history c')
        ∧ (exceptions = [] → history c' = [cur]).
Proof.
  intros Hc Hsel Hex.
  destruct (clear_history_keeps_selection exceptions c cur Hc Hsel Hex) as (c' & Hcl & Hc').
  exists c'. split; [done|]. split; [done|].
  destruct (clear_history_inv _ _ _ Hcl) as (Hch & He & f & Hh & Hf).
  split; [done|]. split; [done|]. split; [|split].
  - rewrite Hh. rewrite <- (enumerate_snd (history c)) at 2.
    apply fmap_sublist, List_filter_sublist.
  - intros k s Hk Hs. rewrite Hh. apply list_elem_of_fmap. exists (k, s). split; [done|].
    apply elem_of_List_filter. split; [by apply elem_of_enumerate|]. by apply Hf.
  - intros ->. destruct (clear_history_plain c cur Hc Hsel) as (c'' & Hcl' & Hh' & _).
    congruence.
Qed.

(** A run of the theorem: [three_state_candidate] keeps its states 1 (selected)
    and 2 (listed); the selection moves to index 0. *)
Lemma clear_history_keeps_context_witness :
  ∃ c' cur, clear_history [2] three_state_candidate = Ok c'
            ∧ context three_state_candidate = Ok cur ∧ context c' = Ok cur
            ∧ selected_state c' = Some 0 ∧ length (history c') = 2%nat.
Proof.
  eexists. eexists. split; [vm_compute; reflexivity|]. split; [reflexivity|].
  destruct (clear_history_keeps_context [2] three_state_candidate _ eq_refl) as (c' & Hcl & Hc' & _).
  - right. exists 1. split; [reflexivity|lia].
  - repeat constructor. lia.
  - split; [|split; reflexivity]. vm_compute in Hcl. injection Hcl as <-. reflexivity.
Defined.

(** X6. [clear_timestamp]: with the timestamp of the context it raises;
    otherwise, for a selection that is [-1] or a non-negative index, it
    returns, the history is the old one without the states of that
    timestamp, in the old order, and the context is the state it was. *)
Theorem clear_timestamp_keeps_context ts c cur :
  context c = Ok cur →
  (timestamp cur = ts → clear_timestamp ts c = Raise UsageError)
  ∧ (timestamp cur ≠ ts →
     (c.(selected_state) = Some (-1) ∨ ∃ i, c.(selected_state) = Some i ∧ 0 ≤ i) →
     ∃ c', clear_timestamp ts c = Ok c' ∧ context c' = Ok cur
           ∧ chain c' = chain c ∧ expandable c' = expandable c
           ∧ history c' `sublist_of` history c
           ∧ (∀ s, s ∈ history c' ↔ s ∈ history c ∧ timestamp s ≠ ts)).
Proof.
  intros Hc. split.
  { intros Ht. unfold clear_timestamp. rewrite Hc. simpl. by rewrite bool_decide_eq_true_2. }
  intros Ht Hsel.
  set (keep := λ s : State, negb (bool_decide (timestamp s = ts))).
  assert (Hkeep : keep cur = true) by (unfold keep; by rewrite bool_decide_eq_false_2).
  apply context_Ok in Hc as Hres. destruct Hres as (k & (i & Hi & Hn) & Hk).
  pose proof (filter_lookup_kept keep _ _ _ Hk Hkeep) as Hpos.
  pose proof (lookup_lt_Some _ _ _ Hpos) as Hlt.
  pose proof (lookup_lt_Some _ _ _ Hk) as Hltk.
  assert (Hmem : ∀ s, s ∈ List.filter keep (history c) ↔ s ∈ history c ∧ timestamp s ≠ ts).
  { intros s. rewrite elem_of_List_filter. unfold keep. rewrite negb_true_iff.
    by rewrite bool_decide_eq_false. }
  unfold clear_timestamp. rewrite Hc. simpl. rewrite bool_decide_eq_false_2 by done.
  fold keep. destruct (bool_decide (selected_state c = Some (-1))) eqn:Es.
  - apply bool_decide_eq_true in Es. rewrite Es in Hi. injection Hi as <-.
    apply norm_index_Ok in Hn as [[? _]|[_ Hk']]; [lia|].
    eexists. split; [done|]. simpl. split_and!; try done; [|apply List_filter_sublist].
    apply context_Ok. simpl. exists (length (List.filter keep (take k (history c)))).
    split; [|done]. exists (-1). split; [done|].
    rewrite norm_index_last by lia. f_equal.
    assert (take k (history c) ++ [cur] = history c) as Htake.
    { rewrite <- (take_drop_middle _ _ _ Hk) at 2. f_equal.
      rewrite drop_ge by lia. done. }
    rewrite <- Htake at 1. rewrite List.filter_app, length_app. simpl. rewrite Hkeep. simpl. lia.
  - apply bool_decide_eq_false in Es. destruct Hsel as [|(i' & Hi' & H0)]; [done|].
    rewrite Hi in Hi'. injection Hi' as <-.
    apply norm_index_Ok in Hn as [[Hr Hk']|[? _]]; [|lia].
    eexists. split; [done|]. simpl. split_and!; try done; [|apply List_filter_sublist].
    apply context_Ok. simpl. exists (length (List.filter keep (take k (history c)))).
    split; [|done]. eexists. split; [done|].
    rewrite Hi. simpl. replace i with (Z.of_nat k) by lia.
    pose proof (count_before (λ s, bool_decide (timestamp s = ts)) (history c) k) as Hcnt.
    cbv beta in Hcnt. rewrite Hcnt. clear Hcnt.
    pose proof (filter_split_length (λ s, bool_decide (timestamp s = ts)) (take k (history c))) as Hsplit.
    cbv beta in Hsplit. change (λ x : State, negb (bool_decide (timestamp x = ts))) with keep in Hsplit.
    rewrite length_take in Hsplit.
    set (a := length (List.filter (λ s, bool_decide (timestamp s = ts)) (take k (history c)))) in *.
    set (b := length (List.filter keep (take k (history c)))) in *.
    replace (Z.max 0 (Z.min (Z.of_nat k - Z.of_nat a)
                        (Z.of_nat (length (List.filter keep (history c))) - 1)))
      with (Z.of_nat b) by lia.
    apply norm_index_nat. lia.
Qed.

(** A run of the theorem: [three_state_candidate] selects its state of
    timestamp 1; the state of timestamp 0 before it is removed and the
    selection moves to index 0. *)
Lemma clear_timestamp_keeps_context_witness :
  ∃ c' cur, clear_timestamp 0 three_state_candidate = Ok c'
            ∧ context three_state_candidate = Ok cur ∧ context c' = Ok cur
            ∧ selected_state c' = Some 0 ∧ length (history c') = 2%nat.
Proof.
  eexists. eexists. split; [vm_compute; reflexivity|]. split; [reflexivity|].
  destruct (proj2 (clear_timestamp_keeps_context 0 three_state_candidate _ eq_refl))
    as (c' & Hcl & Hc' & _).
  - simpl. lia.
  - right. exists 1. split; [reflexivity|lia].
  - split; [|split; reflexivity]. vm_compute in Hcl. injection Hcl as <-. reflexivity.
Defined.

(** ** [SelectedCluster]: duplicates, scores, filters and merging *)

(** *** [remove_duplicate_candidates] *)

Lemma dedup_scan_spec seen l keep :
  dedup_scan seen l = Ok keep →
  keep `sublist_of` l
  ∧ (∀ c, c ∈ keep → ∃ t, range_tuple c = Ok t ∧ t ∉ seen)
  ∧ (∀ i j a b t, (i < j)%nat → keep !! i = Some a → keep !! j = Some b →
       range_tuple a = Ok t → range_tuple b ≠ Ok t)
  ∧ (∀ c, c ∈ l → ∃ t, range_tuple c = Ok t
                       ∧ (t ∈ seen ∨ ∃ c', c' ∈ keep ∧ range_tuple c' = Ok t))
  ∧ dedup_scan seen keep = Ok keep.
Proof.
  revert seen keep. induction l as [|x l IH]; intros seen keep H; simpl in H.
  { injection H as <-. split_and!; try done.
    - intros c Hc. by apply elem_of_nil in Hc.
    - intros c Hc. by apply elem_of_nil in Hc. }
  fold (range_tuple x) in H.
  destruct (range_tuple x) as [t|e] eqn:Et; simpl in H; [|done].
  destruct (bool_decide (t ∈ seen)) eqn:Es.
  - apply bool_decide_eq_true in Es.
    destruct (IH _ _ H) as (Hsub & Hnew & Hdist & Hcov & Hidem).
    split_and!; try done.
    + by constructor.
    + intros c [->|Hc]%elem_of_cons; [exists t; auto|by apply Hcov].
  - apply bool_decide_eq_false in Es.
    destruct (dedup_scan (t :: seen) l) as [keep'|e] eqn:Ek; simpl in H; [|done].
    injection H as <-.
    destruct (IH _ _ Ek) as (Hsub & Hnew & Hdist & Hcov & Hidem).
    split_and!.
    + by constructor.
    + intros c [->|Hc]%elem_of_cons; [exists t; auto|].
      destruct (Hnew c Hc) as (t' & Ht' & Hn). exists t'. split; [done|].
      intros Hin. apply Hn. by right.
    + intros i j a b t0 Hij Ha Hb Hta Htb. destruct j as [|j]; [lia|]. simpl in Hb.
      destruct i as [|i]; simpl in Ha.
      * injection Ha as <-. rewrite Et in Hta. injection Hta as <-.
        destruct (Hnew b) as (t' & Ht' & Hn); [by eapply list_elem_of_lookup_2|].
        rewrite Htb in Ht'. injection Ht' as <-. apply Hn. by left.
      * eapply (Hdist i j a b t0); eauto. lia.
    + intros c [->|Hc]%elem_of_cons.
      * exists t. split; [done|]. right. exists x. split; [by left|done].
      * destruct (Hcov c Hc) as (t' & Ht' & [[->|Hin]%elem_of_cons|(c' & Hc' & Hr)]).
        -- exists t. split; [done|]. right. exists x. split; [by left|done].
        -- exists t'. auto.
        -- exists t'. split; [done|]. right. exists c'. split; [by right|done].
    + simpl. fold (range_tuple x). rewrite Et. simpl.
      rewrite bool_decide_eq_false_2 by done. by rewrite Hidem.
Qed.

(** X7. [remove_duplicate_candidates] keeps a sub-list of the candidates in
    which no two candidates have the same index range; every index range of
    the old list is still the range of a kept candidate, the first candidate
    is always kept, and running the method again changes nothing. *)
Theorem remove_duplicates_keeps_first_of_each_range cl cl' :
  remove_duplicate_candidates cl = Ok cl' →
  candidates cl' `sublist_of` candidates cl
  ∧ head (candidates cl') = head (candidates cl)
  ∧ (∀ i j a b t, (i < j)%nat →
       candidates cl' !! i = Some a → candidates cl' !! j = Some b →
       range_tuple a = Ok t → range_tuple b ≠ Ok t)
  ∧ (∀ c, c ∈ candidates cl →
       ∃ c' t, c' ∈ candidates cl' ∧ range_tuple c = Ok t ∧ range_tuple c' = Ok t)
  ∧ remove_duplicate_candidates cl' = Ok cl'.
Proof.
  unfold remove_duplicate_candidates.
  destruct (dedup_scan [] (candidates cl)) as [keep|e] eqn:Ek; simpl; [|done].
  intros [= <-]. simpl.
  destruct (dedup_scan_spec _ _ _ Ek) as (Hsub & Hnew & Hdist & Hcov & Hidem).
  split_and!; try done.
  - destruct (candidates cl) as [|x l]; simpl in Ek; [by injection Ek as <-|].
    destruct (tuple_of_range <$> cand_index_range x); simpl in Ek; [|done].
    destruct (dedup_scan _ l); simpl in Ek; [|done]. by injection Ek as <-.
  - intros c Hc. destruct (Hcov c Hc) as (t & Ht & [Hin|(c' & Hc' & Hr)]).
    + by apply elem_of_nil in Hin.
    + by exists c', t.
  - by rewrite Hidem.
Qed.

(** A run of the theorem: of the two candidates of [duplicate_cluster] that
    hold the window 4-5 the first is kept. *)
Lemma remove_duplicates_keeps_first_of_each_range_witness :
  ∃ cl', remove_duplicate_candidates duplicate_cluster = Ok cl'
         ∧ (λ c, chain_index c.(chain)) <$> candidates cl' = [4; 6]
         ∧ remove_duplicate_candidates cl' = Ok cl'.
Proof.
  eexists. split; [vm_compute; reflexivity|]. split; [reflexivity|].
  refine (proj2 (proj2 (proj2 (proj2
            (remove_duplicates_keeps_first_of_each_range duplicate_cluster _ _))))).
  vm_compute. reflexivity.
Defined.

(** *** [rescore_candidates] *)

Lemma mapM_result_Forall2 {A B} (f : A → result B) l l' :
  mapM f l = Ok l' ↔ Forall2 (λ x y, f x = Ok y) l l'.
Proof.
  revert l'. induction l as [|x l IH]; intros l'; simpl.
  - split; [intros [= <-]; constructor|by inversion 1].
  - destruct (f x) as [y|e] eqn:Ey; simpl.
    + destruct (mapM f l) as [k|e] eqn:Ek; simpl.
      * split.
        -- intros [= <-]. constructor; [done|]. by apply IH.
        -- inversion 1 as [|? y' ? k' Hy Hk]; subst. apply IH in Hk.
           injection Hk as <-. simpl in Hy. rewrite Ey in Hy. by injection Hy as <-.
      * split; [done|]. inversion 1 as [|? y' ? k' Hy Hk]; subst. by apply IH in Hk.
    + split; [done|]. inversion 1 as [|? y' ? k' Hy Hk]; subst. simpl in Hy. congruence.
Qed.

Section RescoreFacts.
Variable model : string → Q.

Lemma rescore_inv c c' :
  rescore model c = Ok c' →
  ∃ k cur, resolves c.(history) c.(selected_state) k ∧ c.(history) !! k = Some cur
    ∧ c' = set_history
             (alter (set_score (predict_joined model cur.(chains))) k c.(history)) c.
Proof.
  unfold rescore.
  destruct (getitem_opt _ _) as [cur|e] eqn:Ec; simpl; [|done].
  destruct (setattr_at _ _ _) as [h|e] eqn:Eh; simpl; [|done].
  intros [= <-]. apply getitem_opt_Ok in Ec as (k & Hk & Hl).
  apply setattr_at_Ok in Eh as (k' & Hk' & ->).
  rewrite (resolves_fun _ _ _ _ Hk' Hk). by exists k, cur.
Qed.

Lemma alter_idemp {A} (f : A → A) k (l : list A) :
  (∀ x, f (f x) = f x) → alter f k (alter f k l) = alter f k l.
Proof.
  intros Hf. apply list_eq. intros i. destruct (decide (i = k)) as [->|Hne].
  - rewrite !list_lookup_alter_eq. destruct (l !! k); simpl; [|done]. by rewrite Hf.
  - by rewrite !list_lookup_alter_ne.
Qed.

Lemma rescore_spec c c' :
  rescore model c = Ok c' →
  chain c' = chain c ∧ selected_state c' = selected_state c
  ∧ expandable c' = expandable c
  ∧ (∃ cur, context c = Ok cur
            ∧ context c' = Ok (set_score (predict_joined model cur.(chains)) cur))
  ∧ rescore model c' = Ok c'.
Proof.
  intros (k & cur & Hk & Hl & ->)%rescore_inv. simpl. split_and!; try done.
  - exists cur. split; [apply context_Ok; eauto|].
    apply context_Ok. exists k. simpl. split.
    + destruct Hk as (i & Hi & Hn). exists i. by rewrite length_alter.
    + by rewrite list_lookup_alter_eq, Hl.
  - unfold rescore. simpl.
    assert (getitem_opt (alter (set_score (predict_joined model (chains cur))) k (history c))
              (selected_state c)
            = Ok (set_score (predict_joined model (chains cur)) cur)) as ->.
    { apply getitem_opt_Ok. exists k. split.
      + destruct Hk as (i & Hi & Hn). exists i. by rewrite length_alter.
      + by rewrite list_lookup_alter_eq, Hl. }
    simpl.
    assert (setattr_at (set_score (predict_joined model (chains cur)))
              (alter (set_score (predict_joined model (chains cur))) k (history c))
              (selected_state c)
            = Ok (alter (set_score (predict_joined model (chains cur))) k (history c))) as ->.
    { apply setattr_at_Ok. exists k. split.
      + destruct Hk as (i & Hi & Hn). exists i. by rewrite length_alter.
      + by rewrite alter_idemp. }
    done.
Qed.

(** X8. [rescore_candidates] keeps the candidates in place, with their
    anchors, selections and flags; afterwards the score of every candidate's
    context is the cross-encoder's value on the joined text of its window,
    and the window is the one it was. A second call changes nothing. *)
Theorem rescore_candidates_scores_windows cl cl' :
  rescore_candidates model cl = Ok cl' →
  Forall2 (λ c c', chain c' = chain c ∧ selected_state c' = selected_state c
                   ∧ expandable c' = expandable c
                   ∧ ∃ cur new, context c = Ok cur ∧ context c' = Ok new
                                ∧ chains new = chains cur
                                ∧ score new = model (state_text cur))
          (candidates cl) (candidates cl')
  ∧ rescore_candidates model cl' = Ok cl'.
Proof.
  unfold rescore_candidates.
  destruct (mapM (rescore model) (candidates cl)) as [l|e] eqn:El; simpl; [|done].
  intros [= <-]. simpl. apply mapM_result_Forall2 in El. split.
  - eapply Forall2_impl; [exact El|]. intros c c' H. simpl in H.
    destruct (rescore_spec _ _ H) as (? & ? & ? & (cur & Hc & Hc') & _).
    split_and!; try done. by exists cur, (set_score (predict_joined model (chains cur)) cur).
  - assert (mapM (rescore model) l = Ok l) as ->; [|done].
    apply mapM_result_Forall2. clear -El.
    induction El as [|c c' r r' H _ IH]; constructor; [|done].
    by destruct (rescore_spec _ _ H) as (_ & _ & _ & _ & ?).
Qed.

End RescoreFacts.

(** A run of the theorem: the window "d e " of the first candidate of
    [duplicate_cluster] is worth 1 to [model_def]. *)
Lemma rescore_candidates_scores_windows_witness :
  ∃ cl', rescore_candidates model_def duplicate_cluster = Ok cl'
         ∧ mapM cand_score (candidates cl') = Ok [1%Q; 1%Q; 0%Q]
         ∧ rescore_candidates model_def cl' = Ok cl'.
Proof.
  eexists. split; [vm_compute; reflexivity|]. split; [reflexivity|].
  refine (proj2 (rescore_candidates_scores_windows model_def duplicate_cluster _ _)).
  vm_compute. reflexivity.
Defined.

(** *** [filter_candidates] *)

Lemma filter_keyed {A K} (key : A → result K) (P : K → bool) (keyed : list (K * A)) :
  Forall (λ p, key p.2 = Ok p.1) keyed →
  (List.filter (λ p, P p.1) keyed).*2
  = List.filter (λ x, match key x with Ok k => P k | Raise _ => false end) keyed.*2.
Proof.
  induction 1 as [|p r Hp _ IH]; simpl; [done|].
  rewrite Hp. destruct (P p.1); simpl; [f_equal|]; exact IH.
Qed.

Lemma filter_candidates_inv thr cl cl' :
  filter_candidates thr cl = Ok cl' →
  cl' = set_candidates (List.filter (scores_above thr) (candidates cl)) cl
  ∧ Forall (λ c, is_ok (cand_score c) = true) (candidates cl).
Proof.
  unfold filter_candidates.
  destruct (with_keys cand_score (candidates cl)) as [keyed|e] eqn:Ek; simpl; [|done].
  intros [= <-]. apply with_keys_inv in Ek as [Hl Hk].
  rewrite (filter_keyed cand_score (Qlt_bool thr) keyed Hk), Hl. split; [done|].
  rewrite <- Hl. apply Forall_fmap. eapply Forall_impl; [exact Hk|].
  intros p Hp. simpl. by rewrite Hp.
Qed.

Lemma filter_candidates_intro thr cl :
  Forall (λ c, is_ok (cand_score c) = true) (candidates cl) →
  filter_candidates thr cl
  = Ok (set_candidates (List.filter (scores_above thr) (candidates cl)) cl).
Proof.
  intros H. apply with_keys_total in H.
  destruct (with_keys cand_score (candidates cl)) as [keyed|e] eqn:Ek; [|done].
  unfold filter_candidates. rewrite Ek. simpl.
  apply with_keys_inv in Ek as [Hl Hk].
  by rewrite (filter_keyed cand_score (Qlt_bool thr) keyed Hk), Hl.
Qed.

Lemma List_filter_idemp {A} (f : A → bool) (l : list A) :
  List.filter f (List.filter f l) = List.filter f l.
Proof.
  induction l as [|x l IH]; simpl; [done|].
  destruct (f x) eqn:E; simpl; rewrite ?E, IH; done.
Qed.

(** X9. [filter_candidates] keeps, in their order, exactly the candidates
    whose score is strictly above the threshold; a second call with the same
    threshold changes nothing. *)
Theorem filter_candidates_keeps_above thr cl cl' :
  filter_candidates thr cl = Ok cl' →
  candidates cl' `sublist_of` candidates cl
  ∧ (∀ c, c ∈ candidates cl' ↔
          c ∈ candidates cl ∧ ∃ s, cand_score c = Ok s ∧ (thr < s)%Q)
  ∧ filter_candidates thr cl' = Ok cl'.
Proof.
  intros [-> Hok]%filter_candidates_inv. simpl. split_and!.
  - apply List_filter_sublist.
  - intros c. rewrite elem_of_List_filter. unfold scores_above. split.
    + intros [Hc Hs]. split; [done|].
      destruct (cand_score c) as [s|]; [|done]. exists s. split; [done|].
      by apply Qlt_bool_iff.
    + intros [Hc (s & -> & Hs)]. split; [done|]. by apply Qlt_bool_iff.
  - rewrite filter_candidates_intro; simpl.
    + by rewrite List_filter_idemp.
    + rewrite Forall_forall in Hok |- *. intros c [Hc _]%elem_of_List_filter. by apply Hok.
Qed.

(** A run of the theorem: of the scores 5, 4 and 1 of [cluster_overlap] only
    the first two are above 2. *)
Lemma filter_candidates_keeps_above_witness :
  ∃ cl', filter_candidates 2 cluster_overlap = Ok cl'
         ∧ (λ c, chain_index c.(chain)) <$> candidates cl' = [0; 2]
         ∧ filter_candidates 2 cl' = Ok cl'.
Proof.
  eexists. split; [vm_compute; reflexivity|]. split; [reflexivity|].
  refine (proj2 (proj2 (filter_candidates_keeps_above 2 cluster_overlap _ _))).
  vm_compute. reflexivity.
Defined.

(** *** Filtering and ranking commute *)

Section SortFilter.
Context {A : Type} (before : A → A → bool) (g : A → bool).
Hypothesis before_asym : ∀ a b, before a b = true → before b a = false.
Hypothesis before_trans : ∀ a b c,
  may_precede before a b → may_precede before b c → may_precede before a c.

Lemma insert_by_head x l :
  (∀ z, head l = Some z → before z x = false) → insert_by before x l = x :: l.
Proof. destruct l as [|z l]; simpl; [done|]. intros H. by rewrite (H z). Qed.

Lemma filter_insert_by x l :
  StronglySorted (may_precede before) l →
  List.filter g (insert_by before x l)
  = if g x then insert_by before x (List.filter g l) else List.filter g l.
Proof.
  induction 1 as [|y r Hr IH Hy]; simpl; [by destruct (g x)|].
  destruct (before y x) eqn:Eyx; simpl.
  - rewrite IH. destruct (g y), (g x); simpl; by rewrite ?Eyx.
  - destruct (g x) eqn:Ex; [|done].
    change (if g y then y :: List.filter g r else List.filter g r)
      with (List.filter g (y :: r)).
    rewrite insert_by_head; [done|].
    intros z Hz.
    assert (z ∈ List.filter g (y :: r)) as [Hin _]%elem_of_List_filter.
    { destruct (List.filter g (y :: r)); [done|]. injection Hz as ->. by left. }
    apply elem_of_cons in Hin as [->|Hin]; [done|].
    rewrite Forall_forall in Hy. apply (before_trans x y z); [done|]. by apply Hy.
Qed.

Lemma sort_by_filter l :
  sort_by before (List.filter g l) = List.filter g (sort_by before l).
Proof.
  induction l as [|x l IH]; simpl; [done|].
  change (sort_by before (x :: l)) with (insert_by before x (sort_by before l)).
  rewrite filter_insert_by; [|by apply sort_by_sorted].
  destruct (g x); [|done]. simpl. by rewrite <- IH.
Qed.

End SortFilter.

Lemma filter_snd {K A} (g : A → bool) (l : list (K * A)) :
  (List.filter (λ p, g p.2) l).*2 = List.filter g l.*2.
Proof. induction l as [|p l IH]; simpl; [done|]. destruct (g p.2); simpl; [f_equal|]; exact IH. Qed.

Lemma rerank_list_intro keyed :
  Forall (λ p, rank_key p.2 = Ok p.1) keyed →
  rerank_list keyed.*2 = Ok (sort_by keyed_before keyed).*2.
Proof. intros H. unfold rerank_list. by rewrite (with_keys_intro _ _ H). Qed.

Lemma rank_key_raises x e : cand_score x = Raise e → rank_key x = Raise e.
Proof. unfold rank_key. by intros ->. Qed.

Lemma with_keys_raise_same l e :
  with_keys cand_score l = Raise e → with_keys rank_key l = Raise e.
Proof.
  induction l as [|x l IH]; [done|]. rewrite !with_keys_cons.
  destruct (cand_score x) as [s|e'] eqn:Es; simpl.
  - assert (rank_key x = Ok (s, 6666 - chain_index (chain x))) as ->
      by (unfold rank_key; by rewrite Es).
    simpl. destruct (with_keys cand_score l) as [k|e'] eqn:Ek; simpl; [done|].
    intros [= ->]. by rewrite IH.
  - intros [= ->]. by rewrite (rank_key_raises _ _ Es).
Qed.

Lemma with_keys_rank_total l :
  Forall (λ c, is_ok (cand_score c) = true) l →
  ∃ keyed, keyed.*2 = l ∧ Forall (λ p, rank_key p.2 = Ok p.1) keyed.
Proof.
  induction 1 as [|x l Hx _ (keyed & Hl & Hk)]; [by exists []|].
  destruct (cand_score x) as [s|] eqn:Es; [|done].
  exists (((s, 6666 - chain_index (chain x)), x) :: keyed). split; [by rewrite fmap_cons, Hl|].
  constructor; [|done]. simpl. unfold rank_key. by rewrite Es.
Qed.

(** X10. Filtering by score and then ranking gives what ranking and then
    filtering gives, also when a score cannot be read and the calls raise. *)
Theorem filter_rerank_commute thr cl :
  filter_candidates thr cl ≫= rerank_candidates
  = rerank_candidates cl ≫= filter_candidates thr.
Proof.
  destruct (with_keys cand_score (candidates cl)) as [ks|e] eqn:Ek.
  2:{ unfold filter_candidates at 1, rerank_candidates at 2, rerank_list.
      rewrite Ek, (with_keys_raise_same _ _ Ek). done. }
  assert (Forall (λ c, is_ok (cand_score c) = true) (candidates cl)) as Hok.
  { apply with_keys_inv in Ek as [Hl Hk]. rewrite <- Hl. apply Forall_fmap.
    eapply Forall_impl; [exact Hk|]. intros p Hp. simpl. by rewrite Hp. }
  destruct (with_keys_rank_total _ Hok) as (keyed & Hl & Hk).
  rewrite (filter_candidates_intro _ _ Hok). simpl.
  unfold rerank_candidates at 2. rewrite <- Hl, (rerank_list_intro _ Hk). simpl.
  assert (Forall (λ c, is_ok (cand_score c) = true) (sort_by keyed_before keyed).*2) as Hok'.
  { rewrite Forall_forall in Hok |- *. intros c Hc. apply Hok.
    rewrite <- Hl. by rewrite (sort_by_perm keyed_before keyed) in Hc. }
  rewrite (filter_candidates_intro thr (set_candidates _ cl) Hok').
  unfold rerank_candidates. simpl.
  rewrite <- (filter_snd (scores_above thr) keyed).
  rewrite rerank_list_intro.
  2:{ rewrite Forall_forall in Hk |- *. intros p [Hp _]%elem_of_List_filter. by apply Hk. }
  simpl. rewrite (sort_by_filter keyed_before (λ p, scores_above thr p.2)).
  - by rewrite filter_snd.
  - apply keyed_before_asym.
  - apply keyed_may_precede_trans.
Qed.

(** *** [merge_candidates] *)

Section MergeShape.
Variable model : string → Q.

Lemma extend_context_chain extra c c' :
  extend_context extra c = Ok c' → chain c' = chain c.
Proof.
  unfold extend_context. destruct (context c); simpl; [|done].
  destruct (setattr_at _ _ _); simpl; [|done]. by intros [= <-].
Qed.

Lemma merge_step_anchors thr prev keep candidate prev' keep' :
  merge_step thr (prev, keep) candidate = Ok (prev', keep') →
  (chain prev' = chain prev ∧ keep' = keep)
  ∨ (prev' = candidate ∧ keep' = keep ++ [prev]).
Proof.
  unfold merge_step.
  destruct (cand_score prev); simpl; [|done].
  destruct (cand_score candidate); simpl; [|done].
  destruct (Qle_bool _ _); [|intros [= <- <-]; by right].
  destruct (cand_index_range candidate) as [rc|]; simpl; [|done].
  destruct (cand_index_range prev) as [rp|]; simpl; [|done].
  destruct (in_range _ _).
  - destruct (context candidate); simpl; [|done].
    destruct (extend_context _ prev) as [p|] eqn:Ep; simpl; [|done].
    intros [= <- <-]. left. split; [|done]. by eapply extend_context_chain.
  - destruct (bool_decide _).
    + destruct (context candidate); simpl; [|done].
      destruct (extend_context _ prev) as [p|] eqn:Ep; simpl; [|done].
      intros [= <- <-]. left. split; [|done]. by eapply extend_context_chain.
    + intros [= <- <-]. by right.
Qed.

Lemma merge_scan_anchors thr l prev keep prev' keep' :
  merge_scan thr (prev, keep) l = Ok (prev', keep') →
  chain <$> (keep' ++ [prev']) `sublist_of` chain <$> (keep ++ prev :: l).
Proof.
  revert prev keep. induction l as [|x l IH]; intros prev keep.
  - simpl. by intros [= <- <-].
  - change (merge_scan thr (prev, keep) (x :: l))
      with (merge_step thr (prev, keep) x ≫= λ acc, merge_scan thr acc l).
    destruct (merge_step thr (prev, keep) x) as [[p k]|e] eqn:Es; [|done].
    intros H. apply IH in H.
    apply merge_step_anchors in Es as [[Hp ->]|[-> ->]].
    + etrans; [exact H|]. rewrite !fmap_app, !fmap_cons, Hp.
      apply sublist_app; [done|]. constructor. by constructor.
    + by rewrite <- app_assoc in H.
Qed.

(** X11. When [merge_candidates] returns, at least one candidate is left and
    no more than there were; the anchors of the candidates left are anchors
    of the old candidates, each used at most as often; every candidate's
    score is the cross-encoder's value on the joined text of its window; and
    the list is ranked: re-ranking it changes nothing. *)
Theorem merge_candidates_result thr cl cl' :
  merge_candidates model thr cl = Ok cl' →
  (1 ≤ length (candidates cl') ≤ length (candidates cl))%nat
  ∧ chain <$> candidates cl' ⊆+ chain <$> candidates cl
  ∧ Forall (scored_by model) (candidates cl')
  ∧ rerank_candidates cl' = Ok cl'.
Proof.
  unfold merge_candidates.
  destruct (with_keys cand_first_index (candidates cl)) as [keyed|e] eqn:Ek; simpl; [|done].
  set (sorted := (sort_by (λ y x : Z * SummaryCandidate, y.1 <? x.1) keyed).*2).
  assert (sorted ≡ₚ candidates cl) as Hperm.
  { apply with_keys_inv in Ek as [<- _]. unfold sorted. by rewrite sort_by_perm. }
  destruct (getitem sorted 0) as [prev|e] eqn:Ep; simpl; [|done].
  assert (sorted = prev :: drop 1 sorted) as Hs.
  { rewrite getitem_first in Ep. destruct sorted as [|x r]; simpl in *; [done|].
    injection Ep as ->. by rewrite drop_0. }
  destruct (merge_scan thr (prev, []) (drop 1 sorted)) as [[prev' keep]|e] eqn:Em; simpl; [|done].
  apply merge_scan_anchors in Em. rewrite app_nil_l, <- Hs in Em.
  unfold rescore_candidates. simpl.
  destruct (mapM (rescore model) (keep ++ [prev'])) as [l|e] eqn:El; simpl; [|done].
  apply mapM_result_Forall2 in El.
  assert (chain <$> l = chain <$> (keep ++ [prev'])) as Hl.
  { clear -El. induction El as [|c c' r r' H _ IH]; [done|]. rewrite !fmap_cons, IH.
    f_equal. by destruct (rescore_spec _ _ _ H) as (? & _). }
  assert (Forall (scored_by model) l) as Hsc.
  { clear -El. induction El as [|c c' r r' H _ IH]; constructor; [|done].
    destruct (rescore_spec _ _ _ H) as (_ & _ & _ & (cur & _ & Hc') & _).
    eexists. split; [exact Hc'|]. done. }
  unfold rerank_candidates. simpl.
  destruct (rerank_list l) as [l'|e] eqn:Er; simpl; [|done].
  intros [= <-]. simpl.
  pose proof (rerank_list_perm _ _ Er) as Hp'.
  assert (chain <$> l' ⊆+ chain <$> candidates cl) as Hsub.
  { rewrite Hp', Hl, <- Hperm. by apply sublist_submseteq. }
  split_and!.
  - rewrite Hp'. apply (f_equal length) in Hl. rewrite !length_fmap, length_app in Hl.
    simpl in Hl. lia.
  - apply submseteq_length in Hsub. by rewrite !length_fmap in Hsub.
  - done.
  - by rewrite Hp'.
  - by rewrite (rerank_list_fixed _ _ Er).
Qed.

End MergeShape.

(** A run of the theorem: the neighbours at units 4 and 5 of [gap_cluster]
    become one candidate anchored at unit 4; the seed at unit 7 stays. *)
Lemma merge_candidates_result_witness :
  ∃ cl', merge_candidates model_def 2 gap_cluster = Ok cl'
         ∧ (λ c, chain_index c.(chain)) <$> candidates cl' = [4; 7]
         ∧ rerank_candidates cl' = Ok cl'.
Proof.
  eexists. split; [vm_compute; reflexivity|]. split; [reflexivity|].
  refine (proj2 (proj2 (proj2 (merge_candidates_result model_def 2 gap_cluster _ _)))).
  vm_compute. reflexivity.
Defined.

(** *** [selected_candidates] *)

(** X12. [selected_candidates] returns a sub-list of the candidates that
    holds every candidate whose score is above the candidate threshold. When
    the cluster's cross score (the rounded sum of the scores) is above the
    cluster threshold it returns all candidates; otherwise every candidate
    it returns has a score above the candidate threshold. On a cluster whose
    candidates have not been evaluated ([None]) it raises [TypeError]. *)
Theorem selected_candidates_never_drops_good ct kt cl sel :
  selected_candidates ct kt cl = Ok sel →
  sel `sublist_of` candidates cl
  ∧ (∀ c s, c ∈ candidates cl → cand_score c = Ok s → (kt < s)%Q → c ∈ sel)
  ∧ (∃ total, cross_score cl = Ok (Some total)
       ∧ ((ct < total)%Q → sel = candidates cl)
       ∧ (¬ (ct < total)%Q →
          ∀ c, c ∈ sel → ∃ s, cand_score c = Ok s ∧ (kt < s)%Q))
  ∧ selected_candidates_of ct kt None = Raise TypeError.
Proof.
  unfold selected_candidates, selected_candidates_of, cross_score, cross_score_of.
  destruct (scores (candidates cl)) as [ss|e] eqn:Es; simpl; [|done].
  destruct (Qlt_bool ct (round3 (py_sum ss))) eqn:Et.
  - intros [= <-]. split_and!; try done.
    exists (round3 (py_sum ss)). split; [done|]. split; [done|].
    intros Hn. by apply Qlt_bool_iff in Et.
  - destruct (with_keys cand_score (candidates cl)) as [keyed|e] eqn:Ek; simpl; [|done].
    intros [= <-]. apply with_keys_inv in Ek as [Hl Hk].
    rewrite (filter_keyed cand_score (Qlt_bool kt) keyed Hk), Hl.
    assert (∀ c, c ∈ List.filter
                   (λ x, match cand_score x with Ok k => Qlt_bool kt k | Raise _ => false end)
                   (candidates cl)
                 ↔ c ∈ candidates cl ∧ ∃ s, cand_score c = Ok s ∧ (kt < s)%Q) as Hmem.
    { intros c. rewrite elem_of_List_filter. split.
      - intros [Hc Hs]. split; [done|].
        destruct (cand_score c) as [s|]; [|done]. exists s. split; [done|].
        by apply Qlt_bool_iff.
      - intros [Hc (s & -> & Hs)]. split; [done|]. by apply Qlt_bool_iff. }
    split_and!; try done.
    + apply List_filter_sublist.
    + intros c s Hc Hs Hlt. apply Hmem. eauto.
    + exists (round3 (py_sum ss)). split; [done|]. split.
      * intros Hlt%Qlt_bool_iff. congruence.
      * intros _ c Hc. by apply Hmem in Hc as [_ ?].
Qed.

(** A run of the theorem: the scores 5, 4 and 1 of [cluster_overlap] add up to
    10, which is not above the cluster threshold 10, so only the candidates
    above the candidate threshold 2 are selected. *)
Lemma selected_candidates_never_drops_good_witness :
  ∃ sel, selected_candidates 10 2 cluster_overlap = Ok sel
         ∧ (λ c, chain_index c.(chain)) <$> sel = [0; 2]
         ∧ sel `sublist_of` candidates cluster_overlap.
Proof.
  eexists. split; [vm_compute; reflexivity|]. split; [reflexivity|].
  refine (proj1 (selected_candidates_never_drops_good 10 2 cluster_overlap _ _)).
  vm_compute. reflexivity.
Defined.

(** ** The rounds of the engine *)

Tactic Notation "bind_in" hyp(H) "as" simple_intropattern(x) ident(E) :=
  match type of H with
  | (?m ≫= _) = _ =>
      destruct m as [x|?] eqn:E; cbn [mbind result_bind] in H; [|discriminate H]
  end.

Lemma ownership_fold_total (l : list (nat * SummaryCandidate)) (m0 : gmap Z nat) :
  Forall (λ p, is_ok (context p.2) = true) l →
  ∃ m, foldl (λ acc p, m ← acc; cur ← context p.2;
                       Ok (foldl (λ m ch, <[chain_index ch := p.1]> m) m cur.(chains)))
             (Ok m0) l = Ok m.
Proof.
  intros H. revert m0. induction H as [|p l Hp _ IH]; intros m0; [by exists m0|].
  cbn [foldl]. destruct (context p.2) as [cur|]; [|done]. cbn [mbind result_bind].
  apply IH.
Qed.

Lemma ownership_total l :
  Forall (λ c, is_ok (context c) = true) l → ∃ m, ownership l = Ok m.
Proof.
  intros H. apply ownership_fold_total. apply Forall_forall. intros [p c] Hp%elem_of_enumerate.
  rewrite Forall_forall in H. apply H. by eapply list_elem_of_lookup_2.
Qed.

Section RoundFacts.
Variable model : string → Q.
Variables next prev : SentenceChain → Z → list SentenceChain.
Variable threshold : Q.

Lemma tamer_refl c : tamer model c c.
Proof. by split_and!. Qed.

Lemma tamer_trans a b c : tamer model a b → tamer model b c → tamer model a c.
Proof.
  intros (H1 & H2 & H3 & H4) (G1 & G2 & G3 & G4). split_and!; [congruence|auto..].
Qed.

(** A step that keeps, drops, re-stamps or re-selects states, but writes no
    window and no score. *)
Lemma tamer_history c c' :
  chain c' = chain c → (expandable c' = true → expandable c = true) →
  (∀ s', s' ∈ history c' →
     ∃ s, s ∈ history c ∧ chains s' = chains s ∧ score s' = score s) →
  tamer model c c'.
Proof.
  intros Hc He Hh. split_and!; try done.
  - unfold anchored. rewrite !Forall_forall. intros Ha s' Hs'.
    destruct (Hh s' Hs') as (s & Hs & -> & _). rewrite Hc. by apply Ha.
  - unfold scored. rewrite !Forall_forall. intros Ha s' Hs'.
    destruct (Hh s' Hs') as (s & Hs & -> & ->). by apply Ha.
Qed.

Lemma elem_of_alter_window (f : State → State) k (h : list State) s' :
  (∀ s, chains (f s) = chains s ∧ score (f s) = score s) →
  s' ∈ alter f k h → ∃ s, s ∈ h ∧ chains s' = chains s ∧ score s' = score s.
Proof.
  intros Hf (i & Hi)%list_elem_of_lookup_1.
  destruct (decide (i = k)) as [->|Hne].
  - rewrite list_lookup_alter_eq in Hi. destruct (h !! k) as [s|] eqn:Es; [|done].
    injection Hi as <-. exists s. split; [by eapply list_elem_of_lookup_2|apply Hf].
  - rewrite list_lookup_alter_ne in Hi by done. exists s'.
    split; [by eapply list_elem_of_lookup_2|done].
Qed.

Lemma setattr_at_window (f : State → State) h sel h' s' :
  (∀ s, chains (f s) = chains s ∧ score (f s) = score s) →
  setattr_at f h sel = Ok h' → s' ∈ h' →
  ∃ s, s ∈ h ∧ chains s' = chains s ∧ score s' = score s.
Proof. intros Hf (k & _ & ->)%setattr_at_Ok. by apply elem_of_alter_window. Qed.

#[local] Instance tamer_preorder : PreOrder (tamer model).
Proof. split; [exact tamer_refl|exact tamer_trans]. Qed.

Lemma advances_refl st : advances model st st.
Proof.
  split_and!; try done;
    (apply Forall2_same_length_lookup_2; [done|]);
    intros i x y H1 H2; rewrite H1 in H2; injection H2 as <-; apply tamer_refl.
Qed.

Lemma advances_trans a b c : advances model a b → advances model b c → advances model a c.
Proof.
  intros (H1 & H2 & H3 & H4) (G1 & G2 & G3 & G4). split_and!.
  - by etrans.
  - congruence.
  - auto.
  - auto.
Qed.

#[local] Instance advances_preorder : PreOrder (advances model).
Proof. split; [exact advances_refl|exact advances_trans]. Qed.

Lemma advances_core st st' :
  cands st' = cands st → marked_for_deletion st' = marked_for_deletion st →
  (expanded st = true → expanded st' = true) → advances model st st'.
Proof.
  intros H1 H2 H3. destruct (advances_refl st) as (G1 & _).
  split_and!; try done; by rewrite ?H1, ?H2.
Qed.

Lemma advances_set_cand st pos c c' :
  cands st !! pos = Some c → tamer model c c' →
  advances model st (set_cands (<[pos := c']> (cands st)) st).
Proof.
  intros Hc Ht. split_and!; try done. simpl.
  apply Forall2_same_length_lookup_2; [by rewrite length_insert|].
  intros i x y Hx Hy. destruct (decide (i = pos)) as [->|Hne].
  - rewrite list_lookup_insert_eq in Hy by (by eapply lookup_lt_Some).
    injection Hy as <-. congruence.
  - rewrite list_lookup_insert_ne in Hy by done. rewrite Hx in Hy. injection Hy as <-.
    apply tamer_refl.
Qed.

Lemma advances_set_marked st p m :
  setitem (marked_for_deletion st) p true = Ok m → advances model st (set_marked m st).
Proof.
  unfold setitem. destruct (p <? _)%nat eqn:Ep; [|done]. intros [= <-].
  apply Nat.ltb_lt in Ep. destruct (advances_refl st) as (G1 & _).
  split_and!; try done; simpl.
  - by rewrite length_insert.
  - intros q Hq. destruct (decide (q = p)) as [->|Hne].
    + by rewrite list_lookup_insert_eq.
    + by rewrite list_lookup_insert_ne.
Qed.

Lemma setitem_lookup {A} (l : list A) p v m :
  setitem l p v = Ok m → m !! p = Some v.
Proof.
  unfold setitem. destruct (p <? _)%nat eqn:Ep; [|done]. intros [= <-].
  apply Nat.ltb_lt in Ep. by rewrite list_lookup_insert_eq.
Qed.

Lemma cand_at_Ok l pos c : cand_at l pos = Ok c ↔ l !! pos = Some c.
Proof. unfold cand_at. destruct (l !! pos); simpl; split; congruence. Qed.

(** *** What the candidate operations do to the anchor and the flag *)

Lemma optimize_tamer stop ts cons thr c c' r :
  optimize stop ts cons thr c = Ok (c', r) → tamer model c c'.
Proof.
  intros (h & Hh & Hmax)%optimize_inv.
  assert (∀ s', s' ∈ h → ∃ s, s ∈ history c ∧ chains s' = chains s ∧ score s' = score s)
    as Hwin.
  { intros s' Hs'. destruct (selected_state c).
    - by eapply setattr_at_window; [|exact Hh|].
    - subst h. by exists s'. }
  destruct (py_max _ _); destruct Hmax as [_ ->]; apply tamer_history; simpl; try done.
  by destruct (stop && _).
Qed.

Lemma clear_timestamp_tamer ts c c' : clear_timestamp ts c = Ok c' → tamer model c c'.
Proof.
  unfold clear_timestamp. destruct (context c); simpl; [|done].
  destruct (bool_decide (timestamp _ = ts)); [done|].
  destruct (bool_decide (selected_state c = _)); intros [= <-];
    (apply tamer_history; simpl; [done..|]);
    intros s' [Hs' _]%elem_of_List_filter; by exists s'.
Qed.

Lemma clear_history_tamer ex c c' : clear_history ex c = Ok c' → tamer model c c'.
Proof.
  intros (H1 & H2 & f & Hh & _)%clear_history_inv.
  apply tamer_history; [done|congruence|]. rewrite Hh.
  intros s' ([p s] & -> & [Hp _]%elem_of_List_filter)%list_elem_of_fmap.
  apply elem_of_enumerate in Hp. exists s. split; [by eapply list_elem_of_lookup_2|done].
Qed.

Lemma extend_in_superset d n cs cs' :
  extend_in next prev d n cs = Ok cs' → ∃ pre post, cs' = pre ++ cs ++ post.
Proof.
  intros H. pose proof (extend_in_window next prev d n cs) as Hw.
  destruct (head cs), (last cs); rewrite Hw in H; try done. injection H as <-. eauto.
Qed.

Lemma grow_in_tamer d n bf ts c c' :
  grow_in model next prev d n bf ts c = Ok c' → tamer model c c'.
Proof.
  intros [[-> _]|(_ & _ & parent & new & Hp & -> & Hx & Hs & _)]%grow_in_cases;
    [apply tamer_refl|].
  apply getitem_opt_Ok in Hp as (k & _ & Hk). apply list_elem_of_lookup_2 in Hk.
  apply extend_in_superset in Hx as (pre & post & Hx).
  split_and!; simpl; try done.
  - unfold anchored. simpl. intros Ha. apply Forall_app. split; [done|].
    constructor; [|done]. rewrite Forall_forall in Ha. rewrite Hx.
    apply elem_of_app. right. apply elem_of_app. left. by apply Ha.
  - unfold scored. simpl. intros Ha. apply Forall_app. split; [done|]. by constructor.
Qed.

Lemma expand_tamer ts c c' : expand model next prev ts c = Ok c' → tamer model c c'.
Proof.
  unfold expand. intros H.
  set (c0 := if bool_decide (selected_state c = Some (-1))
             then set_selected_state (Some (Z.of_nat (length (history c)) - 1)) c else c) in H.
  assert (chain c0 = chain c ∧ expandable c0 = expandable c ∧ history c0 = history c)
    as (Hc0 & He0 & Hh0) by (unfold c0; by destruct (bool_decide _)).
  bind_in H as h Eh.
  assert (tamer model c (set_history h c0)) as H1.
  { apply tamer_history; simpl; [done|congruence|]. intros s' Hs'. rewrite <- Hh0.
    by eapply setattr_at_window; [|exact Eh|]. }
  bind_in H as cur Ec.
  destruct (_ || _).
  - bind_in H as c1 E1. bind_in H as c2 E2.
    apply (grow_in_tamer Left) in E1. apply (grow_in_tamer Right) in E2.
    apply (grow_in_tamer Bidirectional) in H.
    etrans; [exact H1|]. etrans; [exact E1|]. by etrans.
  - destruct (from_option _ _ _).
    + apply (grow_in_tamer Left) in H. by etrans.
    + destruct (from_option _ _ _).
      * apply (grow_in_tamer Right) in H. by etrans.
      * by injection H as <-.
Qed.

(** *** The steps of a round *)

Lemma skip_rules_advances pos st st' :
  skip_rules pos st = Ok (Some st') →
  advances model st st'
  ∧ (marked_for_deletion st' !! pos = Some true
     ∨ ∃ c, cands st' !! pos = Some c ∧ expandable c = false).
Proof.
  unfold skip_rules. intros H. bind_in H as m Em.
  destruct (marked_for_deletion st !! pos) as [m'|] eqn:Em'; [|done]. injection Em as ->.
  destruct m.
  { injection H as <-. split; [apply advances_refl|by left]. }
  bind_in H as c Ec. apply cand_at_Ok in Ec.
  destruct (expandable c) eqn:Ee; cbn [negb] in H.
  - destruct (bool_decide _); [|done]. bind_in H as mk Emk. injection H as <-.
    split; [by eapply advances_set_marked|]. left. by eapply setitem_lookup.
  - bind_in H as cur Ecur. injection H as <-.
    destruct (claim_all_spec pos (chains cur) st) as (H1 & H2 & H3 & _).
    split; [apply advances_core; [done..|by rewrite H3]|].
    right. exists c. by rewrite H1.
Qed.

Lemma grow_and_select_advances ts pos st st' :
  grow_and_select model next prev threshold ts pos st = Ok st' → advances model st st'.
Proof.
  unfold grow_and_select. intros H. bind_in H as c Ec. apply cand_at_Ok in Ec.
  bind_in H as c1 E1. bind_in H as r Er. injection H as <-. destruct r as [c2 r].
  eapply advances_set_cand; [done|].
  etrans; [by eapply expand_tamer|]. by eapply optimize_tamer.
Qed.

Lemma conflict_step_advances ts pos st f :
  conflict_step threshold ts pos st = Ok f →
  advances model st (match f with Break s | Continue s => s end).
Proof.
  unfold conflict_step. intros H. bind_in H as c Ec. apply cand_at_Ok in Ec.
  bind_in H as cur Ecur.
  destruct (List.filter _ _) as [|f0 [|f1 [|f2 rest]]].
  - injection H as <-. apply advances_refl.
  - bind_in H as owner Eo. bind_in H as other Eoc. bind_in H as mine Em.
    bind_in H as theirs Et. destruct (Qlt_bool _ _).
    + bind_in H as mk Emk. injection H as <-.
      etrans; [by eapply advances_set_marked|]. by apply advances_core.
    + bind_in H as i0 Ei. bind_in H as h Eh. bind_in H as r Er. injection H as <-.
      destruct r as [c1 r]. eapply advances_set_cand; [done|].
      apply optimize_tamer in Er. cbn [fst].
      etrans; [|destruct (bool_decide _); [|reflexivity];
                apply tamer_history; simpl; [done..|]; intros s' Hs'; by exists s'].
      etrans; [|exact Er]. apply tamer_history; simpl; [done..|].
      intros s' Hs'. exists s'. split; [|done].
      unfold pop_at in Eh. destruct (selected_state c) as [i|]; [|done].
      destruct (norm_index _ _) as [k|]; [|done]. injection Eh as <-.
      eapply elem_of_sublist; [exact Hs'|apply sublist_delete].
  - bind_in H as owner1 Eo1. bind_in H as other1 Eoc1. bind_in H as owner2 Eo2.
    bind_in H as other2 Eoc2. bind_in H as mine Em. bind_in H as s1 Es1.
    bind_in H as wins Ew. destruct wins.
    + bind_in H as mk1 Emk1. bind_in H as mk2 Emk2. injection H as <-.
      etrans; [by eapply advances_set_marked|].
      etrans; [eapply (advances_set_marked (set_marked mk1 st)); exact Emk2|].
      by apply advances_core.
    + bind_in H as i0 Ei. injection H as <-. eapply advances_set_cand; [done|].
      apply tamer_history; simpl; [done..|]. intros s' Hs'. by exists s'.
  - injection H as <-. apply advances_refl.
Qed.

Lemma while_true_advances ts pos fuel st st' :
  while_true (conflict_step threshold ts pos) fuel st = Done st' → advances model st st'.
Proof.
  revert st. induction fuel as [|fuel IH]; intros st; simpl; [done|].
  destruct (conflict_step threshold ts pos st) as [[s|s]|e] eqn:Es; [| |done].
  - intros [= <-]. by apply conflict_step_advances in Es.
  - intros H. apply conflict_step_advances in Es. etrans; [exact Es|]. by apply IH.
Qed.

Lemma enforce_one_advances prf pos st ch st' :
  enforce_one threshold prf pos st ch = Ok st' → advances model st st'.
Proof.
  unfold enforce_one. intros H.
  destruct (prf !! chain_index ch) as [p|]; [|injection H as <-; apply advances_refl].
  destruct (_ && _); [|injection H as <-; apply advances_refl].
  bind_in H as bad Eb. apply cand_at_Ok in Eb. bind_in H as r Er. destruct r as [c1 r].
  apply optimize_tamer in Er. cbn [fst snd] in H.
  assert (advances model st (set_cands (<[p:=c1]> (cands st)) st)) as Ha
    by (by eapply advances_set_cand).
  destruct r; [by injection H as <-|].
  bind_in H as mk Emk. injection H as <-. etrans; [exact Ha|].
  by eapply (advances_set_marked (set_cands _ st)).
Qed.

Lemma enforce_advances prf pos l st st' :
  enforce threshold prf pos l st = Ok st' → advances model st st'.
Proof.
  revert st. induction l as [|ch l IH]; intros st.
  - simpl. intros [= <-]. apply advances_refl.
  - change (enforce threshold prf pos (ch :: l) st)
      with (enforce_one threshold prf pos st ch ≫= enforce threshold prf pos l).
    intros H. bind_in H as s1 E1. apply enforce_one_advances in E1.
    etrans; [exact E1|]. by apply IH.
Qed.

Lemma claim_unseen_core pos (l : list SentenceChain) st :
  let st' := foldl (λ st c, if bool_decide (chain_index c ∈ st.(seen_chains))
                            then st else claim pos (chain_index c) st) st l in
  cands st' = cands st ∧ marked_for_deletion st' = marked_for_deletion st
  ∧ expanded st' = expanded st.
Proof.
  revert st. induction l as [|c l IH]; intros st; cbn [foldl]; [done|].
  destruct (bool_decide _); [apply IH|].
  destruct (IH (claim pos (chain_index c) st)) as (H1 & H2 & H3). cbv zeta.
  by rewrite H1, H2, H3.
Qed.

Lemma settle_advances ts prf pos st st' :
  settle threshold ts prf pos st = Ok st' →
  advances model st st'
  ∧ (expanded st' = false → ∃ c, cands st' !! pos = Some c ∧ expandable c = false).
Proof.
  unfold settle. intros H. bind_in H as c Ec. apply cand_at_Ok in Ec.
  bind_in H as c1 E1. apply clear_timestamp_tamer in E1. bind_in H as cur Ecur.
  pose proof (advances_set_cand st pos c c1 Ec E1) as H1.
  destruct (claim_unseen_core pos (chains cur) (set_cands (<[pos:=c1]> (cands st)) st))
    as (G1 & G2 & G3).
  cbv zeta in G1, G2, G3.
  set (st2 := foldl _ _ (chains cur)) in *.
  assert (advances model st st2) as H2.
  { etrans; [exact H1|]. apply advances_core; [done..|]. by rewrite G3. }
  bind_in H as st3 E3. bind_in H as c3 Ec3. apply cand_at_Ok in Ec3. injection H as <-.
  assert (advances model st2 st3) as H3.
  { destruct prf as [p|]; [by eapply enforce_advances|]. injection E3 as <-.
    apply advances_refl. }
  split.
  - etrans; [exact H2|]. etrans; [exact H3|]. apply advances_core; [done..|].
    simpl. by intros ->.
  - simpl. intros [_ He]%orb_false_iff. by exists c3.
Qed.

(** After the candidate at [pos] is dealt with, either the round has
    [expanded], or the candidate is marked for deletion or not expandable. *)
Lemma process_advances fuel ts prf pos st st' :
  process model next prev threshold fuel ts prf pos st = Done st' →
  advances model st st'
  ∧ (expanded st' = false →
     marked_for_deletion st' !! pos = Some true
     ∨ ∃ c, cands st' !! pos = Some c ∧ expandable c = false).
Proof.
  unfold process. intros H.
  destruct (skip_rules pos st) as [[s|]|e] eqn:Es; simpl in H; [| |done].
  - injection H as <-. apply skip_rules_advances in Es as [H1 H2]. by split.
  - destruct (grow_and_select model next prev threshold ts pos st) as [s1|e] eqn:Eg;
      simpl in H; [|done].
    destruct (while_true _ fuel s1) as [s2|e|] eqn:Ew; simpl in H; [|done..].
    destruct (settle threshold ts prf pos s2) as [s3|e] eqn:Et; simpl in H; [|done].
    injection H as <-.
    apply grow_and_select_advances in Eg. apply while_true_advances in Ew.
    apply settle_advances in Et as [H3 H4]. split; [|by right; apply H4].
    etrans; [exact Eg|]. by etrans.
Qed.

Lemma advances_lookup st st' p c :
  advances model st st' → cands st !! p = Some c →
  ∃ c', cands st' !! p = Some c' ∧ tamer model c c'.
Proof. intros (H & _) Hc. by eapply Forall2_lookup_l. Qed.

Lemma advances_anchors st st' : advances model st st' → chain <$> cands st' = chain <$> cands st.
Proof.
  intros (H & _). induction H as [|c c' l l' [Hc _] _ IH]; [done|].
  by rewrite !fmap_cons, Hc, IH.
Qed.

(** [settled st p]: the candidate at position [p] will not grow any more. *)
Lemma settled_advances st st' p :
  advances model st st' →
  (marked_for_deletion st !! p = Some true
   ∨ ∃ c, cands st !! p = Some c ∧ expandable c = false) →
  marked_for_deletion st' !! p = Some true
  ∨ ∃ c, cands st' !! p = Some c ∧ expandable c = false.
Proof.
  intros Ha [Hm|(c & Hc & He)].
  - left. by apply Ha.
  - right. destruct (advances_lookup _ _ _ _ Ha Hc) as (c' & Hc' & _ & Ht & _).
    exists c'. split; [done|]. destruct (expandable c'); [|done]. rewrite Ht in He; done.
Qed.

Lemma for_each_position_advances fuel ts prf l st st' :
  for_each_position model next prev threshold fuel ts prf l st = Done st' →
  advances model st st'
  ∧ (expanded st' = false →
     ∀ pos, pos ∈ l →
       marked_for_deletion st' !! pos = Some true
       ∨ ∃ c, cands st' !! pos = Some c ∧ expandable c = false).
Proof.
  revert st. induction l as [|pos l IH]; intros st.
  - simpl. intros [= <-]. split; [apply advances_refl|]. intros _ pos Hp.
    by apply elem_of_nil in Hp.
  - change (for_each_position model next prev threshold fuel ts prf (pos :: l) st)
      with (process model next prev threshold fuel ts prf pos st
            ≫= for_each_position model next prev threshold fuel ts prf l).
    destruct (process model next prev threshold fuel ts prf pos st) as [s1|e|] eqn:Ep;
      [|done..].
    intros H. apply process_advances in Ep as [H1 H2].
    apply IH in H as [H3 H4]. split; [by etrans|].
    intros He p [->|Hp]%elem_of_cons; [|by apply H4].
    apply (settled_advances s1); [done|]. apply H2.
    destruct (expanded s1) eqn:E1; [|done]. destruct H3 as (_ & _ & _ & Hx).
    rewrite Hx in He; done.
Qed.

Lemma surviving_sublist st : surviving st `sublist_of` cands st.
Proof.
  unfold surviving. rewrite <- (enumerate_snd (cands st)) at 2.
  apply fmap_sublist, List_filter_sublist.
Qed.

Lemma surviving_frozen st :
  (∀ pos, (pos < length (cands st))%nat →
     marked_for_deletion st !! pos = Some true
     ∨ ∃ c, cands st !! pos = Some c ∧ expandable c = false) →
  all_frozen (surviving st).
Proof.
  intros H. apply Forall_forall. intros c Hc.
  apply list_elem_of_fmap in Hc as ([p c'] & -> & Hf).
  apply elem_of_List_filter in Hf as [Hin Hm]. apply elem_of_enumerate in Hin.
  simpl in *. destruct (H p) as [Hp|(c'' & Hc'' & He)]; [by eapply lookup_lt_Some| |].
  - by rewrite Hp in Hm.
  - congruence.
Qed.

Lemma dedup_distinct seen l keep :
  dedup_scan seen l = Ok keep → distinct_ranges keep.
Proof.
  intros (_ & Hnew & Hdist & _)%dedup_scan_spec. split.
  - apply Forall_forall. intros c Hc. destruct (Hnew c Hc) as (t & -> & _). done.
  - apply NoDup_alt. intros i j x Hi Hj.
    apply list_lookup_fmap_Some in Hi as (a & -> & Ha).
    apply list_lookup_fmap_Some in Hj as (b & Hab & Hb).
    destruct (Hnew a) as (t & Ht & _); [by eapply list_elem_of_lookup_2|].
    destruct (Nat.lt_trichotomy i j) as [Hlt|[->|Hlt]]; [|done|].
    + exfalso. apply (Hdist i j a b t Hlt Ha Hb Ht). congruence.
    + exfalso. apply (Hdist j i b a t Hlt Hb Ha); congruence.
Qed.

Lemma distinct_ranges_perm l l' : l ≡ₚ l' → distinct_ranges l → distinct_ranges l'.
Proof. intros Hp [H1 H2]. split; by rewrite <- Hp. Qed.

Lemma all_frozen_sublist l l' : l `sublist_of` l' → all_frozen l' → all_frozen l.
Proof.
  intros Hs. unfold all_frozen. rewrite !Forall_forall. intros H c Hc.
  apply H. by eapply elem_of_sublist.
Qed.

(** One round: the list it yields and hands to the next round. *)
Lemma round_inv fuel e f :
  round model next prev threshold fuel e = Done f →
  let e' := match f with Break x | Continue x => x end in
  cluster_chains (cluster e') = cluster_chains (cluster e)
  ∧ sim (cluster e') = sim (cluster e)
  ∧ snapshots e' = snapshots e ++ [candidates (cluster e')]
  ∧ snapshot_ok (candidates (cluster e)) (candidates (cluster e'))
  ∧ Forall (λ c, is_ok (context c) = true) (candidates (cluster e'))
  ∧ match f with
    | Break _ => all_frozen (candidates (cluster e'))
    | Continue _ => True
    end.
Proof.
  unfold round. intros H.
  set (cs := candidates (cluster e)) in *.
  destruct (for_each_position _ _ _ _ _ _ _ _ _) as [st|x|] eqn:Ef; simpl in H; [|done..].
  apply for_each_position_advances in Ef as [Ha Hfz].
  fold (surviving st) in H.
  destruct (remove_duplicate_candidates _ ≫= rerank_candidates) as [cl|x] eqn:Ecl;
    simpl in H; [|done].
  destruct (ownership (candidates cl)) as [prf|x] eqn:Eo; simpl in H; [|done].
  unfold remove_duplicate_candidates in Ecl. simpl in Ecl.
  destruct (dedup_scan [] (surviving st)) as [keep|x] eqn:Ek; simpl in Ecl; [|done].
  unfold rerank_candidates in Ecl. simpl in Ecl.
  destruct (rerank_list keep) as [l|x] eqn:Er; simpl in Ecl; [|done].
  injection Ecl as <-.
  pose proof (rerank_list_perm _ _ Er) as Hperm.
  pose proof (dedup_scan_spec _ _ _ Ek) as (Hsub & _).
  assert (snapshot_ok cs l) as Hsnap.
  { split_and!.
    - rewrite Hperm. apply advances_anchors in Ha. simpl in Ha. rewrite <- Ha.
      apply sublist_submseteq, fmap_sublist. etrans; [exact Hsub|apply surviving_sublist].
    - by eapply rerank_list_fixed.
    - eapply distinct_ranges_perm; [symmetry; exact Hperm|]. by eapply dedup_distinct. }
  assert (Forall (λ c, is_ok (context c) = true) l) as Hctx.
  { apply rerank_list_spec in Er as (keyed & Hk & ->).
    apply with_keys_inv in Hk as [Hl Hk]. apply Forall_forall. intros c Hc.
    rewrite sort_by_perm in Hc. apply list_elem_of_fmap in Hc as (p & -> & Hp).
    rewrite Forall_forall in Hk. apply Hk in Hp. apply rank_key_inv in Hp as [Hp _].
    unfold cand_score in Hp. by destruct (context p.2). }
  destruct (expanded st) eqn:Ex; simpl in H; injection H as <-; simpl; split_and!; try done.
  unfold all_frozen. rewrite Hperm. eapply all_frozen_sublist; [exact Hsub|].
  apply surviving_frozen. intros pos Hpos. apply Hfz; [done|].
  apply elem_of_seq. destruct Ha as (Hlen%Forall2_length & _). simpl in Hlen. lia.
Qed.

Lemma snapshot_ok_trans l0 l1 s :
  chain <$> l1 ⊆+ chain <$> l0 → snapshot_ok l1 s → snapshot_ok l0 s.
Proof. intros H (H1 & H2 & H3). split_and!; try done. by etrans. Qed.

Lemma rounds_inv fuel inner e e' :
  rounds model next prev threshold fuel inner e = Done e' →
  cluster_chains (cluster e') = cluster_chains (cluster e)
  ∧ sim (cluster e') = sim (cluster e)
  ∧ all_frozen (candidates (cluster e'))
  ∧ Forall (λ c, is_ok (context c) = true) (candidates (cluster e'))
  ∧ snapshot_ok (candidates (cluster e)) (candidates (cluster e'))
  ∧ ∃ new, snapshots e' = snapshots e ++ new
           ∧ last new = Some (candidates (cluster e'))
           ∧ Forall (snapshot_ok (candidates (cluster e))) new.
Proof.
  revert e. induction fuel as [|fuel IH]; intros e; simpl; [done|].
  destruct (round model next prev threshold inner e) as [f|x|] eqn:Er; simpl; [|done..].
  apply round_inv in Er. cbv zeta in Er.
  destruct f as [e1|e1]; destruct Er as (H1 & H2 & H3 & H4 & H5 & H6).
  - intros [= <-]. split_and!; try done.
    exists [candidates (cluster e1)]. split_and!; try done. by constructor.
  - intros H. apply IH in H as (G1 & G2 & G3 & G4 & G5 & new & G6 & G7 & G8).
    destruct H4 as (Hanch & Hrest).
    split_and!; try congruence; try done.
    + by eapply snapshot_ok_trans.
    + exists (candidates (cluster e1) :: new). split_and!.
      * rewrite G6, H3. by rewrite <- app_assoc.
      * rewrite last_cons, G7. done.
      * constructor; [by split|].
        eapply Forall_impl; [exact G8|]. intros s. by apply snapshot_ok_trans.
Qed.

(** What the engine returns, in one statement. *)
Lemma context_expansion_inv fuel cl cl' snaps :
  context_expansion model next prev threshold fuel cl = Done (cl', snaps) →
  cluster_chains cl' = cluster_chains cl ∧ sim cl' = sim cl
  ∧ ∃ final,
      last snaps = Some final
      ∧ Forall (snapshot_ok (candidates cl)) snaps
      ∧ all_frozen final
      ∧ Forall2 (λ c c', clear_history [] c = Ok c') final (candidates cl')
      ∧ Forall (λ c, is_ok (context c) = true) final.
Proof.
  unfold context_expansion.
  destruct (rounds _ _ _ _ _ _ _) as [e|x|] eqn:Er; simpl; [|done..].
  destruct (mapM (clear_history []) (candidates (cluster e))) as [l|x] eqn:El; simpl; [|done].
  intros [= <- <-]. apply rounds_inv in Er as (H1 & H2 & H3 & H4 & H5 & new & H6 & H7 & H8).
  simpl in *. subst. split_and!; try done.
  exists (candidates (cluster e)). split_and!; try done.
  by apply mapM_result_Forall2.
Qed.

(** A pass that gets as far as its [yield] also completes: the ownership
    map is built from contexts that [rerank_candidates] has read. So a pass
    yields exactly when it completes, and yields the candidates it leaves in
    the cluster. *)
Lemma pass_to_yield_spec inner e :
  match pass_to_yield model next prev threshold inner e with
  | Done s => ∃ f, round model next prev threshold inner e = Done f
                   ∧ s = candidates (cluster (match f with Break x | Continue x => x end))
  | Crashed x => round model next prev threshold inner e = Crashed x
  | OutOfFuel => round model next prev threshold inner e = OutOfFuel
  end.
Proof.
  unfold pass_to_yield, round, surviving.
  destruct (for_each_position _ _ _ _ _ _ _ _ _) as [st|x|]; simpl; [|done..].
  destruct (remove_duplicate_candidates _ ≫= rerank_candidates) as [cl|x] eqn:Ecl;
    simpl; [|done].
  assert (∃ m, ownership (candidates cl) = Ok m) as (m & ->).
  { apply ownership_total.
    unfold remove_duplicate_candidates in Ecl. simpl in Ecl.
    destruct (dedup_scan [] _) as [keep|x] eqn:Ek; simpl in Ecl; [|done].
    unfold rerank_candidates in Ecl. simpl in Ecl.
    destruct (rerank_list keep) as [l|x] eqn:Er; simpl in Ecl; [|done].
    injection Ecl as <-. simpl.
    apply rerank_list_spec in Er as (keyed & Hk & ->).
    apply with_keys_inv in Hk as [Hl Hk]. apply Forall_forall. intros c Hc.
    rewrite sort_by_perm in Hc. apply list_elem_of_fmap in Hc as (p & -> & Hp).
    rewrite Forall_forall in Hk. apply Hk in Hp. apply rank_key_inv in Hp as [Hp _].
    unfold cand_score in Hp. by destruct (context p.2). }
  simpl. destruct (expanded st); simpl; eauto.
Qed.

Lemma yielded_ranked fuel inner e :
  Forall (λ s, rerank_list s = Ok s ∧ distinct_ranges s
               ∧ Forall (λ c, is_ok (context c) = true) s)
         (yielded model next prev threshold fuel inner e).
Proof.
  revert e. induction fuel as [|fuel IH]; intros e; simpl; [done|].
  pose proof (pass_to_yield_spec inner e) as Hp.
  destruct (pass_to_yield model next prev threshold inner e) as [s|x|]; [|done..].
  destruct Hp as (f & Er & ->). rewrite Er.
  apply round_inv in Er. cbv zeta in Er.
  destruct Er as (_ & _ & _ & (_ & H1 & H2) & H3 & _).
  constructor; [done|]. destruct f as [e1|e1]; [done|apply IH].
Qed.

Lemma rounds_yielded fuel inner e e' :
  rounds model next prev threshold fuel inner e = Done e' →
  snapshots e' = snapshots e ++ yielded model next prev threshold fuel inner e
  ∧ last (yielded model next prev threshold fuel inner e) = Some (candidates (cluster e')).
Proof.
  revert e. induction fuel as [|fuel IH]; intros e; simpl; [done|].
  pose proof (pass_to_yield_spec inner e) as Hp.
  destruct (round model next prev threshold inner e) as [f|x|] eqn:Er; simpl; [|done..].
  destruct (pass_to_yield model next prev threshold inner e) as [s|x|]; [|done..].
  destruct Hp as (f' & [= <-] & ->).
  apply round_inv in Er. cbv zeta in Er. destruct Er as (_ & _ & H3 & _).
  destruct f as [e1|e1].
  - intros [= <-]. by split.
  - intros [H1 H2]%IH. split.
    + by rewrite H1, H3, <- app_assoc.
    + rewrite last_cons, H2. done.
Qed.

End RoundFacts.

Section EngineResults.
Variable model : string → Q.
Variables next prev : SentenceChain → Z → list SentenceChain.
Variable threshold : Q.

(** X13. When the engine returns, no candidate of the cluster is expandable;
    the chains of the cluster and its similarity are untouched. *)
Theorem engine_returns_frozen fuel cl cl' snaps :
  context_expansion model next prev threshold fuel cl = Done (cl', snaps) →
  all_frozen (candidates cl')
  ∧ cluster_chains cl' = cluster_chains cl ∧ sim cl' = sim cl.
Proof.
  intros (H1 & H2 & final & _ & _ & Hfz & Hcl & _)%context_expansion_inv.
  split; [|done]. unfold all_frozen in *. clear -Hfz Hcl.
  induction Hcl as [|c c' l l' H _ IH]; [done|].
  apply Forall_cons in Hfz as [Hc Hl]. constructor; [|by apply IH].
  apply clear_history_inv in H as (_ & -> & _). done.
Qed.

(** X14. The engine never adds a candidate and never changes an anchor: the
    anchors of the candidates it returns are anchors of the candidates it was
    given, each used at most as often, so there are no more candidates than
    before. *)
Theorem engine_never_adds_candidates fuel cl cl' snaps :
  context_expansion model next prev threshold fuel cl = Done (cl', snaps) →
  chain <$> candidates cl' ⊆+ chain <$> candidates cl
  ∧ (length (candidates cl') ≤ length (candidates cl))%nat
  ∧ ∀ c', c' ∈ candidates cl' → ∃ c, c ∈ candidates cl ∧ chain c = chain c'.
Proof.
  intros (_ & _ & final & Hlast & Hsn & _ & Hcl & _)%context_expansion_inv.
  assert (snapshot_ok (candidates cl) final) as (Hsub & _).
  { rewrite Forall_forall in Hsn. apply Hsn. apply last_Some in Hlast as (l & ->).
    apply elem_of_app. right. by left. }
  assert (chain <$> candidates cl' = chain <$> final) as Heq.
  { clear -Hcl. induction Hcl as [|c c' l l' H _ IH]; [done|].
    rewrite !fmap_cons, IH. f_equal. by apply clear_history_inv in H as (-> & _). }
  rewrite <- Heq in Hsub. split; [done|]. split.
  - apply submseteq_length in Hsub. by rewrite !length_fmap in Hsub.
  - intros c' Hc'.
    assert (chain c' ∈ chain <$> candidates cl) as Hin.
    { eapply elem_of_submseteq; [|exact Hsub]. apply list_elem_of_fmap. eauto. }
    apply list_elem_of_fmap in Hin as (c & Hc & Hin). eauto.
Qed.

(** X15. Every list the generator yields, in any run and whatever happens
    in later passes (the run returns, raises, or does not end), is ranked
    (re-ranking it changes nothing), holds no two candidates with the same
    index range, and every context in it can be read. When the run returns,
    the lists it has yielded are these, there is a last one, and the
    candidates returned are those of the last list, in the same order, each
    after [clear_history()]. *)
Theorem engine_snapshots_ranked fuel inner cl :
  Forall (λ s, rerank_list s = Ok s ∧ distinct_ranges s
               ∧ Forall (λ c, is_ok (context c) = true) s)
         (yielded model next prev threshold fuel inner (mkEngine cl 0 None []))
  ∧ ∀ cl' snaps,
      context_expansion model next prev threshold fuel cl = Done (cl', snaps) →
      snaps = yielded model next prev threshold fuel fuel (mkEngine cl 0 None [])
      ∧ ∃ final, last snaps = Some final
                 ∧ Forall2 (λ c c', clear_history [] c = Ok c') final (candidates cl').
Proof.
  split; [apply yielded_ranked|].
  intros cl' snaps. unfold context_expansion.
  destruct (rounds _ _ _ _ _ _ _) as [e|x|] eqn:Er; simpl; [|done..].
  destruct (mapM (clear_history []) (candidates (cluster e))) as [l|x] eqn:El; simpl; [|done].
  intros [= <- <-]. apply rounds_yielded in Er as [H1 H2]. simpl in H1.
  split; [done|]. exists (candidates (cluster e)). split; [by rewrite H1|].
  by apply mapM_result_Forall2.
Qed.

End EngineResults.

(** A run of the theorem: of the two seeds of [pair_cluster] the one at
    unit 5 grows into the window 4-5 and is returned, not expandable. *)
Lemma engine_returns_frozen_witness :
  ∃ cl' snaps,
    context_expansion model_def (doc_next doc_def) (doc_prev doc_def) default_threshold
      2 pair_cluster = Done (cl', snaps)
    ∧ all_frozen (candidates cl').
Proof.
  eexists. eexists. split; [vm_compute; reflexivity|].
  refine (proj1 (engine_returns_frozen model_def (doc_next doc_def) (doc_prev doc_def)
                   default_threshold 2 pair_cluster _ _ _)).
  vm_compute. reflexivity.
Defined.

(** A run of the theorem: the seed at unit 4 is deleted, the anchor 5 stays. *)
Lemma engine_never_adds_candidates_witness :
  ∃ cl' snaps,
    context_expansion model_def (doc_next doc_def) (doc_prev doc_def) default_threshold
      2 pair_cluster = Done (cl', snaps)
    ∧ chain_index <$> (chain <$> candidates cl') = [5]
    ∧ chain <$> candidates cl' ⊆+ chain <$> candidates pair_cluster.
Proof.
  eexists. eexists. split; [vm_compute; reflexivity|]. split; [reflexivity|].
  refine (proj1 (engine_never_adds_candidates model_def (doc_next doc_def) (doc_prev doc_def)
                   default_threshold 2 pair_cluster _ _ _)).
  vm_compute. reflexivity.
Defined.

(** A run of the theorem: two passes, two lists, and the run returns. *)
Lemma engine_snapshots_ranked_witness :
  ∃ cl' snaps,
    context_expansion model_def (doc_next doc_def) (doc_prev doc_def) default_threshold
      2 pair_cluster = Done (cl', snaps)
    ∧ length snaps = 2%nat
    ∧ snaps = yielded model_def (doc_next doc_def) (doc_prev doc_def) default_threshold 2 2
                (mkEngine pair_cluster 0 None [])
    ∧ Forall (λ s, rerank_list s = Ok s ∧ distinct_ranges s
                   ∧ Forall (λ c, is_ok (context c) = true) s) snaps
    ∧ ∃ final, last snaps = Some final
               ∧ Forall2 (λ c c', clear_history [] c = Ok c') final (candidates cl').
Proof.
  destruct (engine_snapshots_ranked model_def (doc_next doc_def) (doc_prev doc_def)
              default_threshold 2 2 pair_cluster) as [H1 H2].
  edestruct H2 as [H3 H4]; [vm_compute; reflexivity|].
  eexists _, _. split; [vm_compute; reflexivity|]. split; [reflexivity|].
  split; [exact H3|]. split; [|exact H4].
  exact (eq_ind_r (Forall _) H1 H3).
Defined.

(** *** A cluster that has stopped growing *)

Lemma List_filter_all {A} (f : A → bool) (l : list A) :
  Forall (λ x, f x = true) l → List.filter f l = l.
Proof. induction 1 as [|x l Hx _ IH]; simpl; [done|]. by rewrite Hx, IH. Qed.

Lemma surviving_all st :
  marked_for_deletion st = replicate (length (cands st)) false → surviving st = cands st.
Proof.
  intros Hm. unfold surviving. rewrite List_filter_all; [apply enumerate_snd|].
  apply Forall_forall. intros [p c] Hp%elem_of_enumerate. simpl in *.
  rewrite Hm, lookup_replicate_2; [done|]. by eapply lookup_lt_Some.
Qed.

Section FrozenCluster.
Variable model : string → Q.
Variables next prev : SentenceChain → Z → list SentenceChain.
Variable threshold : Q.

Lemma process_frozen fuel ts prf pos st c :
  marked_for_deletion st !! pos = Some false →
  cands st !! pos = Some c → expandable c = false → is_ok (context c) = true →
  ∃ st', process model next prev threshold fuel ts prf pos st = Done st'
         ∧ cands st' = cands st ∧ marked_for_deletion st' = marked_for_deletion st
         ∧ expanded st' = expanded st.
Proof.
  intros Hm Hc He Hctx. unfold process, skip_rules, cand_at.
  rewrite Hm, Hc. cbn [from_option mbind result_bind]. rewrite He. cbn [negb].
  destruct (context c) as [cur|]; [|done]. cbn [mbind result_bind lift run_bind].
  eexists. split; [done|].
  by destruct (claim_all_spec pos (chains cur) st) as (H1 & H2 & H3 & _).
Qed.

Lemma for_each_frozen fuel ts prf l st :
  all_frozen (cands st) → Forall (λ c, is_ok (context c) = true) (cands st) →
  (∀ pos, pos ∈ l → marked_for_deletion st !! pos = Some false
                    ∧ (pos < length (cands st))%nat) →
  ∃ st', for_each_position model next prev threshold fuel ts prf l st = Done st'
         ∧ cands st' = cands st ∧ marked_for_deletion st' = marked_for_deletion st
         ∧ expanded st' = expanded st.
Proof.
  revert st. induction l as [|pos l IH]; intros st Hfz Hctx Hl; [by exists st|].
  destruct (Hl pos) as [Hm Hlt]; [by left|].
  destruct (lookup_lt_is_Some_2 _ _ Hlt) as [c Hc].
  destruct (process_frozen fuel ts prf pos st c Hm Hc) as (s1 & Hp & H1 & H2 & H3).
  { unfold all_frozen in Hfz. rewrite Forall_forall in Hfz. apply Hfz.
    by eapply list_elem_of_lookup_2. }
  { rewrite Forall_forall in Hctx. apply Hctx. by eapply list_elem_of_lookup_2. }
  destruct (IH s1) as (s2 & Hf & G1 & G2 & G3).
  - by rewrite H1.
  - by rewrite H1.
  - intros p Hp'. rewrite H1, H2. apply Hl. by right.
  - exists s2. split; [|split_and!; congruence].
    change (for_each_position model next prev threshold fuel ts prf (pos :: l) st)
      with (process model next prev threshold fuel ts prf pos st
            ≫= for_each_position model next prev threshold fuel ts prf l).
    by rewrite Hp.
Qed.

Lemma frozen_cluster_run fuel cl :
  all_frozen (candidates cl) →
  Forall (λ c, is_ok (context c) = true) (candidates cl) →
  context_expansion model next prev threshold (S fuel) cl
  = (cl1 ← lift (remove_duplicate_candidates cl ≫= rerank_candidates);
     l ← lift (mapM (clear_history []) (candidates cl1));
     Done (set_candidates l cl1, [candidates cl1])).
Proof.
  intros Hfz Hctx.
  unfold context_expansion. cbn [rounds]. unfold round.
  cbn [cluster round_timestamp prev_round snapshots].
  set (st0 := mkRound (candidates cl) ∅ ∅ (replicate (length (candidates cl)) false) false).
  destruct (for_each_frozen (S fuel) 0 None (seq 0 (length (candidates cl))) st0)
    as (st & Hf & H1 & H2 & H3); [done..| |].
  { intros pos Hp%elem_of_seq. simpl. split; [|lia]. apply lookup_replicate_2. lia. }
  rewrite Hf. cbn [mbind run_bind].
  fold (surviving st). rewrite surviving_all by (by rewrite H1, H2).
  rewrite H1, H3. simpl cands.
  assert (set_candidates (candidates cl) cl = cl) as -> by (by destruct cl).
  destruct (remove_duplicate_candidates cl ≫= rerank_candidates) as [cl1|e] eqn:Ecl;
    [|done].
  cbn [lift mbind run_bind].
  assert (Forall (λ c, is_ok (context c) = true) (candidates cl1)) as Hctx1.
  { unfold remove_duplicate_candidates in Ecl.
    destruct (dedup_scan [] (candidates cl)) as [keep|] eqn:Ek; [|done].
    cbn [mbind result_bind] in Ecl. unfold rerank_candidates in Ecl. simpl in Ecl.
    destruct (rerank_list keep) as [l|] eqn:Er; [|done]. injection Ecl as <-. simpl.
    rewrite (rerank_list_perm _ _ Er).
    apply dedup_scan_spec in Ek as (Hsub & _).
    rewrite Forall_forall in Hctx |- *. intros c Hc. apply Hctx.
    by eapply elem_of_sublist. }
  destruct (ownership_total _ Hctx1) as (m & ->). cbn [lift mbind run_bind negb].
  cbn [cluster snapshots app]. done.
Qed.

(** X16. On a cluster in which no candidate is expandable and every context
    can be read, the engine stops after one round, whatever the threshold:
    no candidate is deleted for sharing units with another one; the cluster
    goes through [remove_duplicate_candidates] and [rerank_candidates], the
    list is yielded once, and every history is cleared. A cluster without
    candidates comes back as it is, after one empty list was yielded. *)
Theorem engine_on_frozen_cluster fuel cl :
  all_frozen (candidates cl) →
  Forall (λ c, is_ok (context c) = true) (candidates cl) →
  context_expansion model next prev threshold (S fuel) cl
  = (cl1 ← lift (remove_duplicate_candidates cl ≫= rerank_candidates);
     l ← lift (mapM (clear_history []) (candidates cl1));
     Done (set_candidates l cl1, [candidates cl1]))
  ∧ (candidates cl = [] →
     context_expansion model next prev threshold (S fuel) cl = Done (cl, [[]])).
Proof.
  intros Hfz Hctx. pose proof (frozen_cluster_run fuel cl Hfz Hctx) as Hrun.
  split; [exact Hrun|]. intros Hnil. rewrite Hrun.
  unfold remove_duplicate_candidates, rerank_candidates, rerank_list. rewrite Hnil. simpl.
  destruct cl; simpl in *; by subst.
Qed.

End FrozenCluster.

(** A run of the theorem: the two frozen candidates of [frozen_pair] share
    unit 5 and both come back. *)
Lemma engine_on_frozen_cluster_witness :
  ∃ cl', context_expansion model_def (doc_next doc_def) (doc_prev doc_def) default_threshold
           1 (mkCluster [] 0 frozen_pair) = Done (cl', [frozen_pair])
         ∧ chain_index <$> (chain <$> candidates cl') = [4; 5].
Proof.
  eexists. split.
  - rewrite (proj1 (engine_on_frozen_cluster model_def (doc_next doc_def) (doc_prev doc_def)
                      default_threshold 0 (mkCluster [] 0 frozen_pair)
                      ltac:(repeat constructor) ltac:(repeat constructor))).
    vm_compute. reflexivity.
  - reflexivity.
Defined.

(** *** The selections stay positions *)

Lemma optimize_selects_position stop ts cons thr c c' r :
  optimize stop ts cons thr c = Ok (c', r) → selects_position c → selects_position c'.
Proof.
  intros (h & _ & Hmax)%optimize_inv Hs.
  destruct (py_max _ _) as [n|]; destruct Hmax as [_ ->]; [|done].
  right. exists (Z.of_nat n). split; [done|lia].
Qed.

Lemma clear_timestamp_selects_position ts c c' :
  clear_timestamp ts c = Ok c' → selects_position c'.
Proof.
  intros (cur & _ & _ & _ & Hlast & Hidx)%clear_timestamp_inv.
  destruct (decide (selected_state c = Some (-1))) as [Hs|Hs]; [left; auto|].
  right. destruct (Hidx Hs) as (i & Hi & H0 & _). eauto.
Qed.

Section Selections.
Variable model : string → Q.
Variables next prev : SentenceChain → Z → list SentenceChain.
Variable threshold : Q.

Lemma skip_rules_cands pos st st' :
  skip_rules pos st = Ok (Some st') → cands st' = cands st.
Proof.
  unfold skip_rules. intros H. bind_in H as m Em. destruct m; [by injection H as <-|].
  bind_in H as c Ec. destruct (negb (expandable c)).
  - bind_in H as cur Ecur. injection H as <-.
    by destruct (claim_all_spec pos (chains cur) st) as (H1 & _).
  - destruct (bool_decide _); [|done]. bind_in H as mk Emk. by injection H as <-.
Qed.

Lemma grow_and_select_only_at ts pos st st' p :
  grow_and_select model next prev threshold ts pos st = Ok st' → p ≠ pos →
  cands st' !! p = cands st !! p.
Proof.
  unfold grow_and_select. intros H Hp. bind_in H as c Ec. bind_in H as c1 E1.
  bind_in H as r Er. injection H as <-. simpl. by rewrite list_lookup_insert_ne.
Qed.

Lemma conflict_step_only_at ts pos st f p :
  conflict_step threshold ts pos st = Ok f → p ≠ pos →
  cands (match f with Break s | Continue s => s end) !! p = cands st !! p.
Proof.
  unfold conflict_step. intros H Hp. bind_in H as c Ec. bind_in H as cur Ecur.
  destruct (List.filter _ _) as [|f0 [|f1 [|f2 rest]]].
  - by injection H as <-.
  - bind_in H as owner Eo. bind_in H as other Eoc. bind_in H as mine Em.
    bind_in H as theirs Et. destruct (Qlt_bool _ _).
    + bind_in H as mk Emk. by injection H as <-.
    + bind_in H as i0 Ei. bind_in H as h Eh. bind_in H as r Er. injection H as <-.
      simpl. by rewrite list_lookup_insert_ne.
  - bind_in H as owner1 Eo1. bind_in H as other1 Eoc1. bind_in H as owner2 Eo2.
    bind_in H as other2 Eoc2. bind_in H as mine Em. bind_in H as s1 Es1.
    bind_in H as wins Ew. destruct wins.
    + bind_in H as mk1 Emk1. bind_in H as mk2 Emk2. by injection H as <-.
    + bind_in H as i0 Ei. injection H as <-. simpl. by rewrite list_lookup_insert_ne.
  - by injection H as <-.
Qed.

Lemma while_true_only_at ts pos fuel st st' p :
  while_true (conflict_step threshold ts pos) fuel st = Done st' → p ≠ pos →
  cands st' !! p = cands st !! p.
Proof.
  revert st. induction fuel as [|fuel IH]; intros st; simpl; [done|].
  destruct (conflict_step threshold ts pos st) as [[s|s]|e] eqn:Es; [| |done].
  - intros [= <-] Hp. by apply (conflict_step_only_at _ _ _ _ p) in Es.
  - intros H Hp. apply (conflict_step_only_at _ _ _ _ p) in Es; [|done].
    simpl in Es. rewrite <- Es. by apply IH.
Qed.

Lemma enforce_one_selections prf pos st ch st' :
  enforce_one threshold prf pos st ch = Ok st' →
  Forall selects_position (cands st) → Forall selects_position (cands st').
Proof.
  unfold enforce_one. intros H Hs.
  destruct (prf !! chain_index ch) as [p|]; [|by injection H as <-].
  destruct (_ && _); [|by injection H as <-].
  bind_in H as bad Eb. apply cand_at_Ok in Eb. bind_in H as r Er. destruct r as [c1 r].
  apply optimize_selects_position in Er.
  2:{ rewrite Forall_forall in Hs. apply Hs. by eapply list_elem_of_lookup_2. }
  cbn [fst snd] in H.
  assert (Forall selects_position (<[p:=c1]> (cands st))) as Hs' by (by apply Forall_insert).
  destruct r; [by injection H as <-|]. bind_in H as mk Emk. by injection H as <-.
Qed.

Lemma enforce_selections prf pos l st st' :
  enforce threshold prf pos l st = Ok st' →
  Forall selects_position (cands st) → Forall selects_position (cands st').
Proof.
  revert st. induction l as [|ch l IH]; intros st.
  - simpl. by intros [= <-].
  - change (enforce threshold prf pos (ch :: l) st)
      with (enforce_one threshold prf pos st ch ≫= enforce threshold prf pos l).
    intros H Hs. bind_in H as s1 E1. apply enforce_one_selections in E1; [|done].
    by apply IH in H.
Qed.

Lemma settle_selections ts prf pos st st' :
  settle threshold ts prf pos st = Ok st' →
  (∀ p c, p ≠ pos → cands st !! p = Some c → selects_position c) →
  Forall selects_position (cands st').
Proof.
  unfold settle. intros H Hs. bind_in H as c Ec. apply cand_at_Ok in Ec.
  bind_in H as c1 E1. apply clear_timestamp_selects_position in E1. bind_in H as cur Ecur.
  destruct (claim_unseen_core pos (chains cur) (set_cands (<[pos:=c1]> (cands st)) st))
    as (G1 & _).
  cbv zeta in G1. set (st2 := foldl _ _ (chains cur)) in *.
  assert (Forall selects_position (cands st2)) as H2.
  { rewrite G1. simpl. apply Forall_lookup. intros p x Hx.
    destruct (decide (p = pos)) as [->|Hne].
    - rewrite list_lookup_insert_eq in Hx by (by eapply lookup_lt_Some). by injection Hx as <-.
    - rewrite list_lookup_insert_ne in Hx by done. by eapply Hs. }
  bind_in H as st3 E3. bind_in H as c3 Ec3. injection H as <-. simpl.
  destruct prf as [p|]; [by eapply enforce_selections|]. by injection E3 as <-.
Qed.

Lemma process_selections fuel ts prf pos st st' :
  process model next prev threshold fuel ts prf pos st = Done st' →
  Forall selects_position (cands st) → Forall selects_position (cands st').
Proof.
  unfold process. intros H Hs.
  destruct (skip_rules pos st) as [[s|]|e] eqn:Es; simpl in H; [| |done].
  - injection H as <-. by rewrite (skip_rules_cands _ _ _ Es).
  - destruct (grow_and_select model next prev threshold ts pos st) as [s1|e] eqn:Eg;
      simpl in H; [|done].
    destruct (while_true _ fuel s1) as [s2|e|] eqn:Ew; simpl in H; [|done..].
    destruct (settle threshold ts prf pos s2) as [s3|e] eqn:Et; simpl in H; [|done].
    injection H as <-. eapply settle_selections; [exact Et|].
    intros p c Hp Hc.
    rewrite (while_true_only_at _ _ _ _ _ p Ew Hp) in Hc.
    rewrite (grow_and_select_only_at _ _ _ _ p Eg Hp) in Hc.
    rewrite Forall_forall in Hs. apply Hs. by eapply list_elem_of_lookup_2.
Qed.

Lemma for_each_position_selections fuel ts prf l st st' :
  for_each_position model next prev threshold fuel ts prf l st = Done st' →
  Forall selects_position (cands st) → Forall selects_position (cands st').
Proof.
  revert st. induction l as [|pos l IH]; intros st.
  - simpl. by intros [= <-].
  - change (for_each_position model next prev threshold fuel ts prf (pos :: l) st)
      with (process model next prev threshold fuel ts prf pos st
            ≫= for_each_position model next prev threshold fuel ts prf l).
    destruct (process model next prev threshold fuel ts prf pos st) as [s1|e|] eqn:Ep;
      [|done..].
    intros H Hs. apply process_selections in Ep; [|done]. by apply IH in H.
Qed.

Lemma round_selections fuel e f :
  round model next prev threshold fuel e = Done f →
  Forall selects_position (candidates (cluster e)) →
  Forall selects_position (candidates (cluster (match f with Break x | Continue x => x end))).
Proof.
  unfold round. intros H Hs.
  destruct (for_each_position _ _ _ _ _ _ _ _ _) as [st|x|] eqn:Ef; simpl in H; [|done..].
  apply for_each_position_selections in Ef; [|done].
  fold (surviving st) in H.
  destruct (remove_duplicate_candidates _ ≫= rerank_candidates) as [cl|x] eqn:Ecl;
    simpl in H; [|done].
  destruct (ownership (candidates cl)) as [prf|x] eqn:Eo; simpl in H; [|done].
  unfold remove_duplicate_candidates in Ecl. simpl in Ecl.
  destruct (dedup_scan [] (surviving st)) as [keep|x] eqn:Ek; simpl in Ecl; [|done].
  unfold rerank_candidates in Ecl. simpl in Ecl.
  destruct (rerank_list keep) as [l|x] eqn:Er; simpl in Ecl; [|done].
  injection Ecl as <-.
  assert (Forall selects_position l) as Hl.
  { rewrite (rerank_list_perm _ _ Er). apply dedup_scan_spec in Ek as (Hsub & _).
    rewrite Forall_forall in Ef |- *. intros c Hc. apply Ef.
    eapply elem_of_sublist; [|apply surviving_sublist]. by eapply elem_of_sublist. }
  by destruct (expanded st); simpl in H; injection H as <-.
Qed.

Lemma rounds_selections fuel inner e e' :
  rounds model next prev threshold fuel inner e = Done e' →
  Forall selects_position (candidates (cluster e)) →
  Forall selects_position (candidates (cluster e')).
Proof.
  revert e. induction fuel as [|fuel IH]; intros e; simpl; [done|].
  destruct (round model next prev threshold inner e) as [f|x|] eqn:Er; simpl; [|done..].
  intros H Hs. apply round_selections in Er; [|done].
  destruct f as [e1|e1]; [by injection H as <-|]. by apply IH in H.
Qed.

End Selections.

(** *** Running the engine on its own result *)

Lemma sort_by_fmap {A B} (before : A → A → bool) (before' : B → B → bool) (h : A → B) l :
  (∀ a b, before' (h a) (h b) = before a b) →
  sort_by before' (h <$> l) = h <$> sort_by before l.
Proof.
  intros Hb.
  assert (∀ x k, insert_by before' (h x) (h <$> k) = h <$> insert_by before x k) as Hins.
  { intros x k. induction k as [|y k IH]; [done|]. rewrite fmap_cons. cbn [insert_by].
    rewrite Hb. destruct (before y x); [|done]. by rewrite fmap_cons, <- IH. }
  induction l as [|x l IH]; [done|]. rewrite fmap_cons.
  change (sort_by before' (h x :: (h <$> l)))
    with (insert_by before' (h x) (sort_by before' (h <$> l))).
  change (sort_by before (x :: l)) with (insert_by before x (sort_by before l)).
  by rewrite IH, Hins.
Qed.

Lemma rerank_list_fmap (g : SummaryCandidate → SummaryCandidate) l l1 :
  (∀ c, c ∈ l → rank_key (g c) = rank_key c) →
  rerank_list l = Ok l1 → rerank_list (g <$> l) = Ok (g <$> l1).
Proof.
  intros Hg (keyed & Hk & ->)%rerank_list_spec.
  apply with_keys_inv in Hk as [<- Hk].
  assert (g <$> keyed.*2 = (prod_map id g <$> keyed).*2) as ->.
  { rewrite <- !list_fmap_compose. by apply list_fmap_ext. }
  rewrite rerank_list_intro.
  - rewrite (sort_by_fmap keyed_before keyed_before (prod_map id g)) by done.
    rewrite <- !list_fmap_compose. f_equal.
  - apply Forall_fmap. rewrite Forall_forall in Hk |- *. intros p Hp. simpl.
    rewrite Hg; [by apply Hk|]. apply list_elem_of_fmap. eauto.
Qed.

Lemma dedup_scan_fixed seen l :
  Forall (λ c, ∃ t, range_tuple c = Ok t ∧ t ∉ seen) l → NoDup (range_tuple <$> l) →
  dedup_scan seen l = Ok l.
Proof.
  revert seen. induction l as [|x l IH]; intros seen Hl Hnd; [done|].
  apply Forall_cons in Hl as [(t & Ht & Hn) Hl]. rewrite fmap_cons in Hnd.
  apply NoDup_cons in Hnd as [Hx Hnd].
  cbn [dedup_scan]. fold (range_tuple x). rewrite Ht. cbn [mbind result_bind].
  rewrite bool_decide_eq_false_2 by done. rewrite IH; [done| |done].
  rewrite Forall_forall in Hl |- *. intros c Hc. destruct (Hl c Hc) as (t' & Ht' & Hn').
  exists t'. split; [done|]. intros [->|Hin]%elem_of_cons; [|done].
  apply Hx. rewrite Ht, <- Ht'. apply list_elem_of_fmap. eauto.
Qed.

Lemma clear_history_shape c cur :
  context c = Ok cur → selects_position c →
  clear_history [] c
  = Ok (mkCandidate (chain c)
          (if bool_decide (selected_state c = Some (-1)) then Some (-1) else Some 0)
          [cur] (expandable c)).
Proof.
  intros Hc Hs. destruct (clear_history_plain c cur Hc Hs) as (c' & Hcl & Hh & _).
  rewrite Hcl. f_equal. destruct (clear_history_inv _ _ _ Hcl) as (Hch & He & _).
  assert (selected_state c'
          = if bool_decide (selected_state c = Some (-1)) then Some (-1) else Some 0) as Hsel.
  { unfold clear_history in Hcl. destruct (bool_decide (selected_state c = Some (-1))).
    - by injection Hcl as <-.
    - destruct Hs as [Hs|(i & Hi & _)]; rewrite ?Hs, ?Hi in Hcl; injection Hcl as <-; simpl.
      + done.
      + unfold rank_in. simpl. by rewrite decide_True. }
  destruct c'; simpl in *; by subst.
Qed.

Lemma cleared_spec c cur :
  context c = Ok cur → selects_position c →
  clear_history [] c = Ok (cleared c)
  ∧ context (cleared c) = Ok cur ∧ chain (cleared c) = chain c
  ∧ expandable (cleared c) = expandable c
  ∧ clear_history [] (cleared c) = Ok (cleared c).
Proof.
  intros Hc Hs. pose proof (clear_history_shape c cur Hc Hs) as Hsh.
  unfold cleared. rewrite Hsh. split_and!; try done.
  - by destruct (bool_decide _).
  - destruct (bool_decide (selected_state c = Some (-1))); by vm_compute.
Qed.

Section Idempotence.
Variable model : string → Q.
Variables next prev : SentenceChain → Z → list SentenceChain.
Variable threshold : Q.

(** X17. Running the engine on the cluster it returned changes nothing: it
    stops after one round, yields the candidates once, as they are, and
    returns the same cluster. (The candidates of the first run select [-1]
    or a non-negative index, as every constructed candidate does.) *)
Theorem engine_idempotent fuel fuel' cl cl' snaps :
  Forall selects_position (candidates cl) →
  context_expansion model next prev threshold fuel cl = Done (cl', snaps) →
  context_expansion model next prev threshold (S fuel') cl' = Done (cl', [candidates cl']).
Proof.
  intros Hsel Hrun.
  assert (∃ e, rounds model next prev threshold fuel fuel (mkEngine cl 0 None []) = Done e
               ∧ cl' = set_candidates (cleared <$> candidates (cluster e)) (cluster e)
               ∧ Forall (λ c, ∃ cur, context c = Ok cur ∧ selects_position c
                                     ∧ expandable c = false) (candidates (cluster e))
               ∧ rerank_list (candidates (cluster e)) = Ok (candidates (cluster e))
               ∧ distinct_ranges (candidates (cluster e)))
    as (e & Hr & -> & Hall & Hrank & Hdist).
  { unfold context_expansion in Hrun.
    destruct (rounds _ _ _ _ _ _ _) as [e|x|] eqn:Er; simpl in Hrun; [|done..].
    destruct (mapM (clear_history []) (candidates (cluster e))) as [l|x] eqn:El;
      simpl in Hrun; [|done].
    injection Hrun as <- <-. exists e. split; [done|].
    pose proof (rounds_selections _ _ _ _ _ _ _ _ Er Hsel) as Hs.
    apply rounds_inv in Er as (_ & _ & Hfz & Hctx & (_ & Hrk & Hd) & _).
    assert (Forall (λ c, ∃ cur, context c = Ok cur ∧ selects_position c
                                ∧ expandable c = false) (candidates (cluster e))) as Hall.
    { unfold all_frozen in Hfz. rewrite Forall_forall in Hs, Hfz, Hctx |- *. intros c Hc.
      specialize (Hctx c Hc). destruct (context c) as [cur|] eqn:Ec; [|done].
      exists cur. auto. }
    split_and!; try done. f_equal.
    apply mapM_result_Forall2 in El. clear -El Hall.
    induction El as [|c c' l l' H _ IH]; [done|].
    apply Forall_cons in Hall as [(cur & Hc & Hs & _) Hall].
    rewrite fmap_cons, <- IH by done. f_equal.
    destruct (cleared_spec c cur Hc Hs) as (Hcl & _). congruence. }
  set (final := candidates (cluster e)) in *.
  assert (∀ c, c ∈ final → ∃ cur, context c = Ok cur ∧ context (cleared c) = Ok cur
                                  ∧ chain (cleared c) = chain c
                                  ∧ expandable (cleared c) = false
                                  ∧ clear_history [] (cleared c) = Ok (cleared c)) as Hc.
  { intros c Hin. rewrite Forall_forall in Hall. destruct (Hall c Hin) as (cur & Hc & Hs & He).
    destruct (cleared_spec c cur Hc Hs) as (_ & H1 & H2 & H3 & H4).
    exists cur. split_and!; try done. congruence. }
  rewrite frozen_cluster_run; simpl.
  2:{ apply Forall_fmap, Forall_forall. intros c Hin.
      by destruct (Hc c Hin) as (cur & _ & _ & _ & ? & _). }
  2:{ apply Forall_fmap, Forall_forall. intros c Hin.
      destruct (Hc c Hin) as (cur & _ & H1 & _). simpl. by rewrite H1. }
  assert (∀ c, c ∈ final → range_tuple (cleared c) = range_tuple c) as Hrange.
  { intros c Hin. destruct (Hc c Hin) as (cur & H0 & H1 & _).
    unfold range_tuple, cand_index_range. by rewrite H0, H1. }
  assert (∀ c, c ∈ final → rank_key (cleared c) = rank_key c) as Hkey.
  { intros c Hin. destruct (Hc c Hin) as (cur & H0 & H1 & H2 & _).
    unfold rank_key, cand_score. by rewrite H0, H1, H2. }
  assert (dedup_scan [] (cleared <$> final) = Ok (cleared <$> final)) as Hd.
  { destruct Hdist as [Hok Hnd]. apply dedup_scan_fixed.
    - apply Forall_fmap, Forall_forall. intros c Hin. simpl.
      rewrite Forall_forall in Hok. specialize (Hok c Hin). rewrite Hrange by done.
      destruct (range_tuple c) as [t|]; [|done]. exists t. split; [done|].
      by intros ?%elem_of_nil.
    - rewrite <- list_fmap_compose.
      rewrite (list_fmap_ext (range_tuple ∘ cleared) range_tuple final); [done|].
      intros i c Hi. simpl. apply Hrange. by eapply list_elem_of_lookup_2. }
  unfold remove_duplicate_candidates. simpl. rewrite Hd. simpl.
  unfold rerank_candidates. simpl.
  rewrite (rerank_list_fmap cleared final final Hkey Hrank). simpl.
  assert (mapM (clear_history []) (cleared <$> final) = Ok (cleared <$> final)) as ->.
  { apply mapM_result_Forall2. apply Forall2_same_length_lookup_2; [done|].
    intros i x y Hx Hy. rewrite Hx in Hy. injection Hy as <-.
    apply list_lookup_fmap_Some in Hx as (c & -> & Hi).
    destruct (Hc c) as (cur & _ & _ & _ & _ & ?); [by eapply list_elem_of_lookup_2|done]. }
  done.
Qed.

End Idempotence.

(** A run of the theorem on [pair_cluster]. *)
Lemma engine_idempotent_witness :
  ∃ cl' snaps,
    context_expansion model_def (doc_next doc_def) (doc_prev doc_def) default_threshold
      2 pair_cluster = Done (cl', snaps)
    ∧ context_expansion model_def (doc_next doc_def) (doc_prev doc_def) default_threshold
        1 cl' = Done (cl', [candidates cl']).
Proof.
  eexists. eexists. split; [vm_compute; reflexivity|].
  refine (engine_idempotent model_def (doc_next doc_def) (doc_prev doc_def)
            default_threshold 2 0 pair_cluster _ _ _ _).
  - repeat constructor.
  - vm_compute. reflexivity.
Defined.

(** *** What the engine keeps true of every history *)

Section Histories.
Variable model : string → Q.
Variables next prev : SentenceChain → Z → list SentenceChain.
Variable threshold : Q.
Variable P : SummaryCandidate → Prop.
Hypothesis P_tamer : ∀ c c', tamer model c c' → P c → P c'.

Lemma advances_keeps st st' :
  advances model st st' → Forall P (cands st) → Forall P (cands st').
Proof.
  intros (H & _). induction H as [|c c' l l' Hc _ IH]; [done|].
  intros [Hp Hl]%Forall_cons. constructor; [by eapply P_tamer|by apply IH].
Qed.

Lemma round_keeps fuel e f :
  round model next prev threshold fuel e = Done f →
  Forall P (candidates (cluster e)) →
  Forall P (candidates (cluster (match f with Break x | Continue x => x end))).
Proof.
  unfold round. intros H Hs.
  destruct (for_each_position _ _ _ _ _ _ _ _ _) as [st|x|] eqn:Ef; simpl in H; [|done..].
  apply for_each_position_advances in Ef as [Ef _]. apply advances_keeps in Ef; [|done].
  fold (surviving st) in H.
  destruct (remove_duplicate_candidates _ ≫= rerank_candidates) as [cl|x] eqn:Ecl;
    simpl in H; [|done].
  destruct (ownership (candidates cl)) as [prf|x] eqn:Eo; simpl in H; [|done].
  unfold remove_duplicate_candidates in Ecl. simpl in Ecl.
  destruct (dedup_scan [] (surviving st)) as [keep|x] eqn:Ek; simpl in Ecl; [|done].
  unfold rerank_candidates in Ecl. simpl in Ecl.
  destruct (rerank_list keep) as [l|x] eqn:Er; simpl in Ecl; [|done].
  injection Ecl as <-.
  assert (Forall P l) as Hl.
  { rewrite (rerank_list_perm _ _ Er). apply dedup_scan_spec in Ek as (Hsub & _).
    rewrite Forall_forall in Ef |- *. intros c Hc. apply Ef.
    eapply elem_of_sublist; [|apply surviving_sublist]. by eapply elem_of_sublist. }
  by destruct (expanded st); simpl in H; injection H as <-.
Qed.

Lemma rounds_keeps fuel inner e e' :
  rounds model next prev threshold fuel inner e = Done e' →
  Forall P (candidates (cluster e)) → Forall P (candidates (cluster e')).
Proof.
  revert e. induction fuel as [|fuel IH]; intros e; simpl; [done|].
  destruct (round model next prev threshold inner e) as [f|x|] eqn:Er; simpl; [|done..].
  intros H Hs. apply round_keeps in Er; [|done].
  destruct f as [e1|e1]; [by injection H as <-|]. by apply IH in H.
Qed.

Lemma context_expansion_keeps fuel cl cl' snaps :
  context_expansion model next prev threshold fuel cl = Done (cl', snaps) →
  Forall selects_position (candidates cl) → Forall P (candidates cl) →
  Forall (λ c', ∃ cur, context c' = Ok cur ∧ history c' = [cur] ∧ P c') (candidates cl').
Proof.
  unfold context_expansion. intros Hrun Hsel HP.
  destruct (rounds _ _ _ _ _ _ _) as [e|x|] eqn:Er; simpl in Hrun; [|done..].
  destruct (mapM (clear_history []) (candidates (cluster e))) as [l|x] eqn:El;
    simpl in Hrun; [|done].
  injection Hrun as <- <-. simpl.
  pose proof (rounds_selections _ _ _ _ _ _ _ _ Er Hsel) as Hs.
  pose proof (rounds_keeps _ _ _ _ Er HP) as Hp.
  apply rounds_inv in Er as (_ & _ & _ & Hctx & _).
  apply mapM_result_Forall2 in El. clear -El Hs Hp Hctx P_tamer.
  induction El as [|c c' l l' H _ IH]; [done|].
  apply Forall_cons in Hs as [Hs1 Hs]. apply Forall_cons in Hp as [Hp1 Hp].
  apply Forall_cons in Hctx as [Hc1 Hctx]. constructor; [|by apply IH].
  destruct (context c) as [cur|] eqn:Ec; [|done].
  destruct (clear_history_plain c cur Ec Hs1) as (c'' & Hcl & Hh & Hc'').
  rewrite H in Hcl. injection Hcl as <-. exists cur. split_and!; try done.
  eapply P_tamer; [|exact Hp1]. by eapply clear_history_tamer.
Qed.

End Histories.

Section Windows.
Variable model : string → Q.
Variables next prev : SentenceChain → Z → list SentenceChain.
Variable threshold : Q.

(** X18. If every state of every candidate holds the candidate's anchor and
    the selections are [-1] or non-negative indices, as for constructed
    candidates, then every candidate the engine returns has a history of one
    state, its context, and that window holds the anchor. *)
Theorem engine_windows_hold_anchor fuel cl cl' snaps :
  Forall (λ c, selects_position c ∧ anchored c) (candidates cl) →
  context_expansion model next prev threshold fuel cl = Done (cl', snaps) →
  Forall (λ c', ∃ cur, context c' = Ok cur ∧ history c' = [cur] ∧ chain c' ∈ chains cur)
         (candidates cl').
Proof.
  intros [Hs Ha]%Forall_and Hrun.
  eapply Forall_impl;
    [exact (context_expansion_keeps model next prev threshold anchored
              ltac:(by intros c c' (_ & _ & ? & _)) _ _ _ _ Hrun Hs Ha)|].
  intros c' (cur & Hc & Hh & Hanch). exists cur. split_and!; try done.
  unfold anchored in Hanch. rewrite Hh in Hanch. by apply Forall_cons in Hanch as [? _].
Qed.

(** X19. If the score of every state of every candidate is the
    cross-encoder's value on the joined text of that state's window (as for
    seeds and for every state the growth methods add), then so is the score
    of every candidate the engine returns. *)
Theorem engine_scores_are_model_scores fuel cl cl' snaps :
  Forall (λ c, selects_position c ∧ scored model c) (candidates cl) →
  context_expansion model next prev threshold fuel cl = Done (cl', snaps) →
  Forall (λ c', ∃ cur, context c' = Ok cur ∧ cand_score c' = Ok (model (state_text cur)))
         (candidates cl').
Proof.
  intros [Hs Ha]%Forall_and Hrun.
  eapply Forall_impl;
    [exact (context_expansion_keeps model next prev threshold (scored model)
              ltac:(by intros c c' (_ & _ & _ & ?)) _ _ _ _ Hrun Hs Ha)|].
  intros c' (cur & Hc & Hh & Hsc). exists cur. split; [done|].
  unfold cand_score. rewrite Hc. simpl. f_equal.
  unfold scored in Hsc. rewrite Hh in Hsc. by apply Forall_cons in Hsc as [? _].
Qed.

End Windows.

Lemma seed_cluster_sound model chs :
  Forall (λ c, selects_position c ∧ anchored c ∧ scored model c)
         (candidates (seed_cluster model chs)).
Proof.
  unfold seed_cluster. simpl. apply Forall_fmap, Forall_forall. intros ch _. simpl.
  split_and!.
  - by left.
  - repeat constructor.
  - constructor; [|done]. simpl. unfold predict_joined. simpl. done.
Qed.

(** A run of the theorem on [pair_cluster]: the window 4-5 around the anchor 5. *)
Lemma engine_windows_hold_anchor_witness :
  ∃ cl' snaps,
    context_expansion model_def (doc_next doc_def) (doc_prev doc_def) default_threshold
      2 pair_cluster = Done (cl', snaps)
    ∧ Forall (λ c', ∃ cur, context c' = Ok cur ∧ history c' = [cur] ∧ chain c' ∈ chains cur)
             (candidates cl').
Proof.
  eexists. eexists. split; [vm_compute; reflexivity|].
  refine (engine_windows_hold_anchor model_def (doc_next doc_def) (doc_prev doc_def)
            default_threshold 2 pair_cluster _ _ _ _).
  - repeat constructor.
  - vm_compute. reflexivity.
Defined.

(** A run of the theorem on [pair_cluster]: the window "d e " is worth 1. *)
Lemma engine_scores_are_model_scores_witness :
  ∃ cl' snaps,
    context_expansion model_def (doc_next doc_def) (doc_prev doc_def) default_threshold
      2 pair_cluster = Done (cl', snaps)
    ∧ mapM cand_score (candidates cl') = Ok [1%Q]
    ∧ Forall (λ c', ∃ cur, context c' = Ok cur
                           ∧ cand_score c' = Ok (model_def (state_text cur)))
             (candidates cl').
Proof.
  eexists. eexists. split; [vm_compute; reflexivity|]. split; [reflexivity|].
  refine (engine_scores_are_model_scores model_def (doc_next doc_def) (doc_prev doc_def)
            default_threshold 2 pair_cluster _ _ _ _).
  - repeat constructor.
  - vm_compute. reflexivity.
Defined.

(** ** [ChainCluster.kth_most_similar_chain] *)

Section Similarity.
Variable sims : list SentenceChain → nat → Q.

Lemma getitem_fmap_nat (l : list nat) a i :
  l !! a = Some i → getitem (Z.of_nat <$> l) (Z.of_nat a) = Ok (Z.of_nat i).
Proof.
  intros H. apply getitem_Ok. exists a. split.
  - apply norm_index_nat. rewrite length_fmap. by eapply lookup_lt_Some.
  - by rewrite list_lookup_fmap, H.
Qed.

Lemma getitem_beyond {A} (l : list A) k :
  Z.of_nat (length l) ≤ k → getitem l k = Raise IndexError.
Proof.
  intros H. unfold getitem, norm_index.
  assert ((k <? Z.of_nat (length l)) = false) as -> by (apply Z.ltb_ge; lia).
  assert ((k <? 0) = false) as -> by (apply Z.ltb_ge; lia).
  by rewrite !andb_false_r.
Qed.

(** X20. [kth_most_similar_chain] on a cluster whose order is not cached yet.
    For the outlier cluster (negative label) every call returns [None] and
    caches nothing. Otherwise the call caches a rearrangement of the chain
    positions in which the summed similarities never increase; position [k]
    of that order decides the chain returned for [k], so that the calls for
    [k = 0, ..., len - 1] return every chain of the cluster once; an index
    [k >= len] raises [IndexError]; and the same call on the cluster with
    the cache filled returns the same and changes nothing. *)
Theorem kth_most_similar_chain_ranks (cl : Clustering.ChainCluster) :
  Clustering.similarity_sorted_indices cl = None →
  (Clustering.label cl < 0 →
   ∀ k, Clustering.kth_most_similar_chain sims k cl = (cl, Ok None))
  ∧ (0 ≤ Clustering.label cl →
     ∃ order : list nat,
       order ≡ₚ seq 0 (length (Clustering.chains cl))
       ∧ (∀ a b i j, (a < b)%nat → order !! a = Some i → order !! b = Some j →
            (sims (Clustering.chains cl) j <= sims (Clustering.chains cl) i)%Q)
       ∧ ∀ k,
           let r := Clustering.kth_most_similar_chain sims k cl in
           r.1 = Clustering.mkChainCluster (Clustering.label cl) (Clustering.chains cl)
                   (Some (Z.of_nat <$> order))
           ∧ Clustering.kth_most_similar_chain sims k r.1 = r
           ∧ (∀ a i, k = Z.of_nat a → order !! a = Some i →
                ∃ c, Clustering.chains cl !! i = Some c ∧ r.2 = Ok (Some c))
           ∧ (Z.of_nat (length (Clustering.chains cl)) ≤ k → r.2 = Raise IndexError)).
Proof.
  intros Hnone. unfold Clustering.kth_most_similar_chain. rewrite Hnone. split.
  { intros Hl k. by assert ((0 <=? Clustering.label cl) = false) as -> by (apply Z.leb_gt; lia). }
  intros Hl. assert ((0 <=? Clustering.label cl) = true) as -> by (apply Z.leb_le; lia).
  set (before := λ j i : nat,
         Qlt_bool (sims (Clustering.chains cl) i) (sims (Clustering.chains cl) j)).
  set (order := sort_by before (seq 0 (length (Clustering.chains cl)))).
  assert (Hasym : ∀ a b, before a b = true → before b a = false).
  { intros a b. unfold before. rewrite Qlt_bool_iff, Qlt_bool_false. apply Qlt_le_weak. }
  assert (Htrans : ∀ a b c, may_precede before a b → may_precede before b c →
                            may_precede before a c).
  { intros a b c. unfold may_precede, before. rewrite !Qlt_bool_false.
    intros H1 H2. by eapply Qle_trans. }
  assert (Hperm : order ≡ₚ seq 0 (length (Clustering.chains cl)))
    by apply sort_by_perm.
  exists order. split; [done|]. split.
  { intros a b i j Hab Ha Hb.
    pose proof (sort_by_sorted before Hasym Htrans (seq 0 (length (Clustering.chains cl))))
      as Hs.
    pose proof (StronglySorted_lookup_lt _ _ _ _ _ _ Hs Hab Ha Hb) as Hij.
    unfold may_precede, before in Hij. by apply Qlt_bool_false in Hij. }
  intros k. unfold Clustering.calculate_similarity_sorted_indices. fold before. fold order.
  cbv zeta. cbn [fst snd Clustering.similarity_sorted_indices]. split_and!; try done.
  - intros a i -> Ha. unfold Clustering.cached_kth. cbn [Clustering.chains].
    rewrite (getitem_fmap_nat _ _ _ Ha). cbn [mbind result_bind].
    assert (i < length (Clustering.chains cl))%nat as Hi.
    { assert (i ∈ seq 0 (length (Clustering.chains cl))) as Hin%elem_of_seq; [|lia].
      rewrite <- Hperm. by eapply list_elem_of_lookup_2. }
    destruct (lookup_lt_is_Some_2 _ _ Hi) as [c Hc]. exists c. split; [done|].
    assert (getitem (Clustering.chains cl) (Z.of_nat i) = Ok c) as ->; [|done].
    apply getitem_Ok. exists i. split; [by apply norm_index_nat|done].
  - intros Hk. unfold Clustering.cached_kth.
    rewrite getitem_beyond; [done|]. rewrite length_fmap, Hperm, length_seq. done.
Qed.

End Similarity.

(** A run of the theorem: with the sums 1, 3 and 2 the chain at position 1
    is the most similar one, the chain at position 0 the least. *)
Lemma kth_most_similar_chain_ranks_witness :
  (Clustering.kth_most_similar_chain Clustering.sims_def 0 Clustering.cluster_def).2
  = Ok (Some (mkChain 5 "e "))
  ∧ ∃ order, order ≡ₚ [0; 1; 2]%nat
      ∧ (Clustering.kth_most_similar_chain Clustering.sims_def 2 Clustering.cluster_def).1
        = Clustering.mkChainCluster 0 (Clustering.chains Clustering.cluster_def)
            (Some (Z.of_nat <$> order)).
Proof.
  split; [reflexivity|].
  destruct (proj2 (kth_most_similar_chain_ranks Clustering.sims_def Clustering.cluster_def
                     eq_refl) ltac:(simpl; lia)) as (order & Hp & _ & Hk).
  exists order. split; [exact Hp|]. apply (Hk 2).
Defined.

(** ** [merge_candidates] on windows of consecutive units *)

Lemma unit_indices_fmap s : unit_indices s = chain_index <$> chains s.
Proof. unfold unit_indices. induction (chains s) as [|x l IH]; simpl; [done|]. by rewrite IH. Qed.

Lemma drop_seqZ (c q : Z) (m : nat) :
  Z.of_nat m ≤ q → drop m (seqZ c q) = seqZ (c + Z.of_nat m) (q - Z.of_nat m).
Proof.
  intros Hm. replace q with (Z.of_nat m + (q - Z.of_nat m)) at 1 by lia.
  rewrite seqZ_app by lia. rewrite drop_app_length'; [done|].
  rewrite length_seqZ. lia.
Qed.

Lemma contiguous_range c cur a n :
  context c = Ok cur → 0 < n → unit_indices cur = seqZ a n →
  cand_index_range c = Ok (a, a + n) ∧ Z.of_nat (length (chains cur)) = n.
Proof.
  intros Hc Hn Hu. rewrite unit_indices_fmap in Hu.
  assert (Z.of_nat (length (chains cur)) = n) as Hlen.
  { apply (f_equal length) in Hu. rewrite length_fmap, length_seqZ in Hu. lia. }
  split; [|done]. unfold cand_index_range. rewrite Hc. simpl.
  unfold index_range, first_index, last_index. rewrite getitem_first, getitem_last.
  assert (∀ i, (Z.of_nat i < n) →
            ∃ x, chains cur !! i = Some x ∧ chain_index x = a + Z.of_nat i) as Hat.
  { intros i Hi. pose proof (lookup_seqZ_lt a n i Hi) as Hl.
    rewrite <- Hu, list_lookup_fmap in Hl.
    destruct (chains cur !! i) as [x|]; [|done]. injection Hl as Hx. eauto. }
  destruct (Hat 0%nat) as (f & Hf & Hfa); [lia|].
  destruct (Hat (pred (length (chains cur)))) as (l & Hl & Hla); [lia|].
  rewrite head_lookup, Hf, last_lookup, Hl. simpl. do 2 f_equal; lia.
Qed.

Lemma extend_context_spec extra c cur :
  context c = Ok cur →
  ∃ c', extend_context extra c = Ok c'
        ∧ context c' = Ok (set_chains (chains cur ++ extra) cur).
Proof.
  intros Hc. unfold extend_context. rewrite Hc. simpl.
  destruct (setattr_context (set_chains (chains cur ++ extra)) c cur Hc) as (h & -> & Hh).
  simpl. eauto.
Qed.

Lemma slice_from_drop {A} (l : list A) (k : Z) :
  0 ≤ k → slice_from l k = drop (Z.to_nat (Z.min k (Z.of_nat (length l)))) l.
Proof. intros Hk. unfold slice_from. by assert ((k <? 0) = false) as -> by (apply Z.ltb_ge; lia). Qed.

(** One iteration of the scan: either the candidate is merged into [prev],
    whose window then is the union of the two windows, or it replaces it. *)
Lemma merge_step_windows thr prev keep candidate prev' keep' :
  contiguous prev → contiguous candidate →
  merge_step thr (prev, keep) candidate = Ok (prev', keep') →
  (keep' = keep ∧ contiguous prev'
   ∧ ∀ u, covers [prev'] u ↔ covers [prev; candidate] u)
  ∨ (prev' = candidate ∧ keep' = keep ++ [prev]).
Proof.
  intros (cp & a & p & Hcp & Hp & Hup) (cc & c & q & Hcc & Hq & Huc).
  destruct (contiguous_range _ _ _ _ Hcp Hp Hup) as [Hrp Hlp].
  destruct (contiguous_range _ _ _ _ Hcc Hq Huc) as [Hrc Hlc].
  assert (∀ extra, unit_indices (set_chains (chains cp ++ extra) cp)
                     = seqZ a p ++ (chain_index <$> extra)) as Hunits.
  { intros extra. rewrite unit_indices_fmap. simpl.
    by rewrite fmap_app, <- unit_indices_fmap, Hup. }
  assert (∀ x u, covers [x] u ↔ ∃ cur, context x = Ok cur ∧ u ∈ unit_indices cur) as Hone.
  { intros x u. split.
    - intros (y & cur & Hy & ? & ?). apply list_elem_of_singleton in Hy as ->. eauto.
    - intros (cur & ? & ?). exists x, cur. split; [by left|done]. }
  assert (∀ u, covers [prev; candidate] u ↔ a ≤ u < a + p ∨ c ≤ u < c + q) as Htwo.
  { intros u. split.
    - intros (y & cur & Hin & Hy & Hu).
      apply elem_of_cons in Hin as [->|Hin]; [|apply list_elem_of_singleton in Hin as ->].
      + rewrite Hcp in Hy. injection Hy as <-. rewrite Hup in Hu.
        apply elem_of_seqZ in Hu. auto.
      + rewrite Hcc in Hy. injection Hy as <-. rewrite Huc in Hu.
        apply elem_of_seqZ in Hu. auto.
    - intros [Hu|Hu].
      + exists prev, cp. split; [by left|]. split; [done|]. rewrite Hup.
        by apply elem_of_seqZ.
      + exists candidate, cc. split; [right; by left|]. split; [done|]. rewrite Huc.
        by apply elem_of_seqZ. }
  unfold merge_step. intros H.
  bind_in H as sp Esp. bind_in H as sc Esc.
  destruct (Qle_bool _ _); [|injection H as <- <-; by right].
  rewrite Hrc, Hrp in H. cbn [mbind result_bind fst snd] in H.
  destruct (in_range c (a, a + p)) eqn:Ein.
  - apply andb_true_iff in Ein as [H1%Z.leb_le H2%Z.ltb_lt]. simpl in H1, H2.
    rewrite Hcc in H. cbn [mbind result_bind] in H.
    destruct (extend_context_spec
                (slice_from (chains cc) (Z.of_nat (length (chains cc)) - (c + q - (a + p))))
                prev cp Hcp) as (x & Hx & Hcx).
    rewrite Hx in H. cbn [mbind result_bind] in H. injection H as <- <-. left.
    split; [done|].
    rewrite slice_from_drop in Hcx by lia.
    set (m := Z.to_nat (Z.min (Z.of_nat (length (chains cc)) - (c + q - (a + p)))
                              (Z.of_nat (length (chains cc))))) in *.
    assert (Z.of_nat m = Z.min (a + p - c) q) as Hm by (unfold m; rewrite Hlc; lia).
    clearbody m.
    assert (unit_indices (set_chains (chains cp ++ drop m (chains cc)) cp)
            = seqZ a (p + (q - Z.of_nat m))) as Hu.
    { rewrite Hunits, fmap_drop, <- unit_indices_fmap, Huc.
      rewrite drop_seqZ by lia. rewrite seqZ_app by lia. f_equal.
      destruct (decide (a + p - c ≤ q)).
      - f_equal; lia.
      - by rewrite !seqZ_nil by lia. }
    split.
    + eexists _, a, _. split; [exact Hcx|]. split; [|exact Hu]. lia.
    + intros u. rewrite Hone, Htwo. split.
      * intros (cur & Hc' & Hin). rewrite Hcx in Hc'. injection Hc' as <-.
        rewrite Hu in Hin. apply elem_of_seqZ in Hin. lia.
      * intros Hin. eexists. split; [exact Hcx|]. rewrite Hu. apply elem_of_seqZ. lia.
  - destruct (bool_decide (c = a + p)) eqn:En; cbn [fst snd] in H.
    + apply bool_decide_eq_true in En.
      rewrite Hcc in H. cbn [mbind result_bind] in H.
      destruct (extend_context_spec (chains cc) prev cp Hcp) as (x & Hx & Hcx).
      rewrite Hx in H. cbn [mbind result_bind] in H. injection H as <- <-. left.
      split; [done|].
      assert (unit_indices (set_chains (chains cp ++ chains cc) cp) = seqZ a (p + q)) as Hu.
      { rewrite Hunits, <- unit_indices_fmap, Huc, seqZ_app by lia. by rewrite En. }
      split.
      * eexists _, a, _. split; [exact Hcx|]. split; [|exact Hu]. lia.
      * intros u. rewrite Hone, Htwo. split.
        -- intros (cur & Hc' & Hin). rewrite Hcx in Hc'. injection Hc' as <-.
           rewrite Hu in Hin. apply elem_of_seqZ in Hin. lia.
        -- intros Hin. eexists. split; [exact Hcx|]. rewrite Hu. apply elem_of_seqZ. lia.
    + injection H as <- <-. by right.
Qed.

Lemma covers_app l1 l2 u : covers (l1 ++ l2) u ↔ covers l1 u ∨ covers l2 u.
Proof.
  unfold covers. split.
  - intros (c & cur & [Hc|Hc]%elem_of_app & ? & ?); [left|right]; eauto.
  - intros [(c & cur & Hc & ? & ?)|(c & cur & Hc & ? & ?)]; exists c, cur;
      (split; [apply elem_of_app; auto|done]).
Qed.

Lemma covers_perm l1 l2 u : l1 ≡ₚ l2 → covers l1 u ↔ covers l2 u.
Proof.
  intros Hp. unfold covers. split; intros (c & cur & Hc & ? & ?); exists c, cur;
    (split; [|done]); [by rewrite <- Hp|by rewrite Hp].
Qed.

Lemma merge_scan_windows thr l prev keep prev' keep' :
  contiguous prev → Forall contiguous keep → Forall contiguous l →
  merge_scan thr (prev, keep) l = Ok (prev', keep') →
  Forall contiguous (keep' ++ [prev'])
  ∧ ∀ u, covers (keep' ++ [prev']) u ↔ covers (keep ++ prev :: l) u.
Proof.
  revert prev keep. induction l as [|x l IH]; intros prev keep Hp Hk Hl.
  - simpl. intros [= <- <-]. split; [|done]. apply Forall_app. split; [done|].
    by constructor.
  - change (merge_scan thr (prev, keep) (x :: l))
      with (merge_step thr (prev, keep) x ≫= λ acc, merge_scan thr acc l).
    apply Forall_cons in Hl as [Hx Hl].
    destruct (merge_step thr (prev, keep) x) as [[p k]|e] eqn:Es; [|done].
    cbn [mbind result_bind]. intros H.
    destruct (merge_step_windows _ _ _ _ _ _ Hp Hx Es) as [(-> & Hp' & Hcov)|[-> ->]].
    + apply IH in H as [H1 H2]; [|done..]. split; [done|].
      intros u. rewrite H2. rewrite !covers_app.
      change (p :: l) with ([p] ++ l). change (prev :: x :: l) with ([prev; x] ++ l).
      rewrite !covers_app, Hcov. done.
    + apply IH in H as [H1 H2]; [|done| |done].
      2:{ apply Forall_app. split; [done|]. by constructor. }
      split; [done|]. intros u. rewrite H2. by rewrite <- app_assoc.
Qed.

Section MergeWindows.
Variable model : string → Q.

Lemma rescore_window c c' :
  rescore model c = Ok c' →
  (contiguous c → contiguous c') ∧ ∀ u, covers [c'] u ↔ covers [c] u.
Proof.
  intros (_ & _ & _ & (cur & Hc & Hc') & _)%rescore_spec.
  assert (∀ x cx u, context x = Ok cx →
            covers [x] u ↔ u ∈ unit_indices cx) as Hone.
  { intros x cx u Hx. split.
    - intros (y & cy & Hin & Hy & ?). apply list_elem_of_singleton in Hin as ->.
      congruence.
    - intros ?. exists x, cx. split; [by left|done]. }
  split.
  - intros (cur0 & a & n & Hc0 & Hn & Hu). rewrite Hc in Hc0. injection Hc0 as <-.
    eexists _, a, n. split; [exact Hc'|]. split; [done|]. by rewrite <- Hu.
  - intros u. by rewrite (Hone _ _ _ Hc), (Hone _ _ _ Hc').
Qed.

Lemma mapM_rescore_windows l l' :
  mapM (rescore model) l = Ok l' →
  (Forall contiguous l → Forall contiguous l') ∧ ∀ u, covers l' u ↔ covers l u.
Proof.
  intros H%mapM_result_Forall2. induction H as [|c c' l l' Hc _ [IH1 IH2]]; [done|].
  apply rescore_window in Hc as [Hc1 Hc2]. split.
  - intros [? ?]%Forall_cons. constructor; auto.
  - intros u. change (c' :: l') with ([c'] ++ l'). change (c :: l) with ([c] ++ l).
    by rewrite !covers_app, Hc2, IH2.
Qed.

(** X21. [merge_candidates] on candidates whose contexts are windows of
    consecutive units: when it returns, the contexts still are windows of
    consecutive units and together they hold exactly the units that the
    contexts held before, so that merging loses no unit and adds none. *)
Theorem merge_candidates_joins_windows thr cl cl' :
  Forall contiguous (candidates cl) →
  merge_candidates model thr cl = Ok cl' →
  Forall contiguous (candidates cl')
  ∧ ∀ u, covers (candidates cl') u ↔ covers (candidates cl) u.
Proof.
  intros Hall. unfold merge_candidates.
  destruct (with_keys cand_first_index (candidates cl)) as [keyed|e] eqn:Ek; simpl; [|done].
  set (sorted := (sort_by (λ y x : Z * SummaryCandidate, y.1 <? x.1) keyed).*2).
  assert (sorted ≡ₚ candidates cl) as Hperm.
  { apply with_keys_inv in Ek as [<- _]. unfold sorted. by rewrite sort_by_perm. }
  destruct (getitem sorted 0) as [prev|e] eqn:Ep; simpl; [|done].
  assert (sorted = prev :: drop 1 sorted) as Hs.
  { rewrite getitem_first in Ep. destruct sorted as [|x r]; simpl in *; [done|].
    injection Ep as ->. by rewrite drop_0. }
  assert (Forall contiguous sorted) as Hsorted by (by rewrite Hperm).
  rewrite Hs in Hsorted. apply Forall_cons in Hsorted as [Hprev Hrest].
  destruct (merge_scan thr (prev, []) (drop 1 sorted)) as [[prev' keep]|e] eqn:Em; simpl; [|done].
  apply merge_scan_windows in Em as [Hc Hcov]; [|done..].
  rewrite app_nil_l, <- Hs in Hcov.
  unfold rescore_candidates. simpl.
  destruct (mapM (rescore model) (keep ++ [prev'])) as [l|e] eqn:El; simpl; [|done].
  apply mapM_rescore_windows in El as [Hl1 Hl2].
  unfold rerank_candidates. simpl.
  destruct (rerank_list l) as [l'|e] eqn:Er; simpl; [|done].
  intros [= <-]. simpl. pose proof (rerank_list_perm _ _ Er) as Hp'.
  split; [rewrite Hp'; auto|].
  intros u. rewrite (covers_perm _ _ u Hp'), Hl2, Hcov. by apply covers_perm.
Qed.

End MergeWindows.

(** A run of the theorem: the windows 4 and 5-6 of [touching_cluster] are
    neighbours and become the window 4-6. *)
Lemma merge_candidates_joins_windows_witness :
  ∃ cl', merge_candidates model_def 2 touching_cluster = Ok cl'
         ∧ (mapM context (candidates cl') ≫= λ l, Ok (unit_indices <$> l)) = Ok [[4; 5; 6]]
         ∧ Forall contiguous (candidates cl').
Proof.
  eexists. split; [vm_compute; reflexivity|]. split; [reflexivity|].
  refine (proj1 (merge_candidates_joins_windows model_def 2 touching_cluster _ _ _)).
  - constructor; [|constructor; [|constructor]].
    + eexists _, 5, 2. split; [reflexivity|]. split; [lia|reflexivity].
    + eexists _, 4, 1. split; [reflexivity|]. split; [lia|reflexivity].
  - vm_compute. reflexivity.
Defined.
